(** * PyAbel: two-point Abel deconvolution and image circularization

    A shallow embedding of [abel/two_point.py] and
    [abel/tools/circularize.py].

    Modelling conventions.
    - A numpy [float64] is an exact real ([R]): rounding is not modelled,
      so equalities between formulas hold up to floating-point rounding.
      Where [correction] divides by the radial grid, which starts at the
      origin, the division is [true_divide], which returns numpy's [nan]
      or [inf] for a zero divisor; a grid spacing or a correction factor
      of zero is outside the model.
    - A numpy integer index is a [Z]; a negative index counts from the end
      of the axis, an index outside the axis raises [IndexError].
    - A 1D array is a list; a 2D array carries its shape beside its rows,
      because a numpy array with no rows still has a column count.
    - A Python exception is a value of [exn]; a call that can raise
      returns a [result].
    - The functions of the two modules run in [M], which records the
      array work a run has started, in order, beside its result: what has
      happened before an exception is raised is then a matter of fact.
    - scipy's and the package's own functions that the two modules call
      but do not define are parameters of the model. *)

From Stdlib Require Import Reals Lra Lia ZArith List String Ascii Bool.
From stdpp Require Import base list.
Import ListNotations.

(** ** Exceptions and results *)

Inductive exn : Type :=
| ValueError (msg : string)
| IndexError (msg : string)
| ZeroDivisionError (msg : string).

Inductive result (A : Type) : Type :=
| Ok (a : A)
| Raise (e : exn).

Arguments Ok {A} a.
Arguments Raise {A} e.

Definition bind {A B : Type} (r : result A) (k : A -> result B) : result B :=
  match r with
  | Ok a => k a
  | Raise e => Raise e
  end.

Definition result_map {A B : Type} (f : A -> B) (r : result A) : result B :=
  bind r (fun a => Ok (f a)).

Notation "x <- r ;; k" := (bind r (fun x => k))
  (at level 100, r at next level, right associativity).

(** ** Recorded computations *)

(** The array work a function can start, one entry per library call. *)
Inductive work : Type :=
| Promote           (* np.atleast_2d *)
| Operator          (* the D-operator: np.zeros, index arrays and stores *)
| Tensordot         (* np.tensordot *)
| Zoom              (* ndimage.zoom *)
| Center            (* abel.tools.center.center_image *)
| Reproject         (* abel.tools.polar.reproject_image_into_polar *)
| InverseTransform  (* abel.dasch.two_point_transform *)
| Crop              (* radial-range mask and selection *)
| Split             (* np.array_split, np.hsplit and mean *)
| ProfileSum        (* aslice.sum(axis=1) *)
| Argmax            (* profile.argmax() *)
| Take              (* radial[...] *)
| Elementwise       (* elementwise arithmetic on whole arrays *)
| Leastsq           (* scipy.optimize.leastsq *)
| Residual          (* residual(...) called by correction *)
| SplineFit         (* UnivariateSpline(...) *)
| Remap.            (* circularize: grid, angles, map_coordinates *)

(** A computation that records the array work it starts, in order, and
    ends in a value or an exception. *)
Definition M (A : Type) : Type := (list work * result A)%type.

Definition ret {A : Type} (a : A) : M A := ([], Ok a).

Definition raise {A : Type} (e : exn) : M A := ([], Raise e).

Definition and_then {A B : Type} (m : M A) (k : A -> M B) : M B :=
  match m with
  | (t, Ok a) => let (t', r) := k a in (t ++ t', r)
  | (t, Raise e) => (t, Raise e)
  end.

(** One library call: the work is recorded, then its outcome stands. *)
Definition call {A : Type} (w : work) (r : result A) : M A := ([w], r).

Notation "x <~ m ;; k" := (and_then m (fun x => k))
  (at level 100, m at next level, right associativity).

Definition trace {A : Type} (m : M A) : list work := fst m.
Definition outcome {A : Type} (m : M A) : result A := snd m.

(** ** numpy arrays *)

Record array2 : Type := Array2 {
  shape0 : nat;               (* number of rows *)
  shape1 : nat;               (* number of columns *)
  data : list (list R)        (* the rows *)
}.

Inductive ndarray : Type :=
| A1 (v : list R)
| A2 (a : array2).

(** The arrays numpy can build: the rows agree with the shape. *)
Definition wf2 (a : array2) : Prop :=
  length (data a) = shape0 a /\ Forall (fun r => length r = shape1 a) (data a).

Definition wf (IM : ndarray) : Prop :=
  match IM with
  | A1 _ => True
  | A2 a => wf2 a
  end.

Definition ndim (IM : ndarray) : nat :=
  match IM with
  | A1 _ => 1
  | A2 _ => 2
  end.

(** [IM.shape[0]], the leading dimension. *)
Definition leading_dim (IM : ndarray) : nat :=
  match IM with
  | A1 v => length v
  | A2 a => shape0 a
  end.

(** [np.atleast_2d]: a 1D array of length N becomes one row of N columns. *)
Definition atleast_2d (IM : ndarray) : array2 :=
  match IM with
  | A1 v => Array2 1 (length v) [v]
  | A2 a => a
  end.

(** A numpy index on an axis of size [n]: negative indices wrap once. *)
Definition norm_index (n : nat) (i : Z) : option nat :=
  if ((0 <=? i) && (i <? Z.of_nat n))%Z then Some (Z.to_nat i)
  else if ((- Z.of_nat n <=? i) && (i <? 0))%Z then Some (Z.to_nat (i + Z.of_nat n))
  else None.

Definition index_out_of_bounds : exn :=
  IndexError "index is out of bounds for axis".

(** [D[i, j]] on a list of rows. *)
Definition getitem2 (D : list (list R)) (i j : Z) : result R :=
  match norm_index (length D) i with
  | None => Raise index_out_of_bounds
  | Some i' =>
      match D !! i' with
      | None => Raise index_out_of_bounds
      | Some row =>
          match norm_index (length row) j with
          | None => Raise index_out_of_bounds
          | Some j' =>
              match row !! j' with
              | Some x => Ok x
              | None => Raise index_out_of_bounds
              end
          end
      end
  end.

(** [D[i, j] = v]. *)
Definition setitem2 (D : list (list R)) (i j : Z) (v : R)
  : result (list (list R)) :=
  match norm_index (length D) i with
  | None => Raise index_out_of_bounds
  | Some i' =>
      match D !! i' with
      | None => Raise index_out_of_bounds
      | Some row =>
          match norm_index (length row) j with
          | None => Raise index_out_of_bounds
          | Some j' => Ok (<[i' := <[j' := v]> row]> D)
          end
      end
  end.

(** [D[Ii, Jj] = V] with index arrays [Ii], [Jj] and a value array [V] of
    one common length: one scalar store per position, in order. *)
Fixpoint setitem2_fancy (D : list (list R)) (Ii Jj : list Z) (V : list R)
  : result (list (list R)) :=
  match Ii, Jj, V with
  | [], [], [] => Ok D
  | i :: Ii', j :: Jj', v :: V' =>
      bind (setitem2 D i j v) (fun D' => setitem2_fancy D' Ii' Jj' V')
  | _, _, _ => Raise (ValueError "shape mismatch: arrays could not be broadcast together")
  end.

(** [np.zeros((n, m))]. *)
Definition zeros (n m : nat) : list (list R) := replicate n (replicate m 0%R).

(** [np.arange(n)]. *)
Definition arange (n : nat) : list Z := map Z.of_nat (seq 0 n).

(** [np.diag_indices(n)]. *)
Definition diag_indices (n : nat) : list Z * list Z := (arange n, arange n).

(** [np.triu_indices(n, k=1)]: the cells above the diagonal, row by row. *)
Definition triu_pairs (n : nat) : list (Z * Z) :=
  flat_map (fun i => map (fun j => (Z.of_nat i, Z.of_nat j)) (seq (S i) (n - S i)))
           (seq 0 n).

Definition triu_indices (n : nat) : list Z * list Z :=
  (map fst (triu_pairs n), map snd (triu_pairs n)).

(** [a[1:]]. *)
Definition drop1 {A : Type} (a : list A) : list A := tl a.

(** Inner product of two rows, the contraction of [np.tensordot]. *)
Definition dot (a b : list R) : R := fold_right Rplus 0%R (zip_with Rmult a b).

(** [np.tensordot(IM, D, axes=(1, 1))]: [out[r, i] = sum_k IM[r, k] * D[i, k]]. *)
Definition tensordot (IM : array2) (D : list (list R)) : array2 :=
  Array2 (shape0 IM) (length D)
         (map (fun row => map (fun drow => dot row drow) D) (data IM)).

(** ** abel/two_point.py *)

Module two_point.

Local Open Scope R_scope.

(** The quotation mark of the message, which quotes the method's name. *)
Definition dq : string := String (ascii_of_nat 34) EmptyString.

Definition forward_not_implemented : exn :=
  ValueError ("Forward " ++ dq ++ "two_point" ++ dq ++ " transform not implemented").

(** [def J(i, j)], basis function Eq. (9), for [j >= i]. *)
Definition J (i j : Z) : R :=
  ln ((sqrt (IZR ((j + 1) ^ 2 - i ^ 2)) + IZR j + 1) /
      (sqrt (IZR (j ^ 2 - i ^ 2)) + IZR j)) / PI.

(** Lines 62-79: the D-operator for [cols] columns. *)
Definition D_operator (cols : nat) : result (list (list R)) :=
  (* D = np.zeros((cols, cols)) *)
  let D := zeros cols cols in
  (* Ii, Jj = np.diag_indices(cols); Ii = Ii[1:]; Jj = Jj[1:] *)
  let '(Ii, Jj) := diag_indices cols in
  let Ii := drop1 Ii in
  let Jj := drop1 Jj in
  (* D[Ii, Jj] = J(Ii, Jj) *)
  D <- setitem2_fancy D Ii Jj (zip_with J Ii Jj) ;;
  (* Iu, Ju = np.triu_indices(cols, k=1); Iu = Iu[1:]; Ju = Ju[1:] *)
  let '(Iu, Ju) := triu_indices cols in
  let Iu := drop1 Iu in
  let Ju := drop1 Ju in
  (* D[Iu, Ju] = J(Iu, Ju) - J(Iu, Ju-1) *)
  D <- setitem2_fancy D Iu Ju
         (zip_with Rminus (zip_with J Iu Ju)
                          (zip_with J Iu (map (fun j => (j - 1)%Z) Ju))) ;;
  (* D[0, 1] = J(0, 1) - 2/np.pi *)
  D <- setitem2 D 0 1 (J 0 1 - 2 / PI) ;;
  (* D[0, 0] = 2/np.pi *)
  setitem2 D 0 0 (2 / PI).

(** [inv_IM / dr] on a 1D and on a 2D array; [dr] is a grid spacing, and
    a spacing of zero is outside the model. *)
Definition div1 (dr : R) (v : list R) : list R := map (fun x => x / dr) v.

Definition div2 (dr : R) (a : array2) : array2 :=
  Array2 (shape0 a) (shape1 a) (map (div1 dr) (data a)).

Definition divide (dr : R) (a : ndarray) : ndarray :=
  match a with
  | A1 v => A1 (div1 dr v)
  | A2 a => A2 (div2 dr a)
  end.

(** Lines 84-85: a result of one row is flattened to that row. *)
Definition flatten_single_row (inv_IM : array2) : ndarray :=
  if (shape0 inv_IM =? 1)%nat then A1 (default [] (data inv_IM !! 0%nat))
  else A2 inv_IM.

(** [def two_point_transform(IM, dr=1, direction="inverse")], lines 26-87. *)
Definition two_point_transform (IM : ndarray) (dr : R) (direction : string)
  : M ndarray :=
  (* if direction != 'inverse': raise ValueError(...) *)
  if negb (direction =? "inverse")%string then raise forward_not_implemented
  else
    (* IM = np.atleast_2d(IM); rows, cols = IM.shape *)
    IM <~ call Promote (Ok (atleast_2d IM)) ;;
    let cols := shape1 IM in
    D <~ call Operator (D_operator cols) ;;
    (* inv_IM = np.tensordot(IM, D, axes=(1, 1)) *)
    inv_IM <~ call Tensordot (Ok (tensordot IM D)) ;;
    (* if inv_IM.shape[0] == 1: inv_IM = inv_IM[0] *)
    let inv_IM := flatten_single_row inv_IM in
    (* return inv_IM/dr *)
    call Elementwise (Ok (divide dr inv_IM)).

End two_point.

(** ** abel/tools/circularize.py *)

Module circularize.

Local Open Scope R_scope.

(** *** numpy values and calls *)

(** What a numpy division by data returns: a real, [nan] (0/0) or a
    signed [inf] (x/0); numpy warns and raises nothing. *)
Inductive float64 : Type :=
| Finite (x : R)
| NaN
| Inf (negative : bool).

Definition true_divide (x y : R) : float64 :=
  if Req_dec_T y 0
  then if Req_dec_T x 0 then NaN
       else Inf (if Rlt_dec x 0 then true else false)
  else Finite (x / y).

(** [a.sum()] of a 1D array and [aslice.sum(axis=1)] of a 2D one. *)
Definition sum1 (v : list R) : R := fold_right Rplus 0 v.

Definition sum_axis1 (aslice : array2) : list R := map sum1 (data aslice).

(** [profile.argmax()]: the index of the first maximum. *)
Fixpoint argmax_from (best_i : nat) (best : R) (i : nat) (v : list R) : nat :=
  match v with
  | [] => best_i
  | x :: v' =>
      if Rlt_dec best x then argmax_from i x (S i) v'
      else argmax_from best_i best (S i) v'
  end.

Definition argmax (v : list R) : result nat :=
  match v with
  | [] => Raise (ValueError "attempt to get argmax of an empty sequence")
  | x :: v' => Ok (argmax_from 0%nat x 1%nat v')
  end.

(** [radial[i]] and [radial[pkpos]] for indices that are never negative. *)
Definition take1 (a : list R) (i : nat) : result R :=
  match a !! i with
  | Some x => Ok x
  | None => Raise index_out_of_bounds
  end.

Fixpoint take (a : list R) (idx : list nat) : result (list R) :=
  match idx with
  | [] => Ok []
  | i :: idx' =>
      x <- take1 a i ;;
      xs <- take a idx' ;;
      Ok (x :: xs)
  end.

Definition operands_could_not_be_broadcast : exn :=
  ValueError "operands could not be broadcast together".

(** An elementwise binary operation on 1D arrays, with numpy's
    broadcasting of an operand of length one. *)
Definition broadcast (f : R -> R -> R) (a b : list R) : result (list R) :=
  if (length a =? length b)%nat then Ok (zip_with f a b)
  else match a, b with
       | [x], _ => Ok (map (f x) b)
       | _, [y] => Ok (map (fun x => f x y) a)
       | _, _ => Raise operands_could_not_be_broadcast
       end.

(** [a += b] in place: the result keeps the shape of [a]. *)
Definition iadd (a b : list R) : result (list R) :=
  if (length a =? length b)%nat then Ok (zip_with Rplus a b)
  else match b with
       | [y] => Ok (map (fun x => x + y) a)
       | _ => Raise operands_could_not_be_broadcast
       end.

(** [a[:, 0]]. *)
Definition column0 (a : array2) : result (list R) :=
  if (shape1 a =? 0)%nat then Raise index_out_of_bounds
  else Ok (map (fun row => default 0 (row !! 0%nat)) (data a)).

(** [a[0]]. *)
Definition row0 (a : array2) : result (list R) :=
  match data a with
  | row :: _ => Ok row
  | [] => Raise index_out_of_bounds
  end.

(** [a[mask]] on the first axis of a list of rows. *)
Fixpoint select {A : Type} (mask : list bool) (a : list A) : list A :=
  match mask, a with
  | m :: mask', x :: a' => if m then x :: select mask' a' else select mask' a'
  | _, _ => []
  end.

Definition count_true (mask : list bool) : nat :=
  length (List.filter (fun m => m) mask).

Definition boolean_index_mismatch : exn :=
  IndexError "boolean index did not match indexed array".

Definition mask1 (mask : list bool) (a : list R) : result (list R) :=
  if (length mask =? length a)%nat then Ok (select mask a)
  else Raise boolean_index_mismatch.

Definition mask2 (mask : list bool) (a : array2) : result array2 :=
  if (length mask =? shape0 a)%nat
  then Ok (Array2 (count_true mask) (shape1 a) (select mask (data a)))
  else Raise boolean_index_mismatch.

(** The section sizes of [np.array_split(a, n)] for [total] items:
    [total mod n] sections of [total / n + 1], the rest of [total / n]. *)
Definition section_sizes (total n : nat) : list nat :=
  replicate (total mod n)%nat (S (total / n)%nat)
  ++ replicate (n - total mod n)%nat (total / n)%nat.

(** Cut a list into consecutive pieces of the given sizes. *)
Fixpoint cut {A : Type} (sizes : list nat) (a : list A) : list (list A) :=
  match sizes with
  | [] => []
  | k :: sizes' => firstn k a :: cut sizes' (skipn k a)
  end.

Definition transpose_pieces (rows : nat) (sizes : list nat)
           (pieces : list (list (list R))) : list array2 :=
  imap (fun k size =>
          Array2 rows size (map (fun row_pieces => default [] (row_pieces !! k)) pieces))
       sizes.

(** [np.array_split(a, n, axis=1)]. *)
Definition array_split (a : array2) (n : Z) : result (list array2) :=
  if (n <=? 0)%Z then Raise (ValueError "number sections must be larger than 0.")
  else
    let sizes := section_sizes (shape1 a) (Z.to_nat n) in
    Ok (transpose_pieces (shape0 a) sizes (map (cut sizes) (data a))).

(** [np.hsplit(v, n)] of a 1D array: [np.split] tests [N % n] and then
    calls [np.array_split]; equal sections or an error. *)
Definition hsplit (v : list R) (n : Z) : result (list (list R)) :=
  if (n =? 0)%Z then Raise (ZeroDivisionError "integer modulo by zero")
  else if negb (Z.of_nat (length v) mod n =? 0)%Z
       then Raise (ValueError "array split does not result in an equal division")
       else if (n <=? 0)%Z
            then Raise (ValueError "number sections must be larger than 0.")
            else Ok (cut (section_sizes (length v) (Z.to_nat n)) v).

(** [a.mean()] of a 1D array: the mean of nothing is [nan]. *)
Definition mean (v : list R) : float64 := true_divide (sum1 v) (INR (length v)).

(** [np.arctan2(x1, x2)]: the angle of the point with ordinate [x1] and
    abscissa [x2], in (-pi, pi]. *)
Definition arctan2 (x1 x2 : R) : R :=
  if Rlt_dec 0 x2 then atan (x1 / x2)
  else if Rlt_dec x2 0
       then if Rle_dec 0 x1 then atan (x1 / x2) + PI else atan (x1 / x2) - PI
       else if Rlt_dec 0 x1 then PI / 2
            else if Rlt_dec x1 0 then - PI / 2 else 0.

(** [np.indices((rows, cols))]: the row number and the column number of
    every cell. *)
Definition indices (rows cols : nat) : list (list Z) * list (list Z) :=
  (map (fun r => replicate cols r) (arange rows), replicate rows (arange cols)).

Definition map2d {A B : Type} (f : A -> B) (g : list (list A)) : list (list B) :=
  map (map f) g.

Definition zip2d {A B C : Type} (f : A -> B -> C) (g : list (list A))
           (h : list (list B)) : list (list C) :=
  zip_with (zip_with f) g h.

(** [a.T]. *)
Definition transpose (a : array2) : array2 :=
  Array2 (shape1 a) (shape0 a)
         (map (fun j => map (fun row => default 0 (row !! j)) (data a))
              (seq 0 (shape1 a))).

(** *** The functions of the module *)

Section functions.

(** The library calls the module does not define: scipy's
    [ndimage.zoom], [UnivariateSpline] (with [ext=3]; the third argument
    is the smoothing [s]), [optimize.leastsq] (the fitted parameters it
    returns) and [ndimage.map_coordinates], and the package's own
    [center_image], [reproject_image_into_polar] and
    [dasch.two_point_transform]. Each returns a value or raises. *)
Variable ndimage_zoom : array2 -> R -> result array2.
Variable center_image : array2 -> string -> result array2.
Variable reproject_image_into_polar : array2 -> result (array2 * array2 * array2).
Variable dasch_two_point_transform : array2 -> result array2.
Variable UnivariateSpline : list float64 -> list float64 -> R -> result (R -> R).
Variable leastsq : (R * R -> result (list R)) -> R * R -> result (R * R).
Variable map_coordinates : array2 -> list (list R) * list (list R) -> result array2.

(** [def circularize(IM, radcorrspl)], lines 132-165. The correction is
    a scale factor; a factor of zero is outside the model. *)
Definition source_coordinates (rows cols : nat) (radcorrspl : R -> R)
  : list (list R) * list (list R) :=
  (* Y, X = np.indices(IM.shape) *)
  let '(Y, X) := indices rows cols in
  (* row, col = IM.shape; origin = (col//2, row//2) *)
  let origin := (Z.of_nat cols / 2, Z.of_nat rows / 2)%Z in
  (* X -= origin[0]; Y = origin[1] - Y *)
  let X := map2d (fun x => (x - fst origin)%Z) X in
  let Y := map2d (fun y => (snd origin - y)%Z) Y in
  (* theta = np.arctan2(X, Y) *)
  let theta := zip2d (fun x y => arctan2 (IZR x) (IZR y)) X Y in
  (* Xactual = X/radcorrspl(theta); Yactual = Y/radcorrspl(theta) *)
  let Xactual := zip2d (fun x t => IZR x / radcorrspl t) X theta in
  let Yactual := zip2d (fun y t => IZR y / radcorrspl t) Y theta in
  (* (origin[1] - Yactual, Xactual + origin[0]) *)
  (map2d (fun y => IZR (snd origin) - y) Yactual,
   map2d (fun x => x + IZR (fst origin)) Xactual).

Definition circularize (IM : array2) (radcorrspl : R -> R) : M array2 :=
  (* IMcirc = map_coordinates(IM, (origin[1] - Yactual, Xactual + origin[0])) *)
  call Remap
       (map_coordinates IM (source_coordinates (shape0 IM) (shape1 IM) radcorrspl)).

(** [def residual(param, radial, profile, previous)], lines 168-179. *)
Definition residual (param : R * R) (radial profile previous : list R)
  : result (list R) :=
  (* newradial = radial*param[0] *)
  let newradial := map (fun r => r * fst param) radial in
  (* spline_prof = UnivariateSpline(newradial, profile, s=0, ext=3) *)
  spline_prof <- UnivariateSpline (map Finite newradial) (map Finite profile) 0 ;;
  (* newprof = spline_prof(radial)*param[1] *)
  let newprof := map (fun r => spline_prof r * snd param) radial in
  (* return newprof - previous *)
  broadcast Rminus newprof previous.

Definition invalid_method (method : string) : exn :=
  ValueError ("method variable must be one of 'argmax' or 'lsq', not '"
              ++ method ++ "'").

(** Lines 192-194: the loop over [zip(slice_angles, slices)]. *)
Fixpoint argmax_loop (slice_angles : list float64) (slices : list array2)
  : M (list nat) :=
  match slice_angles, slices with
  | ang :: slice_angles', aslice :: slices' =>
      (* profile = aslice.sum(axis=1) *)
      profile <~ call ProfileSum (Ok (sum_axis1 aslice)) ;;
      (* pkpos.append(profile.argmax()) *)
      pk <~ call Argmax (argmax profile) ;;
      pkpos <~ argmax_loop slice_angles' slices' ;;
      ret (pk :: pkpos)
  | _, _ => ret []
  end.

(** The state of the loop of lines 207-215. *)
Record lsq_state : Type := LsqState {
  sf : list float64;
  previous : list R;
  fitpar : R * R
}.

(** One turn of that loop; [result] stands for the fitted parameters
    [result[0]] of the source. *)
Definition lsq_step (radial : list R) (st : lsq_state) (aslice : array2)
  : M lsq_state :=
  (* profile = aslice.sum(axis=1) *)
  profile <~ call ProfileSum (Ok (sum_axis1 aslice)) ;;
  (* result = leastsq(residual, fitpar, args=(radial, profile, previous)) *)
  result <~ call Leastsq
              (leastsq (fun p => residual p radial profile (previous st)) (fitpar st)) ;;
  (* sf.append(result[0][0]) *)
  let sf' := sf st ++ [Finite (fst result)] in
  (* previous += residual(result[0], radial, profile, previous) *)
  r <~ call Residual (residual result radial profile (previous st)) ;;
  previous' <~ call Elementwise (iadd (previous st) r) ;;
  (* fitpar = result[0] *)
  ret (LsqState sf' previous' result).

Fixpoint lsq_loop (radial : list R) (st : lsq_state)
         (slice_angles : list float64) (slices : list array2) : M lsq_state :=
  match slice_angles, slices with
  | ang :: slice_angles', aslice :: slices' =>
      st' <~ lsq_step radial st aslice ;;
      lsq_loop radial st' slice_angles' slices'
  | _, _ => ret st
  end.

(** [def correction(slice_angles, slices, radial, method)], lines 182-221. *)
Definition correction (slice_angles : list float64) (slices : list array2)
           (radial : list R) (method : string) : M (list float64) :=
  if (method =? "argmax")%string then
    (* pkpos = []; for ang, aslice in zip(slice_angles, slices): ... *)
    pkpos <~ argmax_loop slice_angles slices ;;
    (* sf = radial[pkpos[0]]/radial[pkpos] *)
    match pkpos with
    | [] => raise (IndexError "list index out of range")
    | pk0 :: _ =>
        r0 <~ call Take (take1 radial pk0) ;;
        rs <~ call Take (take radial pkpos) ;;
        call Elementwise (Ok (map (true_divide r0) rs))
    end
  else if (method =? "lsq")%string then
    (* fitpar = np.array([1.0, 1.0]); sf = []; sf.append(1) *)
    (* previous = slices[0].sum(axis=1) *)
    match slices with
    | [] => raise (IndexError "list index out of range")
    | slice0 :: _ =>
        profile0 <~ call ProfileSum (Ok (sum_axis1 slice0)) ;;
        (* for ang, aslice in zip(slice_angles[1:], slices[1:]): ... *)
        st <~ lsq_loop radial (LsqState [Finite 1] profile0 (1, 1))
                       (drop1 slice_angles) (drop1 slices) ;;
        (* return sf *)
        ret (sf st)
    end
  else
    (* raise ValueError("method variable must be one of ...") *)
    raise (invalid_method method).

(** What [circularize_image] returns. *)
Inductive output : Type :=
| Image (IMcirc : array2)
| WithCorrection (IMcirc : array2) (slice_angles radcorr : list float64)
                 (radcorrspl : R -> R).

(** Lines 83-111 of [circularize_image]: from the image to its angular
    slices. Returns the (zoomed, centred) image, the slice angles, the
    slices and the radial grid. *)
Definition polar_slices (IM : array2) (center : option string)
           (radial_range : option (R * R)) (zoom : R) (nslices : Z)
           (inverse : bool)
  : M (array2 * list float64 * list array2 * list R) :=
  (* if zoom > 1: IM = ndimage.zoom(IM, zoom) *)
  IM <~ (if Rlt_dec 1 zoom then call Zoom (ndimage_zoom IM zoom) else ret IM) ;;
  (* if center is not None: IM = center_image(IM, center=center) *)
  IM <~ match center with
        | Some c => call Center (center_image IM c)
        | None => ret IM
        end ;;
  (* polarIM, radial_coord, angle_coord = reproject_image_into_polar(IM) *)
  polar <~ call Reproject (reproject_image_into_polar IM) ;;
  let '(polarIM, radial_coord, angle_coord) := polar in
  (* if inverse: polarIM = abel.dasch.two_point_transform(polarIM.T).T *)
  polarIM <~ (if inverse
              then call InverseTransform
                        (result_map transpose
                           (dasch_two_point_transform (transpose polarIM)))
              else ret polarIM) ;;
  (* radial = radial_coord[:, 0] *)
  radial <~ call Take (column0 radial_coord) ;;
  (* if radial_range is not None: subr = ...; polarIM = polarIM[subr];
     radial = radial[subr] *)
  cropped <~ match radial_range with
             | Some (rmin, rmax) =>
                 let subr :=
                   map (fun r => (if Rlt_dec (rmin * zoom) r then true else false)
                                 && (if Rlt_dec r (rmax * zoom) then true else false))
                       radial in
                 call Crop (polarIM <- mask2 subr polarIM ;;
                            radial <- mask1 subr radial ;;
                            Ok (polarIM, radial))
             | None => ret (polarIM, radial)
             end ;;
  let '(polarIM, radial) := cropped in
  (* slices = np.array_split(polarIM, nslices, axis=1) *)
  slices <~ call Split (array_split polarIM nslices) ;;
  (* slice_angles = np.array(np.hsplit(angle_coord[0], nslices)).mean(axis=1) *)
  slice_angles <~ call Split (angle0 <- row0 angle_coord ;;
                              parts <- hsplit angle0 nslices ;;
                              Ok (map mean parts)) ;;
  ret (IM, slice_angles, slices, radial).

(** [def circularize_image(...)], lines 14-129. *)
Definition circularize_image (IM : array2) (method : string)
           (center : option string) (radial_range : option (R * R))
           (zoom smooth : R) (nslices : Z) (inverse return_correction : bool)
  : M output :=
  sliced <~ polar_slices IM center radial_range zoom nslices inverse ;;
  let '(IM, slice_angles, slices, radial) := sliced in
  (* radcorr = correction(slice_angles, slices, radial, method=method) *)
  radcorr <~ correction slice_angles slices radial method ;;
  (* radcorrspl = UnivariateSpline(slice_angles, radcorr, s=smooth, ext=3) *)
  radcorrspl <~ call SplineFit (UnivariateSpline slice_angles radcorr smooth) ;;
  (* IMcirc = circularize(IM, radcorrspl) *)
  IMcirc <~ circularize IM radcorrspl ;;
  (* if zoom > 1: IMcirc = ndimage.zoom(IMcirc, 1/zoom) *)
  IMcirc <~ (if Rlt_dec 1 zoom then call Zoom (ndimage_zoom IMcirc (1 / zoom))
             else ret IMcirc) ;;
  (* if return_correction: return IMcirc, slice_angles, radcorr, radcorrspl *)
  if return_correction
  then ret (WithCorrection IMcirc slice_angles radcorr radcorrspl)
  else ret (Image IMcirc).

End functions.

End circularize.

(** ** abel/benchmark.py *)

Module benchmark.

Import circularize.

(** The exceptions of this module: those of the shared type, a
    [ValueError] with a second argument, [KeyError] and
    [UnboundLocalError]. *)
Inductive exception : Type :=
| Builtin (e : exn)
| ValueErrorArgs (msg : string) (arg : list string)
| KeyError (key : string)
| UnboundLocalError (msg : string).

Inductive attempt (A : Type) : Type :=
| Done (a : A)
| Failed (e : exception).

Arguments Done {A} a.
Arguments Failed {A} e.

Definition and_next {A B : Type} (r : attempt A) (k : A -> attempt B) : attempt B :=
  match r with
  | Done a => k a
  | Failed e => Failed e
  end.

Notation "x <-- r ;; k" := (and_next r (fun x => k))
  (at level 100, r at next level, right associativity).

Definition lift {A : Type} (r : result A) : attempt A :=
  match r with
  | Ok a => Done a
  | Raise e => Failed (Builtin e)
  end.

(** *** Strings, lists and dicts of Python *)

(** [x in l] for a list of strings. *)
Definition contains (x : string) (l : list string) : bool :=
  existsb (String.eqb x) l.

(** [m.split('(')[0]]: the part before the first parenthesis. *)
Fixpoint before_paren (m : string) : string :=
  match m with
  | EmptyString => EmptyString
  | String c m' => if Ascii.eqb c "("%char then EmptyString
                   else String c (before_paren m')
  end.

(** [abel[:-3]]: all but the last three characters. *)
Definition without_last3 (abel : string) : string :=
  substring 0 (String.length abel - 3) abel.

(** A dict from names to lists of timings, in insertion order. *)
Definition table : Type := list (string * list float64).

Definition keys (d : table) : list string := map fst d.

(** [d[k] = v]. *)
Definition setitem (d : table) (k : string) (v : list float64) : table :=
  if contains k (keys d)
  then map (fun e => if (fst e =? k)%string then (k, v) else e) d
  else d ++ [(k, v)].

(** [del d[k]]. *)
Definition delitem (d : table) (k : string) : attempt table :=
  if contains k (keys d)
  then Done (List.filter (fun e => negb (fst e =? k)%string) d)
  else Failed (KeyError k).

(** [for x in rm: del d[x]]. *)
Fixpoint delete_all (d : table) (rm : list string) : attempt table :=
  match rm with
  | [] => Done d
  | x :: rm' => d' <-- delitem d x ;; delete_all d' rm'
  end.

(** [{name: [] for each name}], a dict display with empty rows. *)
Definition empty_rows (names : list string) : table :=
  map (fun name => (name, [])) names.

(** *** [AbelTiming.__init__], lines 82-117: the result dicts *)

Record results : Type := Results {
  bs : table;        (* res['bs'] *)
  forward : table;   (* res['forward'] *)
  inverse : table    (* res['inverse'] *)
}.

Definition dq : string := String (ascii_of_nat 34) EmptyString.

(** Lines 83-94; [cython_ext] is [direct.cython_ext]. *)
Definition initial_results (cython_ext : bool) : results :=
  let res_bs := empty_rows ["basex_bs"; "linbasex_bs"; "onion_peeling_bs";
                            "two_point_bs"; "three_point_bs"]%string in
  let res_forward := empty_rows ["direct_Python"; "hansenlaw"]%string in
  let res_inverse := empty_rows ["basex"; "basex(var)"; "direct_Python";
                                 "hansenlaw"; "linbasex"; "onion_bordas";
                                 "onion_peeling"; "two_point";
                                 "three_point"]%string in
  if cython_ext
  then Results res_bs (setitem res_forward "direct_C" [])
               (setitem res_inverse "direct_C" [])
  else Results res_bs res_forward res_inverse.

(** Lines 98-101: the first selected name that is no key of
    [res['inverse']] raises. *)
Fixpoint check_select (select valid : list string) : attempt unit :=
  match select with
  | [] => Done tt
  | trans :: select' =>
      if negb (contains trans valid)
      then Failed (ValueErrorArgs
                     (dq ++ trans ++ dq ++ " is not a valid transform method")%string
                     valid)
      else check_select select' valid
  end.

(** Lines 103-109: the keys of [d] that are not selected are collected
    in [rm] and then deleted. *)
Definition keep_selected (d : table) (select : list string) : attempt table :=
  let rm := List.filter (fun abel => negb (contains abel select)) (keys d) in
  delete_all d rm.

(** Lines 110-117: the same for [res['bs']], whose keys end in [_bs] and
    are compared with the selected names cut at their parenthesis. *)
Definition keep_selected_bs (d : table) (select : list string) : attempt table :=
  let select_b := map before_paren select in
  let rm := List.filter (fun abel => negb (contains (without_last3 abel) select_b))
                        (keys d) in
  delete_all d rm.

Definition select_results (cython_ext : bool) (select : list string)
  : attempt results :=
  let res := initial_results cython_ext in
  (* if 'all' not in select: *)
  if negb (contains "all" select) then
    _ <-- check_select select (keys (inverse res)) ;;
    (* for direction in ['forward', 'inverse']: ... *)
    res_forward <-- keep_selected (forward res) select ;;
    res_inverse <-- keep_selected (inverse res) select ;;
    (* repeat for 'bs' which has append '_bs' *)
    res_bs <-- keep_selected_bs (bs res) select ;;
    Done (Results res_bs res_forward res_inverse)
  else Done res.

(** *** [is_symmetric], lines 212-252 *)

Local Open Scope R_scope.

(** [np.fliplr] and [np.flipud] of a 2D array. *)
Definition fliplr (a : array2) : array2 :=
  Array2 (shape0 a) (shape1 a) (map (@rev R) (data a)).

Definition flipud (a : array2) : array2 :=
  Array2 (shape0 a) (shape1 a) (rev (data a)).

(** The defaults of [np.allclose]. *)
Definition rtol : R := 1 / 100000.
Definition atol : R := 1 / 100000000.

(** [np.isclose(x, y)] for finite numbers: [|x - y| <= atol + rtol * |y|]. *)
Definition isclose (x y : R) : bool :=
  if Rle_dec (Rabs (x - y)) (atol + rtol * Rabs y) then true else false.

(** The size of a broadcast axis: equal sizes, or one of them 1. *)
Definition broadcast_axis (n m : nat) : option nat :=
  if (n =? m)%nat then Some n
  else if (n =? 1)%nat then Some m
  else if (m =? 1)%nat then Some n
  else None.

(** An axis of size one repeated to the broadcast size. *)
Definition stretch {A : Type} (n target : nat) (l : list A) : list A :=
  if (n =? target)%nat then l
  else match l with
       | [x] => replicate target x
       | _ => l
       end.

Definition broadcast_to (a : array2) (rows cols : nat) : list (list R) :=
  map (stretch (shape1 a) cols) (stretch (shape0 a) rows (data a)).

(** [np.allclose(a, b)]: every pair of broadcast elements is close. *)
Definition allclose (a b : array2) : attempt bool :=
  match broadcast_axis (shape0 a) (shape0 b), broadcast_axis (shape1 a) (shape1 b) with
  | Some rows, Some cols =>
      Done (forallb (fun rr => forallb (fun xy => isclose (fst xy) (snd xy))
                                       (combine (fst rr) (snd rr)))
                    (combine (broadcast_to a rows cols) (broadcast_to b rows cols)))
  | _, _ => Failed (Builtin operands_could_not_be_broadcast)
  end.

Definition symmetry_makes_no_sense : exn :=
  ValueError ("Checking for symmetry with both i_sym=False "
              ++ "                          "
              ++ "and j_sym=False does not make sense!")%string.

Section is_symmetric.

(** [tools.symmetry.get_image_quadrants(arr, reorient=False)], which the
    module calls and does not define. *)
Variable get_image_quadrants : ndarray -> attempt (array2 * array2 * array2 * array2).

Definition is_symmetric (arr : ndarray) (i_sym j_sym : bool) : attempt (list bool) :=
  (* Q0, Q1, Q2, Q3 = tools.symmetry.get_image_quadrants(arr, reorient=False) *)
  q <-- get_image_quadrants arr ;;
  let '(Q0, Q1, Q2, Q3) := q in
  if i_sym && negb j_sym then
    f1 <-- allclose (fliplr Q1) Q0 ;;
    f2 <-- allclose (fliplr Q2) Q3 ;;
    Done [f1; f2]
  else if negb i_sym && j_sym then
    f1 <-- allclose (flipud Q1) Q2 ;;
    f2 <-- allclose (flipud Q0) Q3 ;;
    Done [f1; f2]
  else if i_sym && j_sym then
    f1 <-- allclose (flipud (fliplr Q1)) Q3 ;;
    f2 <-- allclose (flipud (fliplr Q0)) Q2 ;;
    Done [f1; f2]
  else Failed (Builtin symmetry_makes_no_sense).

End is_symmetric.

(** *** [absolute_ratio_benchmark], lines 255-276 *)

(** What the function reads of an analytical object. *)
Record analytical : Type := Analytical {
  mask_valid : list bool;
  func : list R;
  abel : list R
}.

(** Neither branch binds [func] for another [kind], so reading it raises
    (the text is CPython's before 3.11). *)
Definition func_unbound : exception :=
  UnboundLocalError "local variable 'func' referenced before assignment".

Definition absolute_ratio_benchmark (a : analytical) (recon : list R)
           (kind : string) : attempt (list float64) :=
  (* mask = analytical.mask_valid *)
  let mask := mask_valid a in
  (* if kind == 'inverse': func = analytical.func
     elif kind == 'forward': func = analytical.abel *)
  f <-- (if (kind =? "inverse")%string then Done (func a)
         else if (kind =? "forward")%string then Done (abel a)
         else Failed func_unbound) ;;
  (* err = func[mask]/recon[mask] *)
  fm <-- lift (mask1 mask f) ;;
  rm <-- lift (mask1 mask recon) ;;
  Done (zip_with true_divide fm rm).

End benchmark.

(** ** Vocabulary of the statements *)

Section vocabulary.

Import two_point circularize.
Local Open Scope R_scope.

(** A square matrix of side [n], as [np.zeros((n, n))] builds it. *)
Definition square (n : nat) (D : list (list R)) : Prop :=
  length D = n /\ Forall (fun r => length r = n) D.

(** The cell of row [i] and column [j], when there is one. *)
Definition cell (D : list (list R)) (i j : nat) : option R :=
  match D !! i with
  | Some row => row !! j
  | None => None
  end.

(** The cells a fancy store addresses, all inside the matrix. *)
Definition in_range (n : nat) (p : Z * Z) : Prop :=
  (0 <= fst p < Z.of_nat n)%Z /\ (0 <= snd p < Z.of_nat n)%Z.

(** The cells [D[Ii, Jj]] of lines 66-69: the diagonal without [(0, 0)]. *)
Definition diag_cells (n : nat) : list (Z * Z) :=
  map (fun k => (Z.of_nat k, Z.of_nat k)) (seq 1 (n - 1)).

(** The cells [D[Iu, Ju]] of lines 72-75: above the diagonal, without
    the first one. *)
Definition upper_cells (n : nat) : list (Z * Z) := drop1 (triu_pairs n).

(** What lines 62-79 leave in cell [(i, j)], with the source's [J]. *)
Definition D_entry (i j : nat) : R :=
  match i, j with
  | O, O => 2 / PI
  | O, S O => J 0 1 - 2 / PI
  | _, _ =>
      if (i =? j)%nat then J (Z.of_nat i) (Z.of_nat j)
      else if (i <? j)%nat
           then J (Z.of_nat i) (Z.of_nat j) - J (Z.of_nat i) (Z.of_nat j - 1)
           else 0
  end.

(** The basis function as the specification writes it: a difference of
    two logarithms. *)
Definition J_spec (i j : Z) : R :=
  (ln (sqrt (IZR ((j + 1) ^ 2 - i ^ 2)) + (IZR j + 1))
   - ln (sqrt (IZR (j ^ 2 - i ^ 2)) + IZR j)) / PI.

(** The fitted profile of line 176 for the fit [param]. *)
Definition newprof (spline_prof : R -> R) (param : R * R) (radial : list R) : list R :=
  map (fun r => spline_prof r * snd param) radial.

(** A grid given by a function of the row and column numbers. *)
Definition grid {A : Type} (rows cols : nat) (f : nat -> nat -> A) : list (list A) :=
  map (fun r => map (fun c => f r c) (seq 0 cols)) (seq 0 rows).

(** The coordinates of every pixel of a [rows] by [cols] image: the
    pixel's own row number and column number. *)
Definition own_coordinates (rows cols : nat) : list (list R) * list (list R) :=
  (map2d IZR (fst (indices rows cols)), map2d IZR (snd (indices rows cols))).

End vocabulary.

(** ** Worked examples *)

Section examples.

Import two_point circularize.
Local Open Scope R_scope.

Example norm_index_last : norm_index 3 (-1) = Some 2%nat.
Proof. reflexivity. Qed.

Example norm_index_outside : norm_index 1 1 = None.
Proof. reflexivity. Qed.

Example diag_indices_3 : drop1 (fst (diag_indices 3)) = [1; 2]%Z.
Proof. reflexivity. Qed.

Example triu_indices_3 : triu_indices 3 = ([0; 0; 1]%Z, [1; 2; 2]%Z).
Proof. reflexivity. Qed.

(** The operator for two and for three columns, cell by cell. *)
Example D_operator_2 :
  D_operator 2 = Ok [[2 / PI; J 0 1 - 2 / PI];
                     [0;      J 1 1]].
Proof. reflexivity. Qed.

Example D_operator_3 :
  D_operator 3 = Ok [[2 / PI; J 0 1 - 2 / PI; J 0 2 - J 0 1];
                     [0;      J 1 1;          J 1 2 - J 1 1];
                     [0;      0;              J 2 2]].
Proof. reflexivity. Qed.

Example D_operator_1 : D_operator 1 = Raise index_out_of_bounds.
Proof. reflexivity. Qed.

Example section_sizes_5_2 : section_sizes 5 2 = [3; 2]%nat.
Proof. reflexivity. Qed.

Example array_split_2_by_3 :
  array_split (Array2 2 3 [[1; 2; 3]; [4; 5; 6]]) 2
  = Ok [Array2 2 2 [[1; 2]; [4; 5]]; Array2 2 1 [[3]; [6]]].
Proof. reflexivity. Qed.

Example hsplit_unequal :
  hsplit [1; 2; 3] 2
  = Raise (ValueError "array split does not result in an equal division").
Proof. reflexivity. Qed.

Example indices_2_3 :
  indices 2 3 = ([[0; 0; 0]; [1; 1; 1]]%Z, [[0; 1; 2]; [0; 1; 2]]%Z).
Proof. reflexivity. Qed.

Example transpose_2_by_3 :
  transpose (Array2 2 3 [[1; 2; 3]; [4; 5; 6]])
  = Array2 3 2 [[1; 4]; [2; 5]; [3; 6]].
Proof. reflexivity. Qed.

End examples.

(** ** Vocabulary of the further properties *)

Section further_vocabulary.

Import circularize.
Local Open Scope R_scope.

(** Every piece of array work a run has started satisfies [P]. *)
Definition uses {A : Type} (P : work -> Prop) (m : M A) : Prop :=
  Forall P (trace m).

(** An image with every intensity multiplied by [k]. *)
Definition scale_image (k : R) (a : array2) : array2 :=
  Array2 (shape0 a) (shape1 a) (map (map (Rmult k)) (data a)).

(** The angle of pixel [(r, c)] of a [rows] by [cols] image, measured from
    the vertical through the image centre as line 154 does. *)
Definition pixel_angle (rows cols r c : nat) : R :=
  arctan2 (IZR (Z.of_nat c - Z.of_nat cols / 2))
          (IZR (Z.of_nat rows / 2 - Z.of_nat r)).

End further_vocabulary.

(** ** Facts about recorded computations *)

Section recorded.

Lemma and_then_ok_inv {A B : Type} (m : M A) (k : A -> M B) (t : list work) (b : B) :
  and_then m k = (t, Ok b) ->
  exists t1 a t2, m = (t1, Ok a) /\ k a = (t2, Ok b) /\ t = t1 ++ t2.
Proof.
  destruct m as [t1 [a|e]]; simpl; [|discriminate].
  destruct (k a) as [t2 r] eqn:E. intros [= <- ->]. eauto 6.
Qed.

Lemma and_then_ext {A B : Type} (m : M A) (k1 k2 : A -> M B) :
  (forall a, k1 a = k2 a) -> and_then m k1 = and_then m k2.
Proof. intros H. destruct m as [t [a|e]]; simpl; [now rewrite H | reflexivity]. Qed.

Lemma and_then_ok {A B : Type} (t : list work) (a : A) (k : A -> M B) :
  and_then (t, Ok a) k = (t ++ trace (k a), outcome (k a)).
Proof. simpl. now destruct (k a). Qed.

Lemma outcome_and_then_ok {A B : Type} (t : list work) (a : A) (k : A -> M B) :
  outcome (and_then (t, Ok a) k) = outcome (k a).
Proof. now rewrite and_then_ok. Qed.

Lemma call_ok_inv {A : Type} (w : work) (r : result A) (t : list work) (a : A) :
  call w r = (t, Ok a) -> t = [w] /\ r = Ok a.
Proof. unfold call. now intros [= <- ->]. Qed.

Lemma ret_ok_inv {A : Type} (a a' : A) (t : list work) :
  ret a = (t, Ok a') -> t = [] /\ a = a'.
Proof. unfold ret. now intros [= <- ->]. Qed.

End recorded.

(** ** Facts about indexed stores *)

Section matrix_facts.

Lemma norm_index_nat (n i : nat) : i < n -> norm_index n (Z.of_nat i) = Some i.
Proof.
  intros Hi. unfold norm_index.
  replace ((0 <=? Z.of_nat i) && (Z.of_nat i <? Z.of_nat n))%Z with true.
  - now rewrite Nat2Z.id.
  - symmetry. apply andb_true_iff. split; [apply Z.leb_le | apply Z.ltb_lt]; lia.
Qed.

Lemma square_zeros (n : nat) : square n (zeros n n).
Proof.
  split.
  - apply length_replicate.
  - apply Forall_forall. intros r Hr.
    apply elem_of_replicate in Hr as [-> _].
    apply length_replicate.
Qed.

Lemma cell_zeros (n i j : nat) : i < n -> j < n -> cell (zeros n n) i j = Some 0%R.
Proof.
  intros Hi Hj. unfold cell, zeros.
  rewrite (proj2 (lookup_replicate n (replicate n 0%R) _ i)) by auto.
  now apply lookup_replicate.
Qed.

Lemma square_row (n : nat) (D : list (list R)) (i : nat) :
  square n D -> i < n -> exists row, D !! i = Some row /\ length row = n.
Proof.
  intros [Hlen Hrows] Hi.
  destruct (D !! i) as [row|] eqn:E.
  - exists row. split; [reflexivity|].
    rewrite Forall_forall in Hrows. apply Hrows.
    apply list_elem_of_lookup. eauto.
  - apply lookup_ge_None in E. lia.
Qed.

Lemma getitem2_cell (n : nat) (D : list (list R)) (i j : nat) (x : R) :
  square n D -> i < n -> j < n ->
  cell D i j = Some x -> getitem2 D (Z.of_nat i) (Z.of_nat j) = Ok x.
Proof.
  intros HD Hi Hj. destruct (square_row n D i HD Hi) as (row & E & Hlen).
  unfold cell, getitem2. destruct HD as [HlenD _].
  rewrite HlenD, (norm_index_nat n i Hi), E, Hlen, (norm_index_nat n j Hj).
  now intros ->.
Qed.

(** One store changes the addressed cell and no other. *)
Lemma setitem2_spec (n : nat) (D : list (list R)) (i j : nat) (v : R) :
  square n D -> i < n -> j < n ->
  exists D', setitem2 D (Z.of_nat i) (Z.of_nat j) v = Ok D' /\ square n D' /\
    forall i' j', cell D' i' j' =
      if decide (i' = i /\ j' = j) then Some v else cell D i' j'.
Proof.
  intros HD Hi Hj. destruct (square_row n D i HD Hi) as (row & E & Hlen).
  destruct HD as [HlenD Hrows].
  exists (<[i := <[j := v]> row]> D). split; [|split; [split|]].
  - unfold setitem2.
    now rewrite HlenD, (norm_index_nat n i Hi), E, Hlen, (norm_index_nat n j Hj).
  - now rewrite length_insert.
  - apply Forall_insert; [assumption|]. now rewrite length_insert.
  - intros i' j'. unfold cell.
    destruct (decide (i' = i)) as [->|Hne].
    + rewrite list_lookup_insert_eq by lia. rewrite E.
      destruct (decide (j' = j)) as [->|Hnej].
      * rewrite list_lookup_insert_eq by lia.
        destruct (decide (i = i /\ j = j)) as [_|[]]; auto.
      * rewrite list_lookup_insert_ne by auto.
        destruct (decide (i = i /\ j' = j)) as [[_ ?]|_]; [contradiction|reflexivity].
    + rewrite list_lookup_insert_ne by auto.
      destruct (decide (i' = i /\ j' = j)) as [[? _]|_]; [contradiction|reflexivity].
Qed.

(** A fancy store whose value at a cell is a function [f] of the cell's
    indices: afterwards every addressed cell holds [f] of its indices and
    every other cell is unchanged. *)
Lemma setitem2_fancy_spec (n : nat) (f : Z -> Z -> R) (pairs : list (Z * Z)) :
  forall D : list (list R),
  square n D -> Forall (in_range n) pairs ->
  exists D', setitem2_fancy D (map fst pairs) (map snd pairs)
                            (map (fun p => f (fst p) (snd p)) pairs) = Ok D' /\
    square n D' /\
    forall i j : nat,
      (In (Z.of_nat i, Z.of_nat j) pairs ->
         cell D' i j = Some (f (Z.of_nat i) (Z.of_nat j))) /\
      (~ In (Z.of_nat i, Z.of_nat j) pairs -> cell D' i j = cell D i j).
Proof.
  induction pairs as [|[a b] pairs IH]; intros D HD Hall.
  - exists D. split; [reflexivity|]. split; [assumption|].
    intros i j. split; [intros [] | reflexivity].
  - apply Forall_cons in Hall as [[Ha Hb] Hall]. simpl in Ha, Hb.
    destruct (setitem2_spec n D (Z.to_nat a) (Z.to_nat b) (f a b) HD)
      as (D1 & E1 & HD1 & Hcell1); [lia | lia |].
    rewrite !Z2Nat.id in E1 by lia.
    destruct (IH D1 HD1 Hall) as (D' & E' & HD' & Hcell').
    exists D'. split; [|split; [assumption|]].
    + simpl. rewrite E1. simpl. exact E'.
    + intros i j. destruct (Hcell' i j) as [Hin Hout].
      assert (Hhere : (a, b) = (Z.of_nat i, Z.of_nat j) ->
                      cell D1 i j = Some (f (Z.of_nat i) (Z.of_nat j))).
      { intros [= -> ->]. rewrite Hcell1, !Nat2Z.id.
        destruct (decide (i = i /\ j = j)) as [_|[]]; auto. }
      assert (Helse : (a, b) <> (Z.of_nat i, Z.of_nat j) -> cell D1 i j = cell D i j).
      { intros Hne. rewrite Hcell1.
        destruct (decide (i = Z.to_nat a /\ j = Z.to_nat b)) as [[-> ->]|_]; [|reflexivity].
        exfalso. apply Hne. rewrite !Z2Nat.id by lia. reflexivity. }
      split.
      * intros Hmem.
        destruct (decide (elem_of (Z.of_nat i, Z.of_nat j) pairs)) as [Hp|Hp];
          rewrite list_elem_of_In in Hp.
        -- now apply Hin.
        -- rewrite (Hout Hp). apply Hhere.
           destruct Hmem as [Heq|Hmem]; [assumption | contradiction].
      * intros Hnot. rewrite Hout by (intros Hp; apply Hnot; now right).
        apply Helse. intros Heq. apply Hnot. now left.
Qed.

Lemma zip_with_fst_snd {A B C : Type} (f : A -> B -> C) (pairs : list (A * B)) :
  zip_with f (map fst pairs) (map snd pairs) = map (fun p => f (fst p) (snd p)) pairs.
Proof. induction pairs as [|[a b] pairs IH]; simpl; [reflexivity | now rewrite IH]. Qed.

End matrix_facts.

(** ** The index arrays of the D-operator *)

Section index_arrays.

Lemma drop1_arange (n : nat) : drop1 (arange n) = map Z.of_nat (seq 1 (n - 1)).
Proof. destruct n as [|n]; simpl; [reflexivity | now rewrite Nat.sub_0_r]. Qed.

Lemma diag_cells_fst (n : nat) : map fst (diag_cells n) = drop1 (arange n).
Proof.
  rewrite drop1_arange. unfold diag_cells. rewrite List.map_map. reflexivity.
Qed.

Lemma diag_cells_snd (n : nat) : map snd (diag_cells n) = drop1 (arange n).
Proof.
  rewrite drop1_arange. unfold diag_cells. rewrite List.map_map. reflexivity.
Qed.

Lemma in_diag_cells (n i j : nat) :
  In (Z.of_nat i, Z.of_nat j) (diag_cells n) <-> i = j /\ 1 <= i < n.
Proof.
  unfold diag_cells. rewrite in_map_iff. split.
  - intros (k & [= Hi Hj] & Hk). apply in_seq in Hk. lia.
  - intros [-> Hi]. exists j. split; [reflexivity|]. apply in_seq. lia.
Qed.

Lemma diag_cells_in_range (n : nat) : Forall (in_range n) (diag_cells n).
Proof.
  apply Forall_forall. intros p Hp. apply list_elem_of_In in Hp.
  unfold diag_cells in Hp. apply in_map_iff in Hp as (k & <- & Hk).
  apply in_seq in Hk. unfold in_range. simpl. lia.
Qed.

Lemma upper_cells_fst (n : nat) :
  map fst (upper_cells n) = drop1 (map fst (triu_pairs n)).
Proof. unfold upper_cells, drop1. simpl. now destruct (triu_pairs n). Qed.

Lemma upper_cells_snd (n : nat) :
  map snd (upper_cells n) = drop1 (map snd (triu_pairs n)).
Proof. unfold upper_cells, drop1. simpl. now destruct (triu_pairs n). Qed.

(** With two columns or more the first cell above the diagonal is [(0, 1)]. *)
Lemma triu_pairs_head (n : nat) :
  2 <= n ->
  triu_pairs n =
    (0%Z, 1%Z) ::
    map (fun j => (0%Z, Z.of_nat j)) (seq 2 (n - 2)) ++
    flat_map (fun i => map (fun j => (Z.of_nat i, Z.of_nat j)) (seq (S i) (n - S i)))
             (seq 1 (n - 1)).
Proof.
  intros Hn. destruct n as [|[|n]]; [lia | lia |].
  unfold triu_pairs. simpl. rewrite !Nat.sub_0_r. reflexivity.
Qed.

Lemma in_upper_cells (n i j : nat) :
  2 <= n ->
  In (Z.of_nat i, Z.of_nat j) (upper_cells n) <->
  i < j < n /\ ~ (i = 0 /\ j = 1).
Proof.
  intros Hn. unfold upper_cells. rewrite (triu_pairs_head n Hn). simpl.
  rewrite in_app_iff, in_map_iff, in_flat_map. split.
  - intros [(k & [= Hi Hj] & Hk) | (k & Hk & Hin)].
    + apply in_seq in Hk. lia.
    + apply in_seq in Hk. apply in_map_iff in Hin as (m & [= Hi Hj] & Hm).
      apply in_seq in Hm. lia.
  - intros [Hij Hne]. destruct i as [|i].
    + left. exists j. split; [reflexivity|]. apply in_seq. lia.
    + right. exists (S i). split; [apply in_seq; lia|].
      apply in_map_iff. exists j. split; [reflexivity|]. apply in_seq. lia.
Qed.

Lemma triu_pairs_in_range (n : nat) : Forall (in_range n) (triu_pairs n).
Proof.
  apply Forall_forall. intros p Hp. apply list_elem_of_In in Hp.
  unfold triu_pairs in Hp. apply in_flat_map in Hp as (i & Hi & Hp).
  apply in_map_iff in Hp as (j & <- & Hj).
  apply in_seq in Hi. apply in_seq in Hj. unfold in_range. simpl. lia.
Qed.

Lemma upper_cells_in_range (n : nat) : Forall (in_range n) (upper_cells n).
Proof.
  pose proof (triu_pairs_in_range n) as H. unfold upper_cells, drop1.
  destruct (triu_pairs n); [constructor|]. now apply Forall_cons in H as [_ H].
Qed.

End index_arrays.

(** ** The D-operator, cell by cell *)

Section D_operator_facts.

Import two_point.
Local Open Scope R_scope.

Lemma D_entry_generic (i j : nat) :
  ~ (i = 0%nat /\ j = 0%nat) -> ~ (i = 0%nat /\ j = 1%nat) ->
  D_entry i j =
    if (i =? j)%nat then J (Z.of_nat i) (Z.of_nat j)
    else if (i <? j)%nat
         then J (Z.of_nat i) (Z.of_nat j) - J (Z.of_nat i) (Z.of_nat j - 1)
         else 0.
Proof.
  intros H00 H01. unfold D_entry. destruct i as [|i]; [|reflexivity].
  destruct j as [|[|j]]; [exfalso; auto | exfalso; auto | reflexivity].
Qed.

Lemma upper_values (up : list (Z * Z)) :
  zip_with Rminus (zip_with J (map fst up) (map snd up))
                  (zip_with J (map fst up) (map (fun j => (j - 1)%Z) (map snd up)))
  = map (fun p => J (fst p) (snd p) - J (fst p) (snd p - 1)) up.
Proof.
  induction up as [|[a b] up IH]; simpl; [reflexivity | now rewrite IH].
Qed.

(** With fewer than two columns the store [D[0, 1]] of line 78 is out of
    bounds. *)
Lemma D_operator_small (cols : nat) :
  (cols < 2)%nat -> D_operator cols = Raise index_out_of_bounds.
Proof.
  intros Hc. destruct cols as [|[|cols]]; [reflexivity | reflexivity | lia].
Qed.

Lemma D_operator_unfold (cols : nat) :
  D_operator cols =
  bind (setitem2_fancy (zeros cols cols)
          (map fst (diag_cells cols)) (map snd (diag_cells cols))
          (map (fun p => J (fst p) (snd p)) (diag_cells cols))) (fun D =>
  bind (setitem2_fancy D
          (map fst (upper_cells cols)) (map snd (upper_cells cols))
          (map (fun p => J (fst p) (snd p) - J (fst p) (snd p - 1))
               (upper_cells cols))) (fun D =>
  bind (setitem2 D 0 1 (J 0 1 - 2 / PI)) (fun D =>
  setitem2 D 0 0 (2 / PI)))).
Proof.
  rewrite <- zip_with_fst_snd, <- upper_values.
  rewrite diag_cells_fst, diag_cells_snd, upper_cells_fst, upper_cells_snd.
  reflexivity.
Qed.

Lemma D_operator_spec (cols : nat) :
  (2 <= cols)%nat ->
  exists D, D_operator cols = Ok D /\ square cols D /\
    forall i j : nat, (i < cols)%nat -> (j < cols)%nat ->
      cell D i j = Some (D_entry i j).
Proof.
  intros Hc. rewrite D_operator_unfold.
  destruct (setitem2_fancy_spec cols J (diag_cells cols) (zeros cols cols)
              (square_zeros cols) (diag_cells_in_range cols))
    as (D1 & E1 & HD1 & Hc1).
  rewrite E1. simpl.
  destruct (setitem2_fancy_spec cols (fun i j => J i j - J i (j - 1))
              (upper_cells cols) D1 HD1 (upper_cells_in_range cols))
    as (D2 & E2 & HD2 & Hc2).
  simpl in E2. rewrite E2. simpl.
  destruct (setitem2_spec cols D2 0 1 (J 0 1 - 2 / PI) HD2) as (D3 & E3 & HD3 & Hc3);
    [lia | lia |].
  change (Z.of_nat 0) with 0%Z in E3. change (Z.of_nat 1) with 1%Z in E3.
  rewrite E3. simpl.
  destruct (setitem2_spec cols D3 0 0 (2 / PI) HD3) as (D4 & E4 & HD4 & Hc4);
    [lia | lia |].
  change (Z.of_nat 0) with 0%Z in E4. rewrite E4.
  exists D4. split; [reflexivity|]. split; [assumption|].
  intros i j Hi Hj. rewrite Hc4.
  destruct (decide (i = 0%nat /\ j = 0%nat)) as [[-> ->]|H00]; [reflexivity|].
  rewrite Hc3.
  destruct (decide (i = 0%nat /\ j = 1%nat)) as [[-> ->]|H01]; [reflexivity|].
  destruct (Hc2 i j) as [Hup Hnup]. destruct (Hc1 i j) as [Hdg Hndg].
  rewrite (D_entry_generic i j H00 H01).
  destruct (Nat.eqb_spec i j) as [Heq|Hneq].
  - rewrite Hnup by (rewrite in_upper_cells by assumption; lia).
    apply Hdg. apply in_diag_cells. lia.
  - destruct (Nat.ltb_spec i j) as [Hlt|Hge].
    + apply Hup. apply in_upper_cells; [assumption|]. split; [lia|]. exact H01.
    + rewrite Hnup by (rewrite in_upper_cells by assumption; lia).
      rewrite Hndg by (rewrite in_diag_cells; lia).
      now apply cell_zeros.
Qed.

End D_operator_facts.

(** ** The closed form of the basis function *)

Section closed_form.

Import two_point.
Local Open Scope R_scope.

(** The source takes one logarithm of the quotient; both arguments are
    positive from the first shell on, so the two forms agree there. *)
Lemma J_is_J_spec (i j : Z) : (1 <= j)%Z -> J i j = J_spec i j.
Proof.
  intros Hj. unfold J, J_spec.
  assert (Hj1 : 1 <= IZR j) by (apply IZR_le; exact Hj).
  pose proof (sqrt_pos (IZR ((j + 1) ^ 2 - i ^ 2))) as Ha.
  pose proof (sqrt_pos (IZR (j ^ 2 - i ^ 2))) as Hb.
  unfold Rdiv at 2.
  rewrite ln_mult; [| lra | apply Rinv_0_lt_compat; lra].
  rewrite ln_Rinv by lra.
  f_equal. rewrite Rplus_assoc. reflexivity.
Qed.

Lemma getitem2_D_entry (cols : nat) (D : list (list R)) (i j : nat) :
  square cols D -> (i < cols)%nat -> (j < cols)%nat ->
  cell D i j = Some (D_entry i j) ->
  getitem2 D (Z.of_nat i) (Z.of_nat j) = Ok (D_entry i j).
Proof. intros HD Hi Hj. now apply getitem2_cell with (n := cols). Qed.

Lemma D_entry_diag (i : nat) :
  (1 <= i)%nat -> D_entry i i = J_spec (Z.of_nat i) (Z.of_nat i).
Proof.
  intros Hi. rewrite D_entry_generic by lia.
  rewrite Nat.eqb_refl. apply J_is_J_spec. lia.
Qed.

Lemma D_entry_upper (i j : nat) :
  (i < j)%nat -> ~ (i = 0%nat /\ j = 1%nat) ->
  D_entry i j = J_spec (Z.of_nat i) (Z.of_nat j) - J_spec (Z.of_nat i) (Z.of_nat j - 1).
Proof.
  intros Hij Hne.
  rewrite D_entry_generic by (auto; lia).
  destruct (Nat.eqb_spec i j); [lia|].
  destruct (Nat.ltb_spec i j); [|lia].
  rewrite !J_is_J_spec by lia. reflexivity.
Qed.

Lemma D_entry_lower (i j : nat) : (j < i)%nat -> D_entry i j = 0.
Proof.
  intros Hji. rewrite D_entry_generic by lia.
  destruct (Nat.eqb_spec i j); [lia|].
  destruct (Nat.ltb_spec i j); [lia | reflexivity].
Qed.

End closed_form.

(** ** Claims about the D-operator *)

Section D_operator_claims.

Import two_point.
Local Open Scope R_scope.

(** C1. For every column count [cols >= 2] the operator matrix is built,
    and its cells follow the assembly rule: [D[i,i] = J(i,i)] on the
    diagonal for [i >= 1]; [D[i,j] = J(i,j) - J(i,j-1)] on every cell
    above the diagonal other than [(0,1)]; [D[0,0] = 2/pi] and
    [D[0,1] = J(0,1) - 2/pi], where [J] is the difference of logarithms
    [J_spec]. *)
Theorem D_operator_closed_form (cols : nat) :
  (2 <= cols)%nat ->
  exists D, D_operator cols = Ok D /\
    (forall i : nat, (1 <= i < cols)%nat ->
       getitem2 D (Z.of_nat i) (Z.of_nat i)
       = Ok (J_spec (Z.of_nat i) (Z.of_nat i))) /\
    (forall i j : nat, (i < j < cols)%nat -> ~ (i = 0%nat /\ j = 1%nat) ->
       getitem2 D (Z.of_nat i) (Z.of_nat j)
       = Ok (J_spec (Z.of_nat i) (Z.of_nat j) - J_spec (Z.of_nat i) (Z.of_nat j - 1))) /\
    getitem2 D 0 0 = Ok (2 / PI) /\
    getitem2 D 0 1 = Ok (J_spec 0 1 - 2 / PI).
Proof.
  intros Hc. destruct (D_operator_spec cols Hc) as (D & E & HD & Hcell).
  exists D. split; [exact E|]. repeat split.
  - intros i Hi. rewrite <- D_entry_diag by lia.
    apply getitem2_D_entry with (cols := cols); [assumption | lia | lia |].
    apply Hcell; lia.
  - intros i j Hij Hne. rewrite <- D_entry_upper by (auto; lia).
    apply getitem2_D_entry with (cols := cols); [assumption | lia | lia |].
    apply Hcell; lia.
  - apply (getitem2_cell cols D 0 0); [assumption | lia | lia |].
    apply (Hcell 0%nat 0%nat); lia.
  - rewrite <- (J_is_J_spec 0 1) by lia.
    apply (getitem2_cell cols D 0 1); [assumption | lia | lia |].
    apply (Hcell 0%nat 1%nat); lia.
Qed.

Lemma D_operator_closed_form_witness :
  (2 <= 3)%nat /\
  exists D, D_operator 3 = Ok D /\
    (forall i : nat, (1 <= i < 3)%nat ->
       getitem2 D (Z.of_nat i) (Z.of_nat i)
       = Ok (J_spec (Z.of_nat i) (Z.of_nat i))) /\
    (forall i j : nat, (i < j < 3)%nat -> ~ (i = 0%nat /\ j = 1%nat) ->
       getitem2 D (Z.of_nat i) (Z.of_nat j)
       = Ok (J_spec (Z.of_nat i) (Z.of_nat j) - J_spec (Z.of_nat i) (Z.of_nat j - 1))) /\
    getitem2 D 0 0 = Ok (2 / PI) /\
    getitem2 D 0 1 = Ok (J_spec 0 1 - 2 / PI).
Proof.
  split; [lia|]. apply (D_operator_closed_form 3). lia.
Defined.

(** C2. For every column count for which the operator is built
    ([cols >= 2]), every cell strictly below the diagonal is zero:
    [D[i,j] = 0] whenever [j < i]. *)
Theorem D_operator_lower_triangle_zero (cols : nat) :
  (2 <= cols)%nat ->
  exists D, D_operator cols = Ok D /\
    forall i j : nat, (i < cols)%nat -> (j < i)%nat ->
      getitem2 D (Z.of_nat i) (Z.of_nat j) = Ok 0.
Proof.
  intros Hc. destruct (D_operator_spec cols Hc) as (D & E & HD & Hcell).
  exists D. split; [exact E|]. intros i j Hi Hji.
  rewrite <- (D_entry_lower i j Hji).
  apply getitem2_D_entry with (cols := cols); [assumption | lia | lia |].
  apply Hcell; lia.
Qed.

Lemma D_operator_lower_triangle_zero_witness :
  (2 <= 2)%nat /\
  exists D, D_operator 2 = Ok D /\
    forall i j : nat, (i < 2)%nat -> (j < i)%nat ->
      getitem2 D (Z.of_nat i) (Z.of_nat j) = Ok 0.
Proof.
  split; [lia|]. apply (D_operator_lower_triangle_zero 2). lia.
Defined.

End D_operator_claims.

(** ** The transform: guard, shapes and scaling *)

Section two_point_transform_facts.

Import two_point.
Local Open Scope R_scope.

(** The transform past its guard, lines 52-87: the work it records and
    what it returns. *)
Lemma two_point_transform_inverse (IM : ndarray) (dr : R) :
  two_point_transform IM dr "inverse" =
  match D_operator (shape1 (atleast_2d IM)) with
  | Ok D => ([Promote; Operator; Tensordot; Elementwise],
             Ok (divide dr (flatten_single_row (tensordot (atleast_2d IM) D))))
  | Raise e => ([Promote; Operator], Raise e)
  end.
Proof.
  unfold two_point_transform. simpl.
  destruct (D_operator (shape1 (atleast_2d IM))); reflexivity.
Qed.

Lemma two_point_transform_other (IM : ndarray) (dr : R) (direction : string) :
  direction <> "inverse"%string ->
  two_point_transform IM dr direction = ([], Raise forward_not_implemented).
Proof.
  intros Hd. unfold two_point_transform.
  destruct (String.eqb_spec direction "inverse") as [->|_]; [contradiction|reflexivity].
Qed.

(** With fewer than two columns the transform stops at line 78. *)
Lemma two_point_transform_small (IM : ndarray) (dr : R) :
  (shape1 (atleast_2d IM) < 2)%nat ->
  outcome (two_point_transform IM dr "inverse") = Raise index_out_of_bounds.
Proof.
  intros Hc. rewrite two_point_transform_inverse, D_operator_small by assumption.
  reflexivity.
Qed.

Lemma atleast_2d_wf (IM : ndarray) : wf IM -> wf2 (atleast_2d IM).
Proof.
  destruct IM as [v|a]; simpl; [intros _ | auto].
  split; [reflexivity | repeat constructor].
Qed.

Lemma tensordot_wf (IM : array2) (D : list (list R)) :
  wf2 IM -> wf2 (tensordot IM D).
Proof.
  intros [Hlen Hrows]. split; simpl.
  - now rewrite length_map.
  - apply Forall_forall. intros r Hr. apply list_elem_of_In in Hr.
    apply in_map_iff in Hr as (row & <- & _). apply length_map.
Qed.

(** The shape of what lines 84-87 return, from the shape of [inv_IM]. *)
Lemma flatten_single_row_one (dr : R) (a : array2) :
  wf2 a -> shape0 a = 1%nat ->
  exists v, divide dr (flatten_single_row a) = A1 v /\ length v = shape1 a.
Proof.
  intros [Hlen Hrows] H1. unfold flatten_single_row. rewrite H1. simpl.
  destruct (data a) as [|row rest] eqn:E; [simpl in Hlen; lia|].
  exists (div1 dr row). split; [reflexivity|].
  unfold div1. rewrite length_map. now apply Forall_cons in Hrows as [Hrow _].
Qed.

Lemma flatten_single_row_many (dr : R) (a : array2) :
  shape0 a <> 1%nat ->
  divide dr (flatten_single_row a) = A2 (div2 dr a).
Proof.
  intros H1. unfold flatten_single_row.
  destruct (Nat.eqb_spec (shape0 a) 1); [contradiction|reflexivity].
Qed.

Lemma div2_wf (dr : R) (a : array2) : wf2 a -> wf2 (div2 dr a).
Proof.
  intros [Hlen Hrows]. split; simpl.
  - now rewrite length_map.
  - apply Forall_forall. intros r Hr. apply list_elem_of_In in Hr.
    apply in_map_iff in Hr as (row & <- & Hrow). unfold div1. rewrite length_map.
    rewrite Forall_forall in Hrows. apply Hrows. now apply list_elem_of_In.
Qed.

Lemma div1_one (v : list R) : div1 1 v = v.
Proof.
  unfold div1. induction v as [|x v IH]; simpl; [reflexivity|].
  now rewrite IH, Rdiv_1_r.
Qed.

Lemma divide_one (a : ndarray) : divide 1 a = a.
Proof.
  destruct a as [v|[r c d]]; simpl; [now rewrite div1_one|].
  unfold div2. simpl. do 2 f_equal.
  induction d as [|row d IH]; simpl; [reflexivity | now rewrite IH, div1_one].
Qed.

(** The result in terms of the promoted input, for two columns or more. *)
Lemma two_point_transform_cases (IM : ndarray) (dr : R) :
  wf IM -> (2 <= shape1 (atleast_2d IM))%nat ->
  exists out, outcome (two_point_transform IM dr "inverse") = Ok out /\
    ((shape0 (atleast_2d IM) = 1%nat /\
      exists v, out = A1 v /\ length v = shape1 (atleast_2d IM)) \/
     (shape0 (atleast_2d IM) <> 1%nat /\
      exists b, out = A2 b /\ wf2 b /\
        shape0 b = shape0 (atleast_2d IM) /\ shape1 b = shape1 (atleast_2d IM))).
Proof.
  intros Hwf Hc. rewrite two_point_transform_inverse.
  destruct (D_operator_spec _ Hc) as (D & -> & [HlenD _] & _). simpl.
  pose proof (tensordot_wf _ D (atleast_2d_wf IM Hwf)) as HT.
  eexists. split; [reflexivity|].
  destruct (Nat.eq_dec (shape0 (atleast_2d IM)) 1%nat) as [H1|H1].
  - left. split; [assumption|].
    destruct (flatten_single_row_one dr _ HT H1) as (v & -> & Hv).
    exists v. split; [reflexivity|]. simpl in Hv. congruence.
  - right. split; [assumption|].
    rewrite flatten_single_row_many by assumption.
    eexists. split; [reflexivity|]. split; [now apply div2_wf|]. simpl. auto.
Qed.

End two_point_transform_facts.

Section two_point_transform_claims.

Import two_point.
Local Open Scope R_scope.

(** C3. Whatever the image and [dr], a direction other than ["inverse"]
    (["forward"] among them) raises the not-implemented error at entry:
    no array work has been started when it is raised, and the error is
    the same for every input, also for one on which the array code would
    itself fail. With ["inverse"] the array work starts and that error is
    not raised. *)
Theorem two_point_direction_guard (IM : ndarray) (dr : R) (direction : string) :
  (direction <> "inverse"%string ->
   two_point_transform IM dr direction = ([], Raise forward_not_implemented)) /\
  two_point_transform IM dr "forward" = ([], Raise forward_not_implemented) /\
  trace (two_point_transform IM dr "inverse") <> [] /\
  outcome (two_point_transform IM dr "inverse") <> Raise forward_not_implemented.
Proof.
  split; [apply two_point_transform_other|]. split; [reflexivity|].
  rewrite two_point_transform_inverse.
  destruct (le_lt_dec 2 (shape1 (atleast_2d IM))) as [Hc|Hc].
  - destruct (D_operator_spec _ Hc) as (D & -> & _). split; discriminate.
  - rewrite D_operator_small by assumption. split; discriminate.
Qed.

Lemma two_point_direction_guard_witness :
  two_point_transform (A1 [5]) 1 "forward" = ([], Raise forward_not_implemented).
Proof.
  apply (proj1 (two_point_direction_guard (A1 [5]) 1 "forward")). discriminate.
Defined.

(** C4, as the code has it. A well-formed input with two columns or more
    is transformed, and the result is flattened by the row count of the
    result, not by the dimension of the input: a 1D input of length N
    gives a 1D result of length N; a 2D input of shape (rows, cols) with
    [rows <> 1] gives a 2D result of shape (rows, cols); a 2D input of
    shape (1, cols) gives a 1D result of length cols. *)
Theorem two_point_transform_shape (IM : ndarray) (dr : R) :
  wf IM -> (2 <= shape1 (atleast_2d IM))%nat ->
  exists out, outcome (two_point_transform IM dr "inverse") = Ok out /\
    match IM with
    | A1 v => exists w, out = A1 w /\ length w = length v
    | A2 a =>
        if (shape0 a =? 1)%nat
        then exists w, out = A1 w /\ length w = shape1 a
        else exists b, out = A2 b /\ wf2 b /\
               shape0 b = shape0 a /\ shape1 b = shape1 a
    end.
Proof.
  intros Hwf Hc.
  destruct (two_point_transform_cases IM dr Hwf Hc) as (out & E & Hout).
  exists out. split; [exact E|].
  destruct IM as [v|a]; simpl in *.
  - destruct Hout as [[_ H]|[H _]]; [exact H | contradiction].
  - destruct (Nat.eqb_spec (shape0 a) 1%nat) as [H1|H1];
      destruct Hout as [[H H']|[H H']]; try contradiction; exact H'.
Qed.

Lemma two_point_transform_shape_witness :
  exists out,
    outcome (two_point_transform (A2 (Array2 2 2 [[1; 2]; [3; 4]])) 1 "inverse")
    = Ok out /\
    exists b, out = A2 b /\ wf2 b /\ shape0 b = 2%nat /\ shape1 b = 2%nat.
Proof.
  apply (two_point_transform_shape (A2 (Array2 2 2 [[1; 2]; [3; 4]])) 1).
  - split; [reflexivity | repeat constructor].
  - simpl. lia.
Defined.

(** C4 as stated fails: a 2D input of shape (1, 2) comes back as a 1D
    array, so the result is not 2D and its leading dimension is 2, not
    the input's 1. *)
Lemma two_point_transform_shape_counterexample :
  wf (A2 (Array2 1 2 [[1; 2]])) /\
  ndim (A2 (Array2 1 2 [[1; 2]])) = 2%nat /\
  leading_dim (A2 (Array2 1 2 [[1; 2]])) = 1%nat /\
  exists out,
    outcome (two_point_transform (A2 (Array2 1 2 [[1; 2]])) 1 "inverse") = Ok out /\
    ndim out = 1%nat /\ leading_dim out = 2%nat.
Proof.
  assert (Hwf : wf (A2 (Array2 1 2 [[1; 2]])))
    by (split; [reflexivity | repeat constructor]).
  split; [exact Hwf|]. split; [reflexivity|]. split; [reflexivity|].
  destruct (two_point_transform_cases (A2 (Array2 1 2 [[1; 2]])) 1 Hwf)
    as (out & E & [[_ (v & -> & Hv)]|[H _]]); simpl; [lia | | contradiction].
  exists (A1 v). split; [exact E|]. split; [reflexivity | exact Hv].
Qed.

(** C9. For every image and every [dr > 0], the result with divisor
    [dr] is the result with divisor 1 with every element divided by
    [dr]: an exception is the same exception, a 1D result has at each
    index the element of the other divided by [dr], a 2D result has the
    same shape and at each cell the element of the other divided by [dr].
    The result with divisor 1 is the unscaled product of the image with
    the operator. *)
Theorem two_point_transform_dr (IM : ndarray) (dr : R) :
  0 < dr ->
  match outcome (two_point_transform IM 1 "inverse") with
  | Raise e => outcome (two_point_transform IM dr "inverse") = Raise e
  | Ok (A1 v1) =>
      exists v, outcome (two_point_transform IM dr "inverse") = Ok (A1 v) /\
        forall i : nat, v !! i = option_map (fun x => x / dr) (v1 !! i)
  | Ok (A2 a1) =>
      exists a, outcome (two_point_transform IM dr "inverse") = Ok (A2 a) /\
        shape0 a = shape0 a1 /\ shape1 a = shape1 a1 /\
        forall r c : nat,
          cell (data a) r c = option_map (fun x => x / dr) (cell (data a1) r c)
  end /\
  outcome (two_point_transform IM 1 "inverse")
  = (D <- D_operator (shape1 (atleast_2d IM)) ;;
     Ok (flatten_single_row (tensordot (atleast_2d IM) D))).
Proof.
  intros _. rewrite !two_point_transform_inverse.
  destruct (D_operator (shape1 (atleast_2d IM))) as [D|e]; simpl; [|auto].
  rewrite divide_one. split; [|reflexivity].
  destruct (flatten_single_row (tensordot (atleast_2d IM) D)) as [v1|a1]; simpl.
  - exists (div1 dr v1). split; [reflexivity|]. intros i.
    unfold div1. now rewrite list_lookup_fmap.
  - exists (div2 dr a1). split; [reflexivity|]. split; [reflexivity|].
    split; [reflexivity|]. intros r c. unfold cell. simpl.
    rewrite list_lookup_fmap. destruct (data a1 !! r) as [row|]; simpl;
      [|reflexivity].
    unfold div1. now rewrite list_lookup_fmap.
Qed.

Lemma two_point_transform_dr_witness :
  match outcome (two_point_transform (A1 [1; 2; 3]) 1 "inverse") with
  | Raise e => outcome (two_point_transform (A1 [1; 2; 3]) 2 "inverse") = Raise e
  | Ok (A1 v1) =>
      exists v,
        outcome (two_point_transform (A1 [1; 2; 3]) 2 "inverse") = Ok (A1 v) /\
        forall i : nat, v !! i = option_map (fun x => x / 2) (v1 !! i)
  | Ok (A2 a1) =>
      exists a,
        outcome (two_point_transform (A1 [1; 2; 3]) 2 "inverse") = Ok (A2 a) /\
        shape0 a = shape0 a1 /\ shape1 a = shape1 a1 /\
        forall r c : nat,
          cell (data a) r c = option_map (fun x => x / 2) (cell (data a1) r c)
  end /\
  outcome (two_point_transform (A1 [1; 2; 3]) 1 "inverse")
  = (D <- D_operator (shape1 (atleast_2d (A1 [1; 2; 3]))) ;;
     Ok (flatten_single_row (tensordot (atleast_2d (A1 [1; 2; 3])) D))).
Proof.
  apply (two_point_transform_dr (A1 [1; 2; 3]) 2). lra.
Defined.

(** C10, as the code has it. A well-formed 2D input of shape (1, N) with
    [N >= 2] comes back as a 1D array of length N. *)
Theorem two_point_single_row_flattened (a : array2) (dr : R) :
  wf2 a -> shape0 a = 1%nat -> (2 <= shape1 a)%nat ->
  exists v, outcome (two_point_transform (A2 a) dr "inverse") = Ok (A1 v) /\
            length v = shape1 a.
Proof.
  intros Hwf H1 Hc.
  destruct (two_point_transform_cases (A2 a) dr Hwf Hc)
    as (out & E & [[_ (v & -> & Hv)]|[H _]]); [|contradiction].
  exists v. split; [exact E | exact Hv].
Qed.

Lemma two_point_single_row_flattened_witness :
  exists v,
    outcome (two_point_transform (A2 (Array2 1 3 [[1; 2; 3]])) 1 "inverse")
    = Ok (A1 v) /\
    length v = 3%nat.
Proof.
  apply (two_point_single_row_flattened (Array2 1 3 [[1; 2; 3]]) 1).
  - split; [reflexivity | repeat constructor].
  - reflexivity.
  - simpl. lia.
Defined.

(** C10 as stated fails for N = 1: on a 2D input of shape (1, 1) the
    store [D[0, 1]] is out of bounds and no array is returned. *)
Lemma two_point_single_row_counterexample :
  wf2 (Array2 1 1 [[5]]) /\
  outcome (two_point_transform (A2 (Array2 1 1 [[5]])) 1 "inverse")
  = Raise index_out_of_bounds.
Proof.
  split; [split; [reflexivity | repeat constructor]|].
  apply two_point_transform_small. simpl. lia.
Qed.

End two_point_transform_claims.


(** ** The method guard of the circularization *)

Section method_guard.

Import circularize.
Local Open Scope R_scope.

Variable ndimage_zoom : array2 -> R -> result array2.
Variable center_image : array2 -> string -> result array2.
Variable reproject_image_into_polar : array2 -> result (array2 * array2 * array2).
Variable dasch_two_point_transform : array2 -> result array2.
Variable UnivariateSpline : list float64 -> list float64 -> R -> result (R -> R).
Variable leastsq : (R * R -> result (list R)) -> R * R -> result (R * R).
Variable map_coordinates : array2 -> list (list R) * list (list R) -> result array2.

Local Abbreviation correction := (circularize.correction UnivariateSpline leastsq).
Local Abbreviation polar_slices :=
  (circularize.polar_slices ndimage_zoom center_image reproject_image_into_polar
                            dasch_two_point_transform).
Local Abbreviation circularize_image :=
  (circularize.circularize_image ndimage_zoom center_image
     reproject_image_into_polar dasch_two_point_transform UnivariateSpline
     leastsq map_coordinates).

Lemma correction_invalid_method (slice_angles : list float64) (slices : list array2)
      (radial : list R) (method : string) :
  method <> "argmax"%string -> method <> "lsq"%string ->
  correction slice_angles slices radial method = ([], Raise (invalid_method method)).
Proof.
  intros Ha Hl. unfold circularize.correction.
  destruct (String.eqb_spec method "argmax"); [contradiction|].
  destruct (String.eqb_spec method "lsq"); [contradiction|]. reflexivity.
Qed.

(** Slicing that succeeds has reprojected the image and split it. *)
Lemma polar_slices_work (IM : array2) (center : option string)
      (radial_range : option (R * R)) (zoom : R) (nslices : Z) (inverse : bool)
      (t : list work) (v : array2 * list float64 * list array2 * list R) :
  polar_slices IM center radial_range zoom nslices inverse = (t, Ok v) ->
  In Reproject t /\ In Split t.
Proof.
  unfold circularize.polar_slices. intros H.
  apply and_then_ok_inv in H as (t1 & IM1 & t1' & _ & H & ->).
  apply and_then_ok_inv in H as (t2 & IM2 & t2' & _ & H & ->).
  apply and_then_ok_inv in H as (t3 & [[polarIM radial_coord] angle_coord] & t3' & H3 & H & ->).
  apply call_ok_inv in H3 as [-> _].
  apply and_then_ok_inv in H as (t4 & polarIM' & t4' & _ & H & ->).
  apply and_then_ok_inv in H as (t5 & radial & t5' & _ & H & ->).
  apply and_then_ok_inv in H as (t6 & [polarIM'' radial'] & t6' & _ & H & ->).
  apply and_then_ok_inv in H as (t7 & slices & t7' & H7 & H & ->).
  apply call_ok_inv in H7 as [-> _].
  split; rewrite !in_app_iff; simpl; tauto.
Qed.

(** C5, as the code has it. With a method other than ["argmax"] and
    ["lsq"], [correction] raises the invalid-method error for every
    slice-angle sequence, slice sequence and radial grid, before any
    profile is computed. [circularize_image] checks the method nowhere
    else: it first zooms, centres, reprojects to polar coordinates,
    crops and slices, and raises the error only when [correction] is
    reached, so whenever the slicing succeeds the error comes after the
    reprojection and the split. *)
Theorem invalid_method_raised_by_correction (method : string) :
  method <> "argmax"%string -> method <> "lsq"%string ->
  (forall slice_angles slices radial,
     correction slice_angles slices radial method
     = ([], Raise (invalid_method method))) /\
  (forall IM center radial_range zoom smooth nslices inverse return_correction,
     circularize_image IM method center radial_range zoom smooth nslices inverse
                       return_correction
     = and_then (polar_slices IM center radial_range zoom nslices inverse)
                (fun _ => raise (invalid_method method))) /\
  (forall IM center radial_range zoom smooth nslices inverse return_correction t v,
     polar_slices IM center radial_range zoom nslices inverse = (t, Ok v) ->
     circularize_image IM method center radial_range zoom smooth nslices inverse
                       return_correction
     = (t, Raise (invalid_method method)) /\
     In Reproject t /\ In Split t).
Proof.
  intros Ha Hl.
  assert (Himg : forall IM center radial_range zoom smooth nslices inverse rc,
     circularize_image IM method center radial_range zoom smooth nslices inverse rc
     = and_then (polar_slices IM center radial_range zoom nslices inverse)
                (fun _ => raise (invalid_method method))).
  { intros. unfold circularize.circularize_image. apply and_then_ext.
    intros [[[IM' slice_angles] slices] radial].
    now rewrite correction_invalid_method by assumption. }
  split; [intros; now apply correction_invalid_method|]. split; [exact Himg|].
  intros IM center radial_range zoom smooth nslices inverse rc t v Hs.
  split; [|now apply polar_slices_work in Hs].
  rewrite Himg, Hs. simpl. now rewrite app_nil_r.
Qed.

End method_guard.

Lemma invalid_method_raised_by_correction_witness :
  circularize.correction (fun _ _ _ => Ok (fun _ => 0%R)) (fun _ p => Ok p)
                         [] [] [] "peak"
  = ([], Raise (circularize.invalid_method "peak")).
Proof.
  apply (proj1 (invalid_method_raised_by_correction
                  (fun IM _ => Ok IM) (fun IM _ => Ok IM) (fun IM => Ok (IM, IM, IM))
                  (fun IM => Ok IM) (fun _ _ _ => Ok (fun _ => 0%R)) (fun _ p => Ok p)
                  (fun IM _ => Ok IM) "peak" ltac:(discriminate) ltac:(discriminate))).
Defined.

(** C5 as stated fails in the pipeline. Take a reprojection that returns
    the image as its own polar image and coordinate grids: on a one-pixel
    image with an unknown method, [circularize_image] reprojects the
    image, takes the radial grid and splits both arrays before the
    invalid-method error is raised. *)
Lemma invalid_method_counterexample :
  circularize.circularize_image
    (fun IM _ => Ok IM) (fun IM _ => Ok IM) (fun IM => Ok (IM, IM, IM))
    (fun IM => Ok IM) (fun _ _ _ => Ok (fun _ => 0%R)) (fun _ p => Ok p)
    (fun IM _ => Ok IM)
    (Array2 1 1 [[0%R]]) "peak" None None 1%R 0%R 1%Z false false
  = ([Reproject; Take; Split; Split],
     Raise (circularize.invalid_method "peak")).
Proof.
  unfold circularize.circularize_image, circularize.polar_slices.
  destruct (Rlt_dec 1 1) as [H|_]; [lra|]. reflexivity.
Qed.

(** ** The scale factors of [correction] *)

Section peak_tracking.

Import circularize.
Local Open Scope R_scope.

Lemma argmax_from_lt (v : list R) :
  forall best_i best i, (best_i < i)%nat ->
    (argmax_from best_i best i v < i + length v)%nat.
Proof.
  induction v as [|x v IH]; intros best_i best i Hi; simpl; [lia|].
  destruct (Rlt_dec best x).
  - specialize (IH i x (S i)). lia.
  - specialize (IH best_i best (S i)). lia.
Qed.

(** A profile with at least one sample has a peak, inside the profile. *)
Lemma argmax_ok (v : list R) :
  v <> [] -> exists p, argmax v = Ok p /\ (p < length v)%nat.
Proof.
  destruct v as [|x v]; [contradiction|]. intros _.
  eexists. split; [reflexivity|].
  pose proof (argmax_from_lt v 0%nat x 1%nat). simpl. lia.
Qed.

Lemma sum_axis1_length (aslice : array2) :
  length (sum_axis1 aslice) = length (data aslice).
Proof. unfold sum_axis1. apply length_map. Qed.

(** The loop of lines 192-194 on slices that all have [n > 0] radial
    samples: one peak per pair of angle and slice, each inside the grid. *)
Lemma argmax_loop_ok (n : nat) (slices : list array2) :
  (0 < n)%nat -> Forall (fun s => length (data s) = n) slices ->
  forall slice_angles, exists t pkpos,
    argmax_loop slice_angles slices = (t, Ok pkpos) /\
    Forall (fun p => (p < n)%nat) pkpos /\
    match slice_angles, slices with
    | _ :: _, s0 :: _ => exists p0 rest, pkpos = p0 :: rest /\
                                         argmax (sum_axis1 s0) = Ok p0
    | _, _ => pkpos = []
    end.
Proof.
  intros Hn Hall. induction Hall as [|s0 slices Hs0 Hall IH]; intros slice_angles.
  - exists [], []. destruct slice_angles; simpl; auto.
  - destruct slice_angles as [|ang slice_angles].
    + exists [], []. simpl. auto.
    + destruct (argmax_ok (sum_axis1 s0)) as (p0 & E0 & Hp0).
      { intros E. apply (f_equal length) in E. rewrite sum_axis1_length in E.
        simpl in E. lia. }
      rewrite sum_axis1_length, Hs0 in Hp0.
      destruct (IH slice_angles) as (t & pkpos & E & Hpk & _).
      simpl. rewrite E0. simpl. rewrite E. simpl.
      eexists _, (p0 :: pkpos). split; [reflexivity|].
      split; [now constructor|]. eauto.
Qed.

Lemma take1_ok (a : list R) (i : nat) :
  (i < length a)%nat -> exists x, a !! i = Some x /\ take1 a i = Ok x.
Proof.
  intros Hi. unfold take1. destruct (a !! i) as [x|] eqn:E; [eauto|].
  apply lookup_ge_None in E. lia.
Qed.

Lemma take_ok (a : list R) (idx : list nat) :
  Forall (fun p => (p < length a)%nat) idx ->
  exists xs, take a idx = Ok xs /\
    match idx with
    | [] => xs = []
    | i :: _ => exists x rest, xs = x :: rest /\ a !! i = Some x
    end.
Proof.
  induction 1 as [|i idx Hi Hall IH].
  - exists []. auto.
  - destruct (take1_ok a i Hi) as (x & Ex & E1). destruct IH as (xs & E & _).
    exists (x :: xs). simpl. rewrite E1. simpl. rewrite E. simpl. eauto.
Qed.

Lemma true_divide_self (r : R) : r <> 0 -> true_divide r r = Finite 1.
Proof.
  intros Hr. unfold true_divide. destruct (Req_dec_T r 0); [contradiction|].
  f_equal. now field.
Qed.

Lemma true_divide_zero_zero : true_divide 0 0 = NaN.
Proof.
  unfold true_divide. destruct (Req_dec_T 0 0) as [_|H]; [reflexivity | now destruct H].
Qed.

Variable UnivariateSpline : list float64 -> list float64 -> R -> result (R -> R).
Variable leastsq : (R * R -> result (list R)) -> R * R -> result (R * R).

Local Abbreviation correction := (circularize.correction UnivariateSpline leastsq).

(** Peak tracking on slices that match a non-empty radial grid returns,
    and its first factor is the radius at the first slice's peak divided
    by itself. *)
Lemma correction_argmax_first (ang : float64) (slice_angles : list float64)
      (s0 : array2) (slices : list array2) (radial : list R) :
  radial <> [] ->
  Forall (fun s => length (data s) = length radial) (s0 :: slices) ->
  exists p0 r0 rest,
    argmax (sum_axis1 s0) = Ok p0 /\ radial !! p0 = Some r0 /\
    outcome (correction (ang :: slice_angles) (s0 :: slices) radial "argmax")
    = Ok (true_divide r0 r0 :: rest).
Proof.
  intros Hr Hall.
  assert (Hn : (0 < length radial)%nat) by (destruct radial; [contradiction | simpl; lia]).
  destruct (argmax_loop_ok _ _ Hn Hall (ang :: slice_angles))
    as (t & pkpos & E & Hpk & p0 & rest & -> & E0).
  destruct (take_ok radial (p0 :: rest) Hpk) as (rs & Ers & r0 & rs' & -> & Er0).
  exists p0, r0, (map (true_divide r0) rs'). split; [exact E0|]. split; [exact Er0|].
  unfold circularize.correction.
  change ("argmax" =? "argmax")%string with true. cbv iota.
  rewrite E, outcome_and_then_ok.
  unfold take1 at 1. rewrite Er0.
  unfold call at 1. rewrite outcome_and_then_ok.
  rewrite Ers. reflexivity.
Qed.

(** The first peak the loop stores is the peak of the first slice. *)
Lemma argmax_loop_head (slice_angles : list float64) (s0 : array2)
      (slices : list array2) (t : list work) (p0 : nat) (rest : list nat) :
  argmax_loop slice_angles (s0 :: slices) = (t, Ok (p0 :: rest)) ->
  argmax (sum_axis1 s0) = Ok p0.
Proof.
  destruct slice_angles as [|ang slice_angles]; simpl; [discriminate|].
  destruct (argmax (sum_axis1 s0)) as [pk|e]; simpl; [|discriminate].
  destruct (argmax_loop slice_angles slices) as [t' [pkpos|e]]; simpl;
    [|discriminate].
  now intros [= _ -> _].
Qed.

(** Whatever peak tracking returns starts with the radius at the first
    slice's peak divided by itself. *)
Lemma correction_argmax_inv (slice_angles : list float64) (s0 : array2)
      (slices : list array2) (radial : list R) (sf : list float64) :
  outcome (correction slice_angles (s0 :: slices) radial "argmax") = Ok sf ->
  exists p0 r0 rest,
    argmax (sum_axis1 s0) = Ok p0 /\ radial !! p0 = Some r0 /\
    sf = true_divide r0 r0 :: rest.
Proof.
  unfold circularize.correction.
  change ("argmax" =? "argmax")%string with true. cbv iota.
  destruct (argmax_loop slice_angles (s0 :: slices)) as [t [pkpos|e]] eqn:E;
    [|discriminate].
  rewrite outcome_and_then_ok.
  destruct pkpos as [|p0 pkpos]; [discriminate|].
  apply argmax_loop_head in E.
  unfold take1 at 1. destruct (radial !! p0) as [r0|] eqn:Er0; [|discriminate].
  unfold call at 1. rewrite outcome_and_then_ok.
  simpl. unfold take1. rewrite Er0. simpl.
  destruct (take radial pkpos) as [rs|e]; simpl; [|discriminate].
  intros [= <-]. eauto 6.
Qed.

End peak_tracking.

Section least_squares.

Import circularize.
Local Open Scope R_scope.

Variable UnivariateSpline : list float64 -> list float64 -> R -> result (R -> R).
Variable leastsq : (R * R -> result (list R)) -> R * R -> result (R * R).

Local Abbreviation residual := (circularize.residual UnivariateSpline).
Local Abbreviation lsq_step := (circularize.lsq_step UnivariateSpline leastsq).
Local Abbreviation lsq_loop := (circularize.lsq_loop UnivariateSpline leastsq).
Local Abbreviation correction := (circularize.correction UnivariateSpline leastsq).

Lemma add_residual (previous new : list R) :
  length new = length previous ->
  zip_with Rplus previous (zip_with Rminus new previous) = new.
Proof.
  revert new. induction previous as [|p previous IH]; intros [|x new] Hlen;
    simpl in *; try discriminate; [reflexivity|].
  rewrite IH by lia. f_equal. ring.
Qed.

Lemma broadcast_same_length (f : R -> R -> R) (a b : list R) :
  length a = length b -> broadcast f a b = Ok (zip_with f a b).
Proof. intros H. unfold broadcast. now rewrite H, Nat.eqb_refl. Qed.

Lemma iadd_same_length (a b : list R) :
  length a = length b -> iadd a b = Ok (zip_with Rplus a b).
Proof. intros H. unfold iadd. now rewrite H, Nat.eqb_refl. Qed.

Lemma residual_ok (param : R * R) (radial profile previous : list R)
      (spline_prof : R -> R) :
  UnivariateSpline (map Finite (map (fun r => r * fst param) radial))
                   (map Finite profile) 0 = Ok spline_prof ->
  length previous = length radial ->
  residual param radial profile previous
  = Ok (zip_with Rminus (newprof spline_prof param radial) previous).
Proof.
  intros E Hlen. unfold circularize.residual. rewrite E. simpl.
  apply broadcast_same_length. unfold newprof. rewrite length_map. lia.
Qed.

(** One turn of the least-squares loop, when the fit and the spline of
    the fitted profile succeed and the reference has the length of the
    radial grid. *)
Lemma lsq_step_ok (radial : list R) (st : lsq_state) (aslice : array2)
      (result : R * R) (spline_prof : R -> R) :
  leastsq (fun p => residual p radial (sum_axis1 aslice) (previous st)) (fitpar st)
  = Ok result ->
  UnivariateSpline (map Finite (map (fun r => r * fst result) radial))
                   (map Finite (sum_axis1 aslice)) 0 = Ok spline_prof ->
  length (previous st) = length radial ->
  lsq_step radial st aslice
  = ([ProfileSum; Leastsq; Residual; Elementwise],
     Ok (LsqState (sf st ++ [Finite (fst result)])
                  (zip_with Rplus (previous st)
                     (zip_with Rminus (newprof spline_prof result radial) (previous st)))
                  result)).
Proof.
  intros El Es Hlen. unfold circularize.lsq_step. simpl. rewrite El. simpl.
  rewrite (residual_ok result radial _ _ spline_prof Es Hlen). simpl.
  rewrite iadd_same_length; [reflexivity|].
  rewrite length_zip_with. unfold newprof. rewrite length_map. lia.
Qed.


(** A turn of the loop appends one factor and keeps those before it. *)
Lemma lsq_step_sf (radial : list R) (st st' : lsq_state) (aslice : array2)
      (t : list work) :
  lsq_step radial st aslice = (t, Ok st') -> exists x, sf st' = sf st ++ [x].
Proof.
  unfold circularize.lsq_step. intros H.
  apply and_then_ok_inv in H as (t1 & profile & t1' & _ & H & _).
  apply and_then_ok_inv in H as (t2 & result & t2' & _ & H & _).
  apply and_then_ok_inv in H as (t3 & r & t3' & _ & H & _).
  apply and_then_ok_inv in H as (t4 & previous' & t4' & _ & H & _).
  apply ret_ok_inv in H as [_ <-]. simpl. eauto.
Qed.

Lemma lsq_loop_sf (radial : list R) (slices : list array2) :
  forall (slice_angles : list float64) (st st' : lsq_state) (t : list work),
  lsq_loop radial st slice_angles slices = (t, Ok st') ->
  exists more, sf st' = sf st ++ more.
Proof.
  induction slices as [|aslice slices IH]; intros slice_angles st st' t H.
  - exists []. rewrite app_nil_r.
    destruct slice_angles; apply ret_ok_inv in H as [_ <-]; reflexivity.
  - destruct slice_angles as [|ang slice_angles].
    + exists []. rewrite app_nil_r. apply ret_ok_inv in H as [_ <-]. reflexivity.
    + simpl in H. apply and_then_ok_inv in H as (t1 & st1 & t2 & H1 & H2 & _).
      apply lsq_step_sf in H1 as (x & E1).
      apply IH in H2 as (more & E2).
      exists (x :: more). rewrite E2, E1, <- app_assoc. reflexivity.
Qed.

Hypothesis spline_total :
  forall x y s, exists f, UnivariateSpline x y s = Ok f.
Hypothesis leastsq_total :
  forall f p, exists q, leastsq f p = Ok q.

(** When the fit and the spline never fail, the loop runs to its end. *)
Lemma lsq_loop_ok (radial : list R) (slices : list array2) :
  forall (slice_angles : list float64) (st : lsq_state),
  length (previous st) = length radial ->
  exists t st', lsq_loop radial st slice_angles slices = (t, Ok st').
Proof.
  induction slices as [|aslice slices IH]; intros slice_angles st Hlen.
  - destruct slice_angles; simpl; eauto.
  - destruct slice_angles as [|ang slice_angles]; [simpl; eauto|].
    destruct (leastsq_total
                (fun p => residual p radial (sum_axis1 aslice) (previous st))
                (fitpar st)) as (result & El).
    destruct (spline_total (map Finite (map (fun r => r * fst result) radial))
                           (map Finite (sum_axis1 aslice)) 0) as (spline_prof & Es).
    simpl. rewrite (lsq_step_ok radial st aslice result spline_prof El Es Hlen).
    edestruct (IH slice_angles) as (t & st' & E); [|rewrite and_then_ok, E; simpl; eauto].
    simpl. rewrite add_residual; unfold newprof; rewrite length_map; lia.
Qed.

End least_squares.

Section scale_factor_claims.

Import circularize.
Local Open Scope R_scope.

Variable UnivariateSpline : list float64 -> list float64 -> R -> result (R -> R).
Variable leastsq : (R * R -> result (list R)) -> R * R -> result (R * R).

Local Abbreviation correction := (circularize.correction UnivariateSpline leastsq).

(** C6, as the code has it. For every non-empty slice sequence, the
    first factor of whatever [correction] returns is exactly 1.0 under
    ["argmax"], provided the radius at the first slice's peak is not zero,
    and exactly 1 under ["lsq"]. And [correction] does return: under
    ["argmax"] when there is a slice angle and every slice has one row per
    sample of a non-empty radial grid; under ["lsq"] when the first slice
    has and the fit and the spline never fail. *)
Theorem correction_first_scale_factor (slice_angles : list float64)
        (s0 : array2) (slices : list array2) (radial : list R) :
  ((forall p0 r0,
      argmax (sum_axis1 s0) = Ok p0 -> radial !! p0 = Some r0 -> r0 <> 0) ->
   forall sf,
     outcome (correction slice_angles (s0 :: slices) radial "argmax") = Ok sf ->
     exists rest, sf = Finite 1 :: rest) /\
  (forall sf,
     outcome (correction slice_angles (s0 :: slices) radial "lsq") = Ok sf ->
     exists rest, sf = Finite 1 :: rest) /\
  ((forall p0 r0,
      argmax (sum_axis1 s0) = Ok p0 -> radial !! p0 = Some r0 -> r0 <> 0) ->
   slice_angles <> [] -> radial <> [] ->
   Forall (fun s => length (data s) = length radial) (s0 :: slices) ->
   exists rest,
     outcome (correction slice_angles (s0 :: slices) radial "argmax")
     = Ok (Finite 1 :: rest)) /\
  ((forall x y s, exists f, UnivariateSpline x y s = Ok f) ->
   (forall f p, exists q, leastsq f p = Ok q) ->
   length (data s0) = length radial ->
   exists rest,
     outcome (correction slice_angles (s0 :: slices) radial "lsq")
     = Ok (Finite 1 :: rest)).
Proof.
  assert (Hlsq_run : forall t st,
             circularize.lsq_loop UnivariateSpline leastsq radial
               (LsqState [Finite 1] (sum_axis1 s0) (1, 1))
               (drop1 slice_angles) (drop1 (s0 :: slices)) = (t, st) ->
             outcome (correction slice_angles (s0 :: slices) radial "lsq")
             = result_map sf st).
  { intros t st E. unfold circularize.correction.
    change ("lsq" =? "argmax")%string with false.
    change ("lsq" =? "lsq")%string with true. cbv iota.
    unfold call at 1. rewrite outcome_and_then_ok, E. now destruct st. }
  assert (Hargmax :
            (forall p0 r0,
               argmax (sum_axis1 s0) = Ok p0 -> radial !! p0 = Some r0 -> r0 <> 0) ->
            forall sf,
              outcome (correction slice_angles (s0 :: slices) radial "argmax") = Ok sf ->
              exists rest, sf = Finite 1 :: rest).
  { intros Hpeak sf E.
    apply correction_argmax_inv in E as (p0 & r0 & rest & E0 & Er0 & ->).
    exists rest. rewrite true_divide_self; [reflexivity|]. now apply (Hpeak p0). }
  assert (Hlsq : forall sf,
             outcome (correction slice_angles (s0 :: slices) radial "lsq") = Ok sf ->
             exists rest, sf = Finite 1 :: rest).
  { intros sf.
    destruct (circularize.lsq_loop UnivariateSpline leastsq radial
                (LsqState [Finite 1] (sum_axis1 s0) (1, 1))
                (drop1 slice_angles) (drop1 (s0 :: slices))) as [t st] eqn:E.
    rewrite (Hlsq_run t st eq_refl). destruct st as [st|e]; simpl; [|discriminate].
    intros [= <-]. apply lsq_loop_sf in E as (more & ->). simpl. eauto. }
  split; [exact Hargmax|]. split; [exact Hlsq|]. split.
  - intros Hpeak Ha Hr Hall.
    destruct slice_angles as [|ang slice_angles']; [contradiction|].
    destruct (correction_argmax_first UnivariateSpline leastsq ang slice_angles'
                s0 slices radial Hr Hall) as (p0 & r0 & rest & E0 & Er0 & E).
    destruct (Hargmax Hpeak _ E) as (rest' & Erest). rewrite E, Erest. eauto.
  - intros Hs Hl Hlen0.
    assert (Hlen : length (previous (LsqState [Finite 1] (sum_axis1 s0) (1, 1)))
                   = length radial)
      by (simpl; now rewrite sum_axis1_length).
    destruct (lsq_loop_ok UnivariateSpline leastsq Hs Hl radial
                (drop1 (s0 :: slices)) (drop1 slice_angles) _ Hlen) as (t & st' & E).
    pose proof (Hlsq_run _ _ E) as Eout. simpl in Eout.
    destruct (Hlsq _ Eout) as (rest & Erest). rewrite Eout, Erest. eauto.
Qed.

End scale_factor_claims.

Lemma correction_first_scale_factor_witness :
  exists rest,
    outcome
      (circularize.correction (fun _ _ _ => Ok (fun _ => 0%R)) (fun _ p => Ok p)
         [circularize.Finite 0; circularize.Finite 1]
         [Array2 2 1 [[0%R]; [5%R]]; Array2 2 1 [[0%R]; [7%R]]]
         [1%R; 2%R] "argmax")
    = Ok (circularize.Finite 1 :: rest).
Proof.
  apply (correction_first_scale_factor
           (fun _ _ _ => Ok (fun _ => 0%R)) (fun _ p => Ok p)
           [circularize.Finite 0; circularize.Finite 1]
           (Array2 2 1 [[0%R]; [5%R]]) [Array2 2 1 [[0%R]; [7%R]]] [1%R; 2%R]).
  - intros p0 r0 _ Hr0. destruct p0 as [|[|p0]]; simpl in Hr0;
      [injection Hr0 as <- | injection Hr0 as <- | discriminate]; lra.
  - discriminate.
  - discriminate.
  - repeat constructor.
Defined.

(** C6 as stated fails under ["argmax"]: when the first slice peaks at
    the origin of the radial grid, its factor is 0/0, which numpy returns
    as nan, not 1.0. *)
Lemma correction_first_scale_factor_counterexample :
  [Array2 2 1 [[1%R]; [0%R]]] <> [] /\
  outcome
    (circularize.correction (fun _ _ _ => Ok (fun _ => 0%R)) (fun _ p => Ok p)
       [circularize.Finite 0] [Array2 2 1 [[1%R]; [0%R]]] [0%R; 1%R] "argmax")
  = Ok [circularize.NaN] /\
  circularize.NaN <> circularize.Finite 1.
Proof.
  split; [discriminate|]. split; [|discriminate].
  unfold circularize.correction. simpl.
  unfold circularize.sum_axis1, circularize.sum1. simpl.
  destruct (Rlt_dec (1 + 0) (0 + 0)) as [H|_]; [lra|]. simpl.
  now rewrite true_divide_zero_zero.
Qed.

(** ** The running reference of the least-squares alignment *)

Section reference_claims.

Import circularize.
Local Open Scope R_scope.

Variable UnivariateSpline : list float64 -> list float64 -> R -> result (R -> R).
Variable leastsq : (R * R -> result (list R)) -> R * R -> result (R * R).

Local Abbreviation residual := (circularize.residual UnivariateSpline).
Local Abbreviation lsq_step := (circularize.lsq_step UnivariateSpline leastsq).


End reference_claims.



(** ** Remapping with the constant correction 1 *)

Section remap_claims.

Import circularize.
Local Open Scope R_scope.

Lemma replicate_as_map {A : Type} (x : A) (n : nat) :
  forall s, replicate n x = map (fun _ => x) (seq s n).
Proof. induction n as [|n IH]; intros s; simpl; [reflexivity | now rewrite (IH (S s))]. Qed.

Lemma zip_with_same_map {A B C D : Type} (f : B -> C -> D) (g : A -> B) (h : A -> C)
      (l : list A) :
  zip_with f (map g l) (map h l) = map (fun x => f (g x) (h x)) l.
Proof. induction l as [|x l IH]; simpl; [reflexivity | now rewrite IH]. Qed.

Lemma indices_grid (rows cols : nat) :
  indices rows cols
  = (grid rows cols (fun r _ => Z.of_nat r), grid rows cols (fun _ c => Z.of_nat c)).
Proof.
  unfold indices, grid, arange. f_equal.
  - rewrite List.map_map. apply map_ext. intros r. apply replicate_as_map.
  - rewrite (replicate_as_map _ rows 0). apply map_ext. intros _.
    reflexivity.
Qed.

Lemma map2d_grid {A B : Type} (g : A -> B) (rows cols : nat) (f : nat -> nat -> A) :
  map2d g (grid rows cols f) = grid rows cols (fun r c => g (f r c)).
Proof.
  unfold map2d, grid. rewrite List.map_map. apply map_ext. intros r.
  now rewrite List.map_map.
Qed.

Lemma zip2d_grid {A B C : Type} (h : A -> B -> C) (rows cols : nat)
      (f : nat -> nat -> A) (g : nat -> nat -> B) :
  zip2d h (grid rows cols f) (grid rows cols g)
  = grid rows cols (fun r c => h (f r c) (g r c)).
Proof.
  unfold zip2d, grid. rewrite zip_with_same_map. apply map_ext. intros r.
  apply zip_with_same_map.
Qed.

Lemma grid_ext {A : Type} (rows cols : nat) (f g : nat -> nat -> A) :
  (forall r c, f r c = g r c) -> grid rows cols f = grid rows cols g.
Proof.
  intros H. unfold grid. apply map_ext. intros r. apply map_ext. intros c. apply H.
Qed.

Lemma grid_cell (rows cols : nat) (f : nat -> nat -> R) (r c : nat) :
  (r < rows)%nat -> (c < cols)%nat -> cell (grid rows cols f) r c = Some (f r c).
Proof.
  intros Hr Hc. unfold cell, grid.
  rewrite list_lookup_fmap.
  rewrite (proj2 (lookup_seq 0 rows r r)) by (split; [reflexivity | assumption]).
  simpl. rewrite list_lookup_fmap.
  rewrite (proj2 (lookup_seq 0 cols c c)) by (split; [reflexivity | assumption]).
  reflexivity.
Qed.

Lemma own_coordinates_grid (rows cols : nat) :
  own_coordinates rows cols
  = (grid rows cols (fun r _ => IZR (Z.of_nat r)),
     grid rows cols (fun _ c => IZR (Z.of_nat c))).
Proof.
  unfold own_coordinates. rewrite indices_grid. simpl. now rewrite !map2d_grid.
Qed.

Lemma source_coordinates_one (rows cols : nat) (radcorrspl : R -> R) :
  (forall theta, radcorrspl theta = 1) ->
  source_coordinates rows cols radcorrspl = own_coordinates rows cols.
Proof.
  intros H1. unfold source_coordinates. rewrite own_coordinates_grid, indices_grid.
  rewrite !map2d_grid, !zip2d_grid, !map2d_grid.
  f_equal; apply grid_ext; intros r c; rewrite H1, Rdiv_1_r, minus_IZR; ring.
Qed.

Variable map_coordinates : array2 -> list (list R) * list (list R) -> result array2.

Local Abbreviation circularize := (circularize.circularize map_coordinates).

(** C8. For every image and every correction function that is 1 at every
    angle, [circularize] samples the image at each output pixel's own row
    and column; so wherever the interpolation returns the image when it
    is sampled at its own pixels, the remapped image is the image. *)
Theorem circularize_identity_correction (IM : array2) (radcorrspl : R -> R) :
  (forall theta, radcorrspl theta = 1) ->
  source_coordinates (shape0 IM) (shape1 IM) radcorrspl
  = own_coordinates (shape0 IM) (shape1 IM) /\
  (forall r c : nat, (r < shape0 IM)%nat -> (c < shape1 IM)%nat ->
     cell (fst (source_coordinates (shape0 IM) (shape1 IM) radcorrspl)) r c
     = Some (INR r) /\
     cell (snd (source_coordinates (shape0 IM) (shape1 IM) radcorrspl)) r c
     = Some (INR c)) /\
  circularize IM radcorrspl
  = call Remap (map_coordinates IM (own_coordinates (shape0 IM) (shape1 IM))) /\
  (map_coordinates IM (own_coordinates (shape0 IM) (shape1 IM)) = Ok IM ->
   outcome (circularize IM radcorrspl) = Ok IM).
Proof.
  intros H1. pose proof (source_coordinates_one (shape0 IM) (shape1 IM) _ H1) as E.
  split; [exact E|]. split; [|split].
  - intros r c Hr Hc. rewrite E, own_coordinates_grid. simpl.
    rewrite !grid_cell by assumption. now rewrite !INR_IZR_INZ.
  - unfold circularize.circularize. now rewrite E.
  - intros Hmc. unfold circularize.circularize. now rewrite E, Hmc.
Qed.

End remap_claims.

Lemma circularize_identity_correction_witness :
  circularize.source_coordinates 2 3 (fun _ => 1%R) = own_coordinates 2 3.
Proof.
  apply (proj1 (circularize_identity_correction
                  (fun IM _ => Ok IM) (Array2 2 3 [[1; 2; 3]; [4; 5; 6]]%R)
                  (fun _ => 1%R) (fun _ => eq_refl))).
Defined.

(** * Further properties *)

(** ** The operator as a grid, and the transform of a profile *)

Section transform_values.

Import two_point circularize.
Local Open Scope R_scope.

Lemma grid_lookup {A : Type} (rows cols : nat) (f : nat -> nat -> A) (r : nat) :
  (r < rows)%nat ->
  grid rows cols f !! r = Some (map (fun c => f r c) (seq 0 cols)).
Proof.
  intros Hr. unfold grid. rewrite list_lookup_fmap.
  now rewrite (proj2 (lookup_seq 0 rows r r)) by (split; [reflexivity | assumption]).
Qed.

Lemma grid_length {A : Type} (rows cols : nat) (f : nat -> nat -> A) :
  length (grid rows cols f) = rows.
Proof. unfold grid. now rewrite length_map, length_seq. Qed.

Lemma row_as_map (n : nat) (row : list R) (g : nat -> R) :
  length row = n -> (forall j, (j < n)%nat -> row !! j = Some (g j)) ->
  row = map g (seq 0 n).
Proof.
  intros Hlen H. apply list_eq. intros j. rewrite list_lookup_fmap.
  destruct (le_lt_dec n j) as [Hj|Hj].
  - rewrite (proj2 (lookup_ge_None row j)) by lia.
    now rewrite (proj2 (lookup_ge_None (seq 0 n) j)) by (rewrite length_seq; lia).
  - rewrite (H j Hj).
    now rewrite (proj2 (lookup_seq 0 n j j)) by (split; [reflexivity | assumption]).
Qed.

(** A square matrix is determined by its cells. *)
Lemma square_cells_grid (n : nat) (D : list (list R)) (f : nat -> nat -> R) :
  square n D ->
  (forall i j, (i < n)%nat -> (j < n)%nat -> cell D i j = Some (f i j)) ->
  D = grid n n f.
Proof.
  intros HD Hcell. apply list_eq. intros i.
  destruct (le_lt_dec n i) as [Hi|Hi].
  - destruct HD as [Hlen _].
    rewrite (proj2 (lookup_ge_None D i)) by lia.
    now rewrite (proj2 (lookup_ge_None (grid n n f) i)) by (rewrite grid_length; lia).
  - destruct (square_row n D i HD Hi) as (row & E & Hlen).
    rewrite E, grid_lookup by assumption. f_equal.
    apply row_as_map; [assumption|]. intros j Hj.
    specialize (Hcell i j Hi Hj). unfold cell in Hcell. now rewrite E in Hcell.
Qed.

(** The operator for two columns or more, written out. *)
Lemma D_operator_grid (cols : nat) :
  (2 <= cols)%nat -> D_operator cols = Ok (grid cols cols D_entry).
Proof.
  intros Hc. destruct (D_operator_spec cols Hc) as (D & -> & HD & Hcell).
  f_equal. now apply square_cells_grid.
Qed.

(** The transform of a profile of two samples or more: one inner product
    with each row of the operator, divided by [dr]. *)
Lemma two_point_profile (u : list R) (dr : R) :
  (2 <= length u)%nat ->
  two_point_transform (A1 u) dr "inverse"
  = ([Promote; Operator; Tensordot; Elementwise],
     Ok (A1 (map (fun i => dot u (map (D_entry i) (seq 0 (length u))) / dr)
                 (seq 0 (length u))))).
Proof.
  intros Hu. rewrite two_point_transform_inverse. simpl.
  rewrite D_operator_grid by assumption. do 3 f_equal.
  unfold div1, grid. now rewrite !List.map_map.
Qed.

Lemma two_point_image (a : array2) (dr : R) :
  shape0 a <> 1%nat -> (2 <= shape1 a)%nat ->
  two_point_transform (A2 a) dr "inverse"
  = ([Promote; Operator; Tensordot; Elementwise],
     Ok (A2 (Array2 (shape0 a) (shape1 a)
               (map (fun row =>
                       map (fun i => dot row (map (D_entry i) (seq 0 (shape1 a))) / dr)
                           (seq 0 (shape1 a)))
                    (data a))))).
Proof.
  intros H1 Hc. rewrite two_point_transform_inverse. simpl.
  rewrite D_operator_grid by assumption.
  rewrite flatten_single_row_many by (simpl; assumption).
  do 3 f_equal. unfold div2, tensordot. simpl. rewrite grid_length. f_equal.
  rewrite List.map_map. apply map_ext. intros row.
  unfold div1, grid. now rewrite !List.map_map.
Qed.

Lemma dot_cons (x y : R) (a b : list R) : dot (x :: a) (y :: b) = x * y + dot a b.
Proof. reflexivity. Qed.

Lemma dot_add (r : list R) :
  forall u v, length u = length v ->
    dot (zip_with Rplus u v) r = dot u r + dot v r.
Proof.
  induction r as [|y r IH]; intros [|x u] [|x' v] Hlen; simpl in Hlen;
    try discriminate; unfold dot; simpl; try lra.
  fold (dot (zip_with Rplus u v) r). fold (dot u r). fold (dot v r).
  rewrite IH by lia. ring.
Qed.

Lemma dot_scale (c : R) (r : list R) :
  forall u, dot (map (Rmult c) u) r = c * dot u r.
Proof.
  induction r as [|y r IH]; intros [|x u]; unfold dot; simpl; try lra.
  fold (dot (map (Rmult c) u) r). fold (dot u r). rewrite IH. ring.
Qed.

Lemma dot_replicate (c : R) (r : list R) :
  dot (replicate (length r) c) r = c * sum1 r.
Proof.
  induction r as [|y r IH]; unfold dot; simpl; [lra|].
  fold (dot (replicate (length r) c) r). fold (sum1 r). rewrite IH. ring.
Qed.

(** Two profiles that agree wherever the row is not zero have the same
    inner product with it. *)
Lemma dot_agree (f : nat -> R) (n : nat) :
  forall (s : nat) (u v : list R),
    length u = length v ->
    (forall k, f (s + k)%nat <> 0 -> u !! k = v !! k) ->
    dot u (map f (seq s n)) = dot v (map f (seq s n)).
Proof.
  induction n as [|n IH]; intros s u v Hlen H.
  - unfold dot. simpl. now rewrite !zip_with_nil_r.
  - destruct u as [|x u], v as [|y v]; simpl in Hlen; try discriminate;
      [reflexivity|].
    simpl. rewrite !dot_cons.
    rewrite (IH (S s) u v) by
      (try lia; intros k Hk; apply (H (S k)); now rewrite Nat.add_succ_r).
    f_equal. destruct (Req_dec_T (f s) 0) as [E|E]; [rewrite E; ring|].
    specialize (H 0%nat). rewrite Nat.add_0_r in H. specialize (H E).
    simpl in H. now injection H as ->.
Qed.

Lemma sum1_snoc (l : list R) (x : R) : sum1 (l ++ [x]) = sum1 l + x.
Proof.
  induction l as [|y l IH]; unfold sum1; simpl; [lra|].
  fold (sum1 (l ++ [x])). fold (sum1 l). rewrite IH. ring.
Qed.

Lemma sum1_seq_S (f : nat -> R) (k : nat) :
  sum1 (map f (seq 0 (S k))) = sum1 (map f (seq 0 k)) + f k.
Proof.
  rewrite seq_S, map_app. change (map f [(0 + k)%nat]) with [f k].
  apply sum1_snoc.
Qed.

(** The cells of a row of the operator telescope: up to column [m] they
    add up to [J(i, m)]. *)
Lemma row_partial_sum (i m : nat) :
  (i <= m)%nat -> (1 <= m)%nat ->
  sum1 (map (D_entry i) (seq 0 (S m))) = J (Z.of_nat i) (Z.of_nat m).
Proof.
  intros Him Hm.
  assert (Hzero : forall k, (k <= i)%nat -> (1 <= i)%nat ->
                            sum1 (map (D_entry i) (seq 0 k)) = 0).
  { induction k as [|k IHk]; intros Hk Hi; [reflexivity|].
    rewrite sum1_seq_S, IHk by lia. rewrite D_entry_lower by lia. ring. }
  induction m as [|m IHm]; [lia|].
  rewrite sum1_seq_S.
  destruct (Nat.eq_dec i (S m)) as [->|Hne].
  - rewrite Hzero by lia. rewrite D_entry_generic by lia.
    rewrite Nat.eqb_refl. ring.
  - destruct m as [|m].
    + assert (i = 0%nat) as -> by lia. unfold sum1. simpl.
      change (Z.of_nat 0) with 0%Z. change (Z.of_nat 1) with 1%Z.
      unfold Rdiv. ring.
    + rewrite IHm by lia. rewrite D_entry_generic by lia.
      destruct (Nat.eqb_spec i (S (S m))); [lia|].
      destruct (Nat.ltb_spec i (S (S m))); [|lia].
      replace (Z.of_nat (S (S m)) - 1)%Z with (Z.of_nat (S m)) by lia. ring.
Qed.

Lemma J_diagonal_positive (i : Z) : (1 <= i)%Z -> 0 < J i i.
Proof.
  intros Hi. unfold J.
  assert (Hi1 : 1 <= IZR i) by (apply IZR_le; exact Hi).
  replace (i ^ 2 - i ^ 2)%Z with 0%Z by lia. rewrite sqrt_0.
  pose proof (sqrt_pos (IZR ((i + 1) ^ 2 - i ^ 2))) as Hs.
  pose proof PI_RGT_0 as Hpi.
  apply Rdiv_lt_0_compat; [|lra].
  set (x := (sqrt (IZR ((i + 1) ^ 2 - i ^ 2)) + IZR i + 1) / (0 + IZR i)).
  assert (Hx : 1 < x).
  { unfold x. apply (Rmult_lt_reg_r (0 + IZR i)); [lra|].
    unfold Rdiv. rewrite Rmult_assoc, Rinv_l by lra. lra. }
  pose proof (ln_increasing 1 x Rlt_0_1 Hx) as H. now rewrite ln_1 in H.
Qed.

End transform_values.

(** ** Further properties of the two-point transform *)

Section two_point_further.

Import two_point circularize.
Local Open Scope R_scope.

(** X1. The transform returns an array exactly when the promoted input
    has at least two columns: then it promotes, builds the operator,
    contracts and divides, in that order; with fewer than two columns (a
    profile of one sample, an empty profile, a one-column image) the
    store [D[0, 1]] of line 78 raises [IndexError] while the operator is
    built, whatever [dr] is. *)
Theorem two_point_transform_needs_two_columns (IM : ndarray) (dr : R) :
  ((2 <= shape1 (atleast_2d IM))%nat ->
   exists out,
     two_point_transform IM dr "inverse"
     = ([Promote; Operator; Tensordot; Elementwise], Ok out)) /\
  ((shape1 (atleast_2d IM) < 2)%nat ->
   two_point_transform IM dr "inverse"
   = ([Promote; Operator], Raise index_out_of_bounds)).
Proof.
  rewrite two_point_transform_inverse. split; intros Hc.
  - rewrite D_operator_grid by assumption. eauto.
  - now rewrite D_operator_small.
Qed.

Lemma two_point_transform_needs_two_columns_witness :
  two_point_transform (A1 [7]) 1 "inverse"
  = ([Promote; Operator], Raise index_out_of_bounds).
Proof.
  apply (proj2 (two_point_transform_needs_two_columns (A1 [7]) 1)). simpl. lia.
Defined.

(** X2. The transform of a profile is causal: sample [i] of the result
    depends only on the samples of the profile from [i] outward. Two
    profiles of one length (two samples or more) that agree from index
    [i] on have transforms that agree at index [i], for a spacing [dr]
    that is not zero. *)
Theorem two_point_transform_causal (u v : list R) (dr : R) (i : nat) :
  dr <> 0 -> length u = length v -> (2 <= length u)%nat ->
  (forall j, (i <= j)%nat -> u !! j = v !! j) ->
  exists tu tv,
    outcome (two_point_transform (A1 u) dr "inverse") = Ok (A1 tu) /\
    outcome (two_point_transform (A1 v) dr "inverse") = Ok (A1 tv) /\
    tu !! i = tv !! i.
Proof.
  intros _ Hlen Hu Hagree.
  rewrite (two_point_profile u dr Hu), (two_point_profile v dr) by lia.
  eexists _, _. split; [reflexivity|]. split; [reflexivity|].
  rewrite <- Hlen, !list_lookup_fmap.
  destruct (seq 0 (length u) !! i) as [k|] eqn:Ek; [|reflexivity].
  apply lookup_seq in Ek as [-> _]. simpl. do 2 f_equal.
  apply dot_agree; [assumption|].
  intros k Hk. apply Hagree.
  destruct (le_lt_dec i k) as [H|H]; [exact H|].
  exfalso. apply Hk. simpl. now apply D_entry_lower.
Qed.

Lemma two_point_transform_causal_witness :
  exists tu tv,
    outcome (two_point_transform (A1 [1; 2; 3]) 1 "inverse") = Ok (A1 tu) /\
    outcome (two_point_transform (A1 [5; 2; 3]) 1 "inverse") = Ok (A1 tv) /\
    tu !! 1%nat = tv !! 1%nat.
Proof.
  apply (two_point_transform_causal [1; 2; 3] [5; 2; 3] 1 1).
  - lra.
  - reflexivity.
  - simpl. lia.
  - intros [|j] Hj; [lia | reflexivity].
Defined.

(** X3. The transform of profiles is linear: for two profiles of one
    length (two samples or more) and a spacing [dr] that is not zero, the
    transform of their sum is the sum of their transforms, and the
    transform of a multiple is the multiple of the transform. *)
Theorem two_point_transform_linear (u v : list R) (c dr : R) :
  dr <> 0 -> length u = length v -> (2 <= length u)%nat ->
  exists tu tv,
    outcome (two_point_transform (A1 u) dr "inverse") = Ok (A1 tu) /\
    outcome (two_point_transform (A1 v) dr "inverse") = Ok (A1 tv) /\
    outcome (two_point_transform (A1 (zip_with Rplus u v)) dr "inverse")
    = Ok (A1 (zip_with Rplus tu tv)) /\
    outcome (two_point_transform (A1 (map (Rmult c) u)) dr "inverse")
    = Ok (A1 (map (Rmult c) tu)).
Proof.
  intros _ Hlen Hu.
  assert (Hsum : length (zip_with Rplus u v) = length u)
    by (rewrite length_zip_with; lia).
  assert (Hmul : length (map (Rmult c) u) = length u) by apply length_map.
  rewrite (two_point_profile u dr Hu), (two_point_profile v dr) by lia.
  rewrite (two_point_profile (zip_with Rplus u v) dr) by lia.
  rewrite (two_point_profile (map (Rmult c) u) dr) by lia.
  rewrite Hsum, Hmul, <- Hlen.
  eexists _, _. split; [reflexivity|]. split; [reflexivity|]. simpl. split.
  - rewrite zip_with_same_map. do 2 f_equal. apply map_ext. intros i.
    rewrite dot_add by assumption. unfold Rdiv. ring.
  - rewrite List.map_map. do 2 f_equal. apply map_ext. intros i.
    rewrite dot_scale. unfold Rdiv. ring.
Qed.

Lemma two_point_transform_linear_witness :
  exists tu tv,
    outcome (two_point_transform (A1 [1; 2]) 1 "inverse") = Ok (A1 tu) /\
    outcome (two_point_transform (A1 [3; 4]) 1 "inverse") = Ok (A1 tv) /\
    outcome (two_point_transform (A1 (zip_with Rplus [1; 2] [3; 4])) 1 "inverse")
    = Ok (A1 (zip_with Rplus tu tv)) /\
    outcome (two_point_transform (A1 (map (Rmult 2) [1; 2])) 1 "inverse")
    = Ok (A1 (map (Rmult 2) tu)).
Proof.
  apply (two_point_transform_linear [1; 2] [3; 4] 2 1).
  - lra.
  - reflexivity.
  - simpl. lia.
Defined.

(** X4. In exact real arithmetic the rows of an image are transformed
    independently (float64 rounding of the 2D and of the 1D contraction
    is not modelled): for a well-formed image with two columns or more and a row count other than
    one, and a spacing [dr] that is not zero, the result has the shape of
    the image and each of its rows is the transform of the matching row of
    the image taken as a profile. *)
Theorem two_point_transform_rowwise (a : array2) (dr : R) :
  dr <> 0 -> wf2 a -> shape0 a <> 1%nat -> (2 <= shape1 a)%nat ->
  exists b,
    outcome (two_point_transform (A2 a) dr "inverse") = Ok (A2 b) /\
    shape0 b = shape0 a /\ shape1 b = shape1 a /\
    Forall2 (fun row orow =>
               outcome (two_point_transform (A1 row) dr "inverse") = Ok (A1 orow))
            (data a) (data b).
Proof.
  intros _ [_ Hrows] H1 Hc. rewrite (two_point_image a dr H1 Hc).
  eexists. split; [reflexivity|]. simpl. split; [reflexivity|].
  split; [reflexivity|].
  induction Hrows as [|row rows Hrow Hrows IH]; simpl; constructor; [|exact IH].
  rewrite two_point_profile by lia. now rewrite Hrow.
Qed.

Lemma two_point_transform_rowwise_witness :
  exists b,
    outcome (two_point_transform (A2 (Array2 2 2 [[1; 2]; [3; 4]])) 1 "inverse")
    = Ok (A2 b) /\
    shape0 b = 2%nat /\ shape1 b = 2%nat /\
    Forall2 (fun row orow =>
               outcome (two_point_transform (A1 row) 1 "inverse") = Ok (A1 orow))
            [[1; 2]; [3; 4]] (data b).
Proof.
  apply (two_point_transform_rowwise (Array2 2 2 [[1; 2]; [3; 4]]) 1).
  - lra.
  - split; [reflexivity | repeat constructor].
  - simpl. lia.
  - simpl. lia.
Defined.

(** X5. For two columns or more, every diagonal cell of the operator is
    strictly positive: [D[0,0] = 2/pi], and [D[i,i] = J(i,i)] is the
    logarithm of a quotient larger than one. With the zeros below the
    diagonal, the operator is triangular with a non-zero diagonal. *)
Theorem D_operator_diagonal_positive (cols : nat) :
  (2 <= cols)%nat ->
  exists D, D_operator cols = Ok D /\
    forall i : nat, (i < cols)%nat ->
      exists d, getitem2 D (Z.of_nat i) (Z.of_nat i) = Ok d /\ 0 < d.
Proof.
  intros Hc. destruct (D_operator_spec cols Hc) as (D & E & HD & Hcell).
  exists D. split; [exact E|]. intros i Hi. exists (D_entry i i). split.
  - apply getitem2_cell with (n := cols); auto.
  - destruct i as [|i].
    + simpl. pose proof PI_RGT_0. apply Rdiv_lt_0_compat; lra.
    + rewrite D_entry_generic by lia. rewrite Nat.eqb_refl.
      apply J_diagonal_positive. lia.
Qed.

Lemma D_operator_diagonal_positive_witness :
  exists D, D_operator 4 = Ok D /\
    forall i : nat, (i < 4)%nat ->
      exists d, getitem2 D (Z.of_nat i) (Z.of_nat i) = Ok d /\ 0 < d.
Proof. apply (D_operator_diagonal_positive 4). lia. Defined.

(** X6. Each row of the operator telescopes, so a flat profile of height
    [c] with [N >= 2] samples is transformed, for a spacing [dr] that is
    not zero, to [c * J(i, N-1) / dr] at every index [i], in exact real
    arithmetic. *)
Theorem two_point_transform_flat_profile (N : nat) (c dr : R) :
  dr <> 0 -> (2 <= N)%nat ->
  exists t,
    outcome (two_point_transform (A1 (replicate N c)) dr "inverse") = Ok (A1 t) /\
    length t = N /\
    forall i : nat, (i < N)%nat ->
      t !! i = Some (c * J (Z.of_nat i) (Z.of_nat N - 1) / dr).
Proof.
  intros _ HN.
  rewrite two_point_profile by (rewrite length_replicate; exact HN).
  rewrite length_replicate.
  eexists. split; [reflexivity|]. split; [now rewrite length_map, length_seq|].
  intros i Hi. rewrite list_lookup_fmap.
  rewrite (proj2 (lookup_seq 0 N i i)) by (split; [reflexivity | assumption]).
  simpl. do 2 f_equal.
  replace N with (length (map (D_entry i) (seq 0 N))) at 1
    by (now rewrite length_map, length_seq).
  rewrite dot_replicate. f_equal.
  destruct N as [|N]; [lia|]. rewrite row_partial_sum by lia.
  f_equal. lia.
Qed.

Lemma two_point_transform_flat_profile_witness :
  exists t,
    outcome (two_point_transform (A1 (replicate 3 5)) 1 "inverse") = Ok (A1 t) /\
    length t = 3%nat /\
    forall i : nat, (i < 3)%nat ->
      t !! i = Some (5 * J (Z.of_nat i) (Z.of_nat 3 - 1) / 1).
Proof. apply (two_point_transform_flat_profile 3 5 1); [lra | lia]. Defined.

End two_point_further.

(** ** Further facts about [correction] *)

Section correction_further_facts.

Import circularize.
Local Open Scope R_scope.

Lemma argmax_loop_cons (ang : float64) (slice_angles : list float64)
      (aslice : array2) (slices : list array2) :
  argmax_loop (ang :: slice_angles) (aslice :: slices)
  = and_then (call ProfileSum (Ok (sum_axis1 aslice))) (fun profile =>
    and_then (call Argmax (argmax profile)) (fun pk =>
    and_then (argmax_loop slice_angles slices) (fun pkpos =>
    ret (pk :: pkpos)))).
Proof. reflexivity. Qed.

Lemma argmax_loop_length (slices : list array2) :
  forall (slice_angles : list float64) (t : list work) (pkpos : list nat),
    argmax_loop slice_angles slices = (t, Ok pkpos) ->
    length pkpos = Nat.min (length slice_angles) (length slices).
Proof.
  induction slices as [|aslice slices IH]; intros slice_angles t pkpos H.
  - destruct slice_angles; apply ret_ok_inv in H as [_ <-]; simpl; lia.
  - destruct slice_angles as [|ang slice_angles].
    + apply ret_ok_inv in H as [_ <-]. reflexivity.
    + rewrite argmax_loop_cons in H.
      apply and_then_ok_inv in H as (t1 & profile & t1' & _ & H & _).
      apply and_then_ok_inv in H as (t2 & pk & t2' & _ & H & _).
      apply and_then_ok_inv in H as (t3 & rest & t3' & H3 & H & _).
      apply ret_ok_inv in H as [_ <-]. apply IH in H3. simpl. lia.
Qed.

Lemma take_length (a : list R) (idx : list nat) :
  forall xs, take a idx = Ok xs -> length xs = length idx.
Proof.
  induction idx as [|i idx IH]; intros xs; simpl.
  - now intros [= <-].
  - destruct (take1 a i) as [x|e]; simpl; [|discriminate].
    destruct (take a idx) as [xs'|e]; simpl; [|discriminate].
    intros [= <-]. simpl. now rewrite (IH xs').
Qed.

Variable UnivariateSpline : list float64 -> list float64 -> R -> result (R -> R).
Variable leastsq : (R * R -> result (list R)) -> R * R -> result (R * R).

Local Abbreviation lsq_loop := (circularize.lsq_loop UnivariateSpline leastsq).
Local Abbreviation correction := (circularize.correction UnivariateSpline leastsq).

Lemma correction_argmax_unfold (slice_angles : list float64) (slices : list array2)
      (radial : list R) :
  correction slice_angles slices radial "argmax"
  = and_then (argmax_loop slice_angles slices) (fun pkpos =>
      match pkpos with
      | [] => raise (IndexError "list index out of range")
      | pk0 :: _ =>
          and_then (call Take (take1 radial pk0)) (fun r0 =>
          and_then (call Take (take radial pkpos)) (fun rs =>
          call Elementwise (Ok (map (true_divide r0) rs))))
      end).
Proof. reflexivity. Qed.

Lemma correction_lsq_unfold (slice_angles : list float64) (slices : list array2)
      (radial : list R) :
  correction slice_angles slices radial "lsq"
  = match slices with
    | [] => raise (IndexError "list index out of range")
    | slice0 :: _ =>
        and_then (call ProfileSum (Ok (sum_axis1 slice0))) (fun profile0 =>
        and_then (lsq_loop radial (LsqState [Finite 1] profile0 (1, 1))
                           (drop1 slice_angles) (drop1 slices)) (fun st =>
        ret (sf st)))
    end.
Proof. reflexivity. Qed.

Lemma correction_argmax_length (slice_angles : list float64) (slices : list array2)
      (radial : list R) (sf : list float64) :
  outcome (correction slice_angles slices radial "argmax") = Ok sf ->
  length sf = Nat.min (length slice_angles) (length slices) /\ (1 <= length sf)%nat.
Proof.
  rewrite correction_argmax_unfold.
  destruct (argmax_loop slice_angles slices) as [t [pkpos|e]] eqn:E; [|discriminate].
  rewrite outcome_and_then_ok. apply argmax_loop_length in E.
  destruct pkpos as [|pk0 pkpos]; [discriminate|].
  destruct (take1 radial pk0) as [r0|e]; [|discriminate].
  unfold call at 1. rewrite outcome_and_then_ok.
  destruct (take radial (pk0 :: pkpos)) as [rs|e] eqn:Ers; [|discriminate].
  unfold call at 1. rewrite outcome_and_then_ok. simpl.
  intros [= <-]. rewrite length_map, (take_length _ _ _ Ers), E. simpl in E. lia.
Qed.

Lemma lsq_loop_length (radial : list R) (slices : list array2) :
  forall (slice_angles : list float64) (st st' : lsq_state) (t : list work),
    lsq_loop radial st slice_angles slices = (t, Ok st') ->
    length (sf st')
    = (length (sf st) + Nat.min (length slice_angles) (length slices))%nat.
Proof.
  induction slices as [|aslice slices IH]; intros slice_angles st st' t H.
  - destruct slice_angles; apply ret_ok_inv in H as [_ <-]; simpl; lia.
  - destruct slice_angles as [|ang slice_angles].
    + apply ret_ok_inv in H as [_ <-]. simpl. lia.
    + simpl in H. apply and_then_ok_inv in H as (t1 & st1 & t2 & H1 & H2 & _).
      apply lsq_step_sf in H1 as (x & E1). apply IH in H2.
      rewrite H2, E1, length_app. simpl. lia.
Qed.

Lemma correction_lsq_length (slice_angles : list float64) (slices : list array2)
      (radial : list R) (sf : list float64) :
  outcome (correction slice_angles slices radial "lsq") = Ok sf ->
  length sf = S (Nat.min (length slice_angles - 1) (length slices - 1)) /\
  slices <> [].
Proof.
  rewrite correction_lsq_unfold. destruct slices as [|slice0 slices]; [discriminate|].
  unfold call at 1. rewrite outcome_and_then_ok.
  destruct (lsq_loop radial (LsqState [Finite 1] (sum_axis1 slice0) (1, 1))
                     (drop1 slice_angles) (drop1 (slice0 :: slices)))
    as [t [st|e]] eqn:E; [|discriminate].
  rewrite outcome_and_then_ok. simpl. intros [= <-].
  apply lsq_loop_length in E. rewrite E. simpl. split; [|discriminate].
  destruct slice_angles; simpl; lia.
Qed.

(** The loops look at how many slice angles there are, not at their
    values. *)
Lemma argmax_loop_angles (slices : list array2) :
  forall a1 a2 : list float64, length a1 = length a2 ->
    argmax_loop a1 slices = argmax_loop a2 slices.
Proof.
  induction slices as [|aslice slices IH]; intros [|x a1] [|y a2] Hlen;
    simpl in Hlen; try discriminate; try reflexivity.
  simpl. now rewrite (IH a1 a2) by lia.
Qed.

Lemma lsq_loop_angles (radial : list R) (slices : list array2) :
  forall (st : lsq_state) (a1 a2 : list float64), length a1 = length a2 ->
    lsq_loop radial st a1 slices = lsq_loop radial st a2 slices.
Proof.
  induction slices as [|aslice slices IH]; intros st [|x a1] [|y a2] Hlen;
    simpl in Hlen; try discriminate; try reflexivity.
  simpl. apply and_then_ext. intros st'. apply IH. lia.
Qed.

End correction_further_facts.

(** ** What a run uses *)

Section uses_facts.

Lemma uses_ret {A : Type} (P : work -> Prop) (a : A) : uses P (ret a).
Proof. constructor. Qed.

Lemma uses_raise {A : Type} (P : work -> Prop) (e : exn) : uses P (@raise A e).
Proof. constructor. Qed.

Lemma uses_call {A : Type} (P : work -> Prop) (w : work) (r : result A) :
  P w -> uses P (call w r).
Proof. intros H. repeat constructor. exact H. Qed.

Lemma uses_and_then {A B : Type} (P : work -> Prop) (m : M A) (k : A -> M B) :
  uses P m -> (forall a, uses P (k a)) -> uses P (and_then m k).
Proof.
  unfold uses. destruct m as [t [a|e]]; simpl; intros Hm Hk; [|exact Hm].
  specialize (Hk a). destruct (k a) as [t' r]. simpl in *.
  apply Forall_app. now split.
Qed.

Lemma uses_weaken {A : Type} (P Q : work -> Prop) (m : M A) :
  (forall w, P w -> Q w) -> uses P m -> uses Q m.
Proof.
  intros H Hm. unfold uses in *. induction Hm; constructor; auto.
Qed.

End uses_facts.

(** ** Peak tracking: equal profiles and scaled intensities *)

Section peak_tracking_further.

Import circularize.
Local Open Scope R_scope.

Lemma sum1_scale (k : R) (v : list R) : sum1 (map (Rmult k) v) = k * sum1 v.
Proof.
  induction v as [|x v IH]; unfold sum1; simpl; [ring|].
  fold (sum1 (map (Rmult k) v)). fold (sum1 v). rewrite IH. ring.
Qed.

Lemma sum_axis1_scale (k : R) (a : array2) :
  sum_axis1 (scale_image k a) = map (Rmult k) (sum_axis1 a).
Proof.
  unfold sum_axis1, scale_image. simpl. rewrite !List.map_map.
  apply map_ext. intros row. apply sum1_scale.
Qed.

Lemma argmax_from_scale (k : R) (v : list R) :
  0 < k -> forall best_i best i,
    argmax_from best_i (k * best) i (map (Rmult k) v) = argmax_from best_i best i v.
Proof.
  intros Hk. induction v as [|x v IH]; intros best_i best i; simpl; [reflexivity|].
  destruct (Rlt_dec (k * best) (k * x)) as [H|H], (Rlt_dec best x) as [H'|H'].
  - apply IH.
  - exfalso. apply H'. now apply Rmult_lt_reg_l in H.
  - exfalso. apply H. now apply Rmult_lt_compat_l.
  - apply IH.
Qed.

Lemma argmax_scale (k : R) (v : list R) :
  0 < k -> argmax (map (Rmult k) v) = argmax v.
Proof.
  intros Hk. destruct v as [|x v]; simpl; [reflexivity|].
  now rewrite argmax_from_scale.
Qed.

Lemma argmax_loop_scale (k : R) (slices : list array2) :
  0 < k -> forall slice_angles,
    argmax_loop slice_angles (map (scale_image k) slices)
    = argmax_loop slice_angles slices.
Proof.
  intros Hk. induction slices as [|aslice slices IH]; intros [|ang slice_angles];
    try reflexivity.
  simpl map. rewrite !argmax_loop_cons.
  rewrite sum_axis1_scale. unfold call at 1 3. simpl.
  rewrite argmax_scale by assumption.
  destruct (argmax (sum_axis1 aslice)) as [pk|e]; [|reflexivity].
  simpl. now rewrite IH.
Qed.

(** Slices with one common profile all peak at the same index. *)
Lemma argmax_loop_same (profile : list R) (p : nat) (slices : list array2) :
  argmax profile = Ok p ->
  Forall (fun s => sum_axis1 s = profile) slices ->
  forall slice_angles, exists t,
    argmax_loop slice_angles slices
    = (t, Ok (replicate (Nat.min (length slice_angles) (length slices)) p)).
Proof.
  intros Ep Hall. induction Hall as [|aslice slices Hs Hall IH];
    intros [|ang slice_angles]; try (exists []; reflexivity).
  destruct (IH slice_angles) as (t & E).
  rewrite argmax_loop_cons, Hs. unfold call. simpl. rewrite Ep. simpl.
  rewrite E. simpl. eauto.
Qed.

Lemma take_replicate (radial : list R) (p : nat) (r0 : R) (n : nat) :
  radial !! p = Some r0 -> take radial (replicate n p) = Ok (replicate n r0).
Proof.
  intros E. induction n as [|n IH]; simpl; [reflexivity|].
  unfold take1. rewrite E. simpl. now rewrite IH.
Qed.

End peak_tracking_further.

(** ** Further properties of [correction] *)

Section correction_further.

Import circularize.
Local Open Scope R_scope.

Variable UnivariateSpline : list float64 -> list float64 -> R -> result (R -> R).
Variable leastsq : (R * R -> result (list R)) -> R * R -> result (R * R).

Local Abbreviation lsq_step := (circularize.lsq_step UnivariateSpline leastsq).
Local Abbreviation lsq_loop := (circularize.lsq_loop UnivariateSpline leastsq).
Local Abbreviation correction := (circularize.correction UnivariateSpline leastsq).

(** X7. The number of scale factors [correction] returns. The loops run
    over [zip(slice_angles, slices)], so surplus angles or slices are
    dropped: peak tracking returns [min(len(slice_angles), len(slices))]
    factors; least squares returns
    [max(1, min(len(slice_angles), len(slices)))], the first slice having
    its factor even when there are no angles. With as many angles as
    slices, as [circularize_image] calls it, both return one factor per
    slice. *)
Theorem correction_number_of_factors (slice_angles : list float64)
        (slices : list array2) (radial : list R) (sf : list float64) :
  (outcome (correction slice_angles slices radial "argmax") = Ok sf ->
   length sf = Nat.min (length slice_angles) (length slices)) /\
  (outcome (correction slice_angles slices radial "lsq") = Ok sf ->
   length sf = Nat.max 1 (Nat.min (length slice_angles) (length slices))) /\
  (length slice_angles = length slices ->
   forall method, outcome (correction slice_angles slices radial method) = Ok sf ->
                  length sf = length slices).
Proof.
  split; [|split].
  - intros H. now apply correction_argmax_length in H.
  - intros H. apply correction_lsq_length in H as [-> Hne].
    destruct slices; [contradiction | simpl length; lia].
  - intros Hlen method H.
    destruct (String.eqb_spec method "argmax") as [->|Ha].
    + apply correction_argmax_length in H as [-> _]. lia.
    + destruct (String.eqb_spec method "lsq") as [->|Hl].
      * apply correction_lsq_length in H as [-> Hne].
        destruct slices; [contradiction | simpl in *; lia].
      * rewrite correction_invalid_method in H by assumption. discriminate.
Qed.

(** X8. Empty and single inputs. With no slices both methods raise
    [IndexError]; with no slice angles peak tracking raises [IndexError]
    too, while least squares still returns [[1]]; and least squares on a
    single slice, or with a single angle, returns [[1]] after summing the
    first slice, without any fit. *)
Theorem correction_empty_inputs (slice_angles : list float64) (ang : float64)
        (s0 : array2) (slices : list array2) (radial : list R) :
  correction slice_angles [] radial "argmax"
  = ([], Raise (IndexError "list index out of range")) /\
  correction [] slices radial "argmax"
  = ([], Raise (IndexError "list index out of range")) /\
  correction slice_angles [] radial "lsq"
  = ([], Raise (IndexError "list index out of range")) /\
  correction [] (s0 :: slices) radial "lsq" = ([ProfileSum], Ok [Finite 1]) /\
  correction [ang] (s0 :: slices) radial "lsq" = ([ProfileSum], Ok [Finite 1]) /\
  correction slice_angles [s0] radial "lsq" = ([ProfileSum], Ok [Finite 1]).
Proof.
  split; [rewrite correction_argmax_unfold; now destruct slice_angles|].
  split; [reflexivity|]. split; [reflexivity|]. split; [reflexivity|].
  split; [reflexivity|].
  rewrite correction_lsq_unfold. simpl.
  now destruct slice_angles as [|a [|b rest]].
Qed.

(** X9. [correction] never reads the values of the slice angles, only how
    many there are: two angle sequences of one length give the same run,
    work and result, for every method. *)
Theorem correction_ignores_angle_values (a1 a2 : list float64)
        (slices : list array2) (radial : list R) (method : string) :
  length a1 = length a2 ->
  correction a1 slices radial method = correction a2 slices radial method.
Proof.
  intros Hlen. unfold circularize.correction.
  destruct (method =? "argmax")%string.
  - now rewrite (argmax_loop_angles slices a1 a2 Hlen).
  - destruct (method =? "lsq")%string; [|reflexivity].
    destruct slices as [|slice0 slices]; [reflexivity|].
    apply and_then_ext. intros profile0.
    rewrite (lsq_loop_angles UnivariateSpline leastsq radial (drop1 (slice0 :: slices))
               _ (drop1 a1) (drop1 a2)); [reflexivity|].
    destruct a1, a2; simpl in *; lia.
Qed.

(** X10. A ring that is already circular needs no correction: when every
    slice has the same radial profile, with its peak at a radius that is
    not zero, peak tracking returns the factor 1.0 for every slice. *)
Theorem correction_equal_profiles (slice_angles : list float64)
        (slices : list array2) (radial profile : list R) (p : nat) (r0 : R) :
  slices <> [] -> length slice_angles = length slices ->
  Forall (fun s => sum_axis1 s = profile) slices ->
  argmax profile = Ok p -> radial !! p = Some r0 -> r0 <> 0 ->
  outcome (correction slice_angles slices radial "argmax")
  = Ok (replicate (length slices) (Finite 1)).
Proof.
  intros Hne Hlen Hall Ep Er0 Hr0.
  destruct (argmax_loop_same profile p slices Ep Hall slice_angles) as (t & E).
  rewrite Hlen, Nat.min_id in E.
  rewrite correction_argmax_unfold, E, outcome_and_then_ok.
  destruct slices as [|s slices]; [contradiction|]. simpl replicate at 1.
  cbv iota. unfold take1. rewrite Er0.
  unfold call at 1. rewrite outcome_and_then_ok.
  change (p :: replicate (length slices) p) with (replicate (length (s :: slices)) p).
  rewrite (take_replicate radial p r0 _ Er0).
  unfold call at 1. rewrite outcome_and_then_ok. simpl. f_equal.
  rewrite true_divide_self by assumption. f_equal.
  induction (length slices) as [|n IH]; simpl; [reflexivity|].
  now rewrite IH, true_divide_self.
Qed.

(** X11. Peak tracking is blind to the overall intensity: multiplying
    every slice by one factor [k > 0] changes neither the work nor the
    scale factors. *)
Theorem correction_argmax_intensity_scale (k : R) (slice_angles : list float64)
        (slices : list array2) (radial : list R) :
  0 < k ->
  correction slice_angles (map (scale_image k) slices) radial "argmax"
  = correction slice_angles slices radial "argmax".
Proof.
  intros Hk. rewrite !correction_argmax_unfold.
  now rewrite argmax_loop_scale.
Qed.

Lemma argmax_loop_uses (slices : list array2) :
  forall slice_angles,
    uses (fun w => w = ProfileSum \/ w = Argmax) (argmax_loop slice_angles slices).
Proof.
  induction slices as [|aslice slices IH]; intros [|ang slice_angles];
    try apply uses_ret.
  rewrite argmax_loop_cons.
  apply uses_and_then; [apply uses_call; auto|]. intros profile.
  apply uses_and_then; [apply uses_call; auto|]. intros pk.
  apply uses_and_then; [apply IH|]. intros pkpos. apply uses_ret.
Qed.

Lemma lsq_loop_uses (radial : list R) (slices : list array2) :
  forall st slice_angles,
    uses (fun w => w = ProfileSum \/ w = Leastsq \/ w = Residual \/ w = Elementwise)
         (lsq_loop radial st slice_angles slices).
Proof.
  induction slices as [|aslice slices IH]; intros st [|ang slice_angles];
    try apply uses_ret.
  simpl. apply uses_and_then; [|intros st'; apply IH].
  unfold circularize.lsq_step.
  repeat (apply uses_and_then; [apply uses_call; auto|]; intros ?).
  apply uses_ret.
Qed.

(** X12. What each method works with. Peak tracking only sums profiles,
    takes their argmax, indexes the radial grid and divides: it starts no
    least-squares fit and no spline, whatever the input. Least squares
    only sums profiles, fits, evaluates residuals and adds them. An
    unknown method starts nothing. *)
Theorem correction_work (slice_angles : list float64) (slices : list array2)
        (radial : list R) :
  uses (fun w => w = ProfileSum \/ w = Argmax \/ w = Take \/ w = Elementwise)
       (correction slice_angles slices radial "argmax") /\
  uses (fun w => w = ProfileSum \/ w = Leastsq \/ w = Residual \/ w = Elementwise)
       (correction slice_angles slices radial "lsq") /\
  (forall method, method <> "argmax"%string -> method <> "lsq"%string ->
     trace (correction slice_angles slices radial method) = []).
Proof.
  split; [|split].
  - rewrite correction_argmax_unfold. apply uses_and_then.
    + eapply uses_weaken; [|apply argmax_loop_uses]. intros w [-> | ->]; auto.
    + intros [|pk0 pkpos]; [apply uses_raise|].
      repeat (apply uses_and_then; [apply uses_call; auto|]; intros ?).
      apply uses_call. auto.
  - rewrite correction_lsq_unfold. destruct slices as [|slice0 slices];
      [apply uses_raise|].
    apply uses_and_then; [apply uses_call; auto|]. intros profile0.
    apply uses_and_then; [apply lsq_loop_uses|]. intros st. apply uses_ret.
  - intros method Ha Hl. now rewrite correction_invalid_method.
Qed.

End correction_further.

Lemma correction_number_of_factors_witness :
  length [circularize.true_divide 1 1]
  = Nat.min (length [circularize.Finite 0; circularize.Finite 1])
            (length [Array2 1 1 [[2%R]]]) /\
  length [circularize.Finite 1]
  = Nat.max 1 (Nat.min (length (@nil circularize.float64))
                       (length [Array2 1 1 [[2%R]]; Array2 1 1 [[3%R]]])).
Proof.
  split.
  - apply (proj1 (correction_number_of_factors
                    (fun _ _ _ => Ok (fun _ => 0%R)) (fun _ p => Ok p)
                    [circularize.Finite 0; circularize.Finite 1]
                    [Array2 1 1 [[2%R]]] [1%R]
                    [circularize.true_divide 1 1])).
    reflexivity.
  - apply (proj1 (proj2 (correction_number_of_factors
                           (fun _ _ _ => Ok (fun _ => 0%R)) (fun _ p => Ok p)
                           [] [Array2 1 1 [[2%R]]; Array2 1 1 [[3%R]]] [1%R]
                           [circularize.Finite 1]))).
    reflexivity.
Defined.

Lemma correction_ignores_angle_values_witness :
  circularize.correction (fun _ _ _ => Ok (fun _ => 0%R)) (fun _ p => Ok p)
    [circularize.Finite 0; circularize.Finite 1]
    [Array2 1 1 [[2%R]]; Array2 1 1 [[3%R]]] [1%R] "argmax"
  = circularize.correction (fun _ _ _ => Ok (fun _ => 0%R)) (fun _ p => Ok p)
      [circularize.Finite 5; circularize.NaN]
      [Array2 1 1 [[2%R]]; Array2 1 1 [[3%R]]] [1%R] "argmax".
Proof.
  apply (correction_ignores_angle_values
           (fun _ _ _ => Ok (fun _ => 0%R)) (fun _ p => Ok p)
           [circularize.Finite 0; circularize.Finite 1]
           [circularize.Finite 5; circularize.NaN]
           [Array2 1 1 [[2%R]]; Array2 1 1 [[3%R]]] [1%R] "argmax").
  reflexivity.
Defined.

Lemma correction_equal_profiles_witness :
  outcome (circularize.correction (fun _ _ _ => Ok (fun _ => 0%R)) (fun _ p => Ok p)
             [circularize.Finite 0; circularize.Finite 1]
             [Array2 1 1 [[2%R]]; Array2 1 1 [[2%R]]] [1%R] "argmax")
  = Ok (replicate (length [Array2 1 1 [[2%R]]; Array2 1 1 [[2%R]]])
                  (circularize.Finite 1)).
Proof.
  apply (correction_equal_profiles
           (fun _ _ _ => Ok (fun _ => 0%R)) (fun _ p => Ok p)
           [circularize.Finite 0; circularize.Finite 1]
           [Array2 1 1 [[2%R]]; Array2 1 1 [[2%R]]] [1%R]
           (circularize.sum_axis1 (Array2 1 1 [[2%R]])) 0 1%R).
  - discriminate.
  - reflexivity.
  - repeat constructor.
  - reflexivity.
  - reflexivity.
  - lra.
Defined.

Lemma correction_argmax_intensity_scale_witness :
  circularize.correction (fun _ _ _ => Ok (fun _ => 0%R)) (fun _ p => Ok p)
    [circularize.Finite 0]
    (map (scale_image 3) [Array2 2 1 [[1%R]; [4%R]]]) [1%R; 2%R] "argmax"
  = circularize.correction (fun _ _ _ => Ok (fun _ => 0%R)) (fun _ p => Ok p)
      [circularize.Finite 0] [Array2 2 1 [[1%R]; [4%R]]] [1%R; 2%R] "argmax".
Proof.
  apply (correction_argmax_intensity_scale
           (fun _ _ _ => Ok (fun _ => 0%R)) (fun _ p => Ok p) 3
           [circularize.Finite 0] [Array2 2 1 [[1%R]; [4%R]]] [1%R; 2%R]).
  lra.
Defined.

(** ** Further facts about the pipeline *)

Section pipeline_facts.

Import circularize.
Local Open Scope R_scope.

Lemma section_sizes_length (total n : nat) :
  (0 < n)%nat -> length (section_sizes total n) = n.
Proof.
  intros Hn. unfold section_sizes.
  rewrite length_app, !length_replicate.
  pose proof (Nat.mod_upper_bound total n). lia.
Qed.

Lemma cut_length {A : Type} (sizes : list nat) :
  forall a : list A, length (cut sizes a) = length sizes.
Proof. induction sizes as [|k sizes IH]; intros a; simpl; [reflexivity | now rewrite IH]. Qed.

(** [np.array_split] returns only for a positive number of sections, and
    then that many. *)
Lemma array_split_ok_inv (a : array2) (n : Z) (slices : list array2) :
  array_split a n = Ok slices -> (0 < n)%Z /\ length slices = Z.to_nat n.
Proof.
  unfold array_split. destruct (Z.leb_spec n 0) as [H|H]; [discriminate|].
  intros [= <-]. split; [exact H|].
  unfold transpose_pieces. rewrite length_imap. apply section_sizes_length. lia.
Qed.

(** [np.hsplit] of a 1D array returns only for a positive number of
    sections that divides its length, and then that many. *)
Lemma hsplit_ok_inv (v : list R) (n : Z) (parts : list (list R)) :
  hsplit v n = Ok parts ->
  (0 < n)%Z /\ (Z.of_nat (length v) mod n = 0)%Z /\ length parts = Z.to_nat n.
Proof.
  unfold hsplit. destruct (Z.eqb_spec n 0) as [H0|H0]; [discriminate|].
  destruct (Z.eqb_spec (Z.of_nat (length v) mod n) 0) as [Hm|Hm]; [|discriminate].
  simpl. destruct (Z.leb_spec n 0) as [H|H]; [discriminate|].
  intros [= <-]. split; [exact H|]. split; [exact Hm|].
  rewrite cut_length. apply section_sizes_length. lia.
Qed.

Variable ndimage_zoom : array2 -> R -> result array2.
Variable center_image : array2 -> string -> result array2.
Variable reproject_image_into_polar : array2 -> result (array2 * array2 * array2).
Variable dasch_two_point_transform : array2 -> result array2.
Variable UnivariateSpline : list float64 -> list float64 -> R -> result (R -> R).
Variable leastsq : (R * R -> result (list R)) -> R * R -> result (R * R).
Variable map_coordinates : array2 -> list (list R) * list (list R) -> result array2.

Local Abbreviation correction := (circularize.correction UnivariateSpline leastsq).
Local Abbreviation polar_slices :=
  (circularize.polar_slices ndimage_zoom center_image reproject_image_into_polar
                            dasch_two_point_transform).
Local Abbreviation circularize_image :=
  (circularize.circularize_image ndimage_zoom center_image
     reproject_image_into_polar dasch_two_point_transform UnivariateSpline
     leastsq map_coordinates).

(** Slicing that succeeds: the number of slices is positive and divides
    the number of angular samples, and there are that many slices and
    slice angles. *)
Lemma polar_slices_inv (IM : array2) (center : option string)
      (radial_range : option (R * R)) (zoom : R) (nslices : Z) (inverse : bool)
      (t : list work) (IM' : array2) (slice_angles : list float64)
      (slices : list array2) (radial : list R) :
  polar_slices IM center radial_range zoom nslices inverse
  = (t, Ok (IM', slice_angles, slices, radial)) ->
  (0 < nslices)%Z /\
  length slices = Z.to_nat nslices /\
  length slice_angles = Z.to_nat nslices /\
  exists IM1 polarIM radial_coord angle_coord angle0,
    (if Rlt_dec 1 zoom then ndimage_zoom IM zoom = Ok IM1 else IM1 = IM) /\
    match center with
    | Some c => center_image IM1 c = Ok IM'
    | None => IM' = IM1
    end /\
    reproject_image_into_polar IM' = Ok (polarIM, radial_coord, angle_coord) /\
    row0 angle_coord = Ok angle0 /\
    (Z.of_nat (length angle0) mod nslices = 0)%Z.
Proof.
  unfold circularize.polar_slices. intros H.
  apply and_then_ok_inv in H as (t1 & IM1 & t1' & H1 & H & _).
  assert (Hzoom : if Rlt_dec 1 zoom then ndimage_zoom IM zoom = Ok IM1
                  else IM1 = IM).
  { destruct (Rlt_dec 1 zoom).
    - now apply call_ok_inv in H1 as [_ H1].
    - now apply ret_ok_inv in H1 as [_ H1]. }
  apply and_then_ok_inv in H as (t2 & IM2 & t2' & H2 & H & _).
  assert (Hcenter : match center with
                    | Some c => center_image IM1 c = Ok IM2
                    | None => IM2 = IM1
                    end).
  { destruct center as [c|].
    - now apply call_ok_inv in H2 as [_ H2].
    - now apply ret_ok_inv in H2 as [_ H2]. }
  apply and_then_ok_inv in H
    as (t3 & [[polarIM radial_coord] angle_coord] & t3' & H3 & H & _).
  apply call_ok_inv in H3 as [_ H3].
  apply and_then_ok_inv in H as (t4 & polarIM' & t4' & _ & H & _).
  apply and_then_ok_inv in H as (t5 & radial5 & t5' & _ & H & _).
  apply and_then_ok_inv in H as (t6 & [polarIM'' radial'] & t6' & _ & H & _).
  apply and_then_ok_inv in H as (t7 & slices7 & t7' & H7 & H & _).
  apply call_ok_inv in H7 as [_ H7].
  apply and_then_ok_inv in H as (t8 & angles8 & t8' & H8 & H & _).
  apply call_ok_inv in H8 as [_ H8].
  apply ret_ok_inv in H as [_ [= <- <- <- <-]].
  apply array_split_ok_inv in H7 as [Hn Hslices].
  destruct (row0 angle_coord) as [angle0|e] eqn:E0; [|discriminate].
  simpl in H8. destruct (hsplit angle0 nslices) as [parts|e] eqn:Eh; [|discriminate].
  simpl in H8. injection H8 as <-.
  apply hsplit_ok_inv in Eh as (_ & Hmod & Hparts).
  split; [exact Hn|]. split; [exact Hslices|].
  split; [now rewrite length_map|].
  exists IM1, polarIM, radial_coord, angle_coord, angle0. auto.
Qed.

(** The work [correction] can start, whatever the method. *)
Lemma correction_uses (slice_angles : list float64) (slices : list array2)
      (radial : list R) (method : string) :
  uses (fun w => w = ProfileSum \/ w = Argmax \/ w = Take \/ w = Elementwise \/
                 w = Leastsq \/ w = Residual)
       (correction slice_angles slices radial method).
Proof.
  destruct (String.eqb_spec method "argmax") as [->|Ha].
  - rewrite correction_argmax_unfold. apply uses_and_then.
    + eapply uses_weaken; [|apply argmax_loop_uses]. intros w [-> | ->]; auto.
    + intros [|pk0 pkpos]; [apply uses_raise|].
      repeat (apply uses_and_then; [apply uses_call; auto|]; intros ?).
      apply uses_call. auto.
  - destruct (String.eqb_spec method "lsq") as [->|Hl].
    + rewrite correction_lsq_unfold. destruct slices as [|slice0 slices];
        [apply uses_raise|].
      apply uses_and_then; [apply uses_call; auto|]. intros profile0.
      apply uses_and_then; [|intros st; apply uses_ret].
      eapply uses_weaken; [|apply lsq_loop_uses]. intros w [-> | [-> | [-> | ->]]]; auto 7.
    + rewrite correction_invalid_method by assumption. apply uses_raise.
Qed.

End pipeline_facts.

(** ** Further properties of the remap and of the pipeline *)

Section remap_further.

Import circularize.
Local Open Scope R_scope.

(** X13. Where [circularize] samples. Where the correction is not zero,
    the value of output pixel [(r, c)] is read at the point whose offset
    from the image centre [(rows // 2, cols // 2)] is the pixel's own
    offset divided by the correction at the pixel's angle; so the centre
    pixel is read from itself, whatever non-zero value the correction
    takes there. *)
Theorem source_coordinates_along_rays (rows cols : nat) (radcorrspl : R -> R) :
  (forall r c : nat, (r < rows)%nat -> (c < cols)%nat ->
     radcorrspl (pixel_angle rows cols r c) <> 0 ->
     cell (fst (source_coordinates rows cols radcorrspl)) r c
     = Some (IZR (Z.of_nat rows / 2)
             - IZR (Z.of_nat rows / 2 - Z.of_nat r)
               / radcorrspl (pixel_angle rows cols r c)) /\
     cell (snd (source_coordinates rows cols radcorrspl)) r c
     = Some (IZR (Z.of_nat c - Z.of_nat cols / 2)
             / radcorrspl (pixel_angle rows cols r c)
             + IZR (Z.of_nat cols / 2))) /\
  ((1 <= rows)%nat -> (1 <= cols)%nat ->
   radcorrspl (pixel_angle rows cols (rows / 2) (cols / 2)) <> 0 ->
   cell (fst (source_coordinates rows cols radcorrspl)) (rows / 2) (cols / 2)
   = Some (INR (rows / 2)) /\
   cell (snd (source_coordinates rows cols radcorrspl)) (rows / 2) (cols / 2)
   = Some (INR (cols / 2))).
Proof.
  assert (E : source_coordinates rows cols radcorrspl
              = (grid rows cols (fun r c =>
                   IZR (Z.of_nat rows / 2)
                   - IZR (Z.of_nat rows / 2 - Z.of_nat r)
                     / radcorrspl (pixel_angle rows cols r c)),
                 grid rows cols (fun r c =>
                   IZR (Z.of_nat c - Z.of_nat cols / 2)
                   / radcorrspl (pixel_angle rows cols r c)
                   + IZR (Z.of_nat cols / 2)))).
  { unfold source_coordinates. rewrite indices_grid.
    rewrite !map2d_grid, !zip2d_grid, !map2d_grid. reflexivity. }
  rewrite E. cbn [fst snd]. split.
  - intros r c Hr Hc _. now rewrite !grid_cell by assumption.
  - intros Hrows Hcols Hnz.
    assert (Hr : (rows / 2 < rows)%nat) by (apply Nat.div_lt; lia).
    assert (Hc : (cols / 2 < cols)%nat) by (apply Nat.div_lt; lia).
    rewrite !grid_cell by assumption.
    rewrite !INR_IZR_INZ, !Nat2Z.inj_div. change (Z.of_nat 2) with 2%Z.
    rewrite !Z.sub_diag. split; f_equal; now field.
Qed.

Lemma source_coordinates_along_rays_witness :
  cell (fst (source_coordinates 3 5 (fun _ => 2))) (3 / 2) (5 / 2)
  = Some (INR (3 / 2)) /\
  cell (snd (source_coordinates 3 5 (fun _ => 2))) (3 / 2) (5 / 2)
  = Some (INR (5 / 2)).
Proof.
  apply (proj2 (source_coordinates_along_rays 3 5 (fun _ => 2))); try lia.
  cbv beta. lra.
Defined.

End remap_further.

Section pipeline_further.

Import circularize.
Local Open Scope R_scope.

Variable ndimage_zoom : array2 -> R -> result array2.
Variable center_image : array2 -> string -> result array2.
Variable reproject_image_into_polar : array2 -> result (array2 * array2 * array2).
Variable dasch_two_point_transform : array2 -> result array2.
Variable UnivariateSpline : list float64 -> list float64 -> R -> result (R -> R).
Variable leastsq : (R * R -> result (list R)) -> R * R -> result (R * R).
Variable map_coordinates : array2 -> list (list R) * list (list R) -> result array2.

Local Abbreviation correction := (circularize.correction UnivariateSpline leastsq).
Local Abbreviation polar_slices :=
  (circularize.polar_slices ndimage_zoom center_image reproject_image_into_polar
                            dasch_two_point_transform).
Local Abbreviation circularize_image :=
  (circularize.circularize_image ndimage_zoom center_image
     reproject_image_into_polar dasch_two_point_transform UnivariateSpline
     leastsq map_coordinates).

(** X14. What a call of [circularize_image] that returns has met. The
    method is ["argmax"] or ["lsq"]; [nslices] is positive and divides the
    number of angular samples of the polar image of this call, which is
    the reprojection of the input after the zoom (for [zoom > 1]) and the
    centring (for a given [center]); a number of slices that does not
    divide it raises in [np.hsplit]. With [return_correction] the slice
    angles and the scale factors returned have [nslices] entries each. *)
Theorem circularize_image_returns (IM : array2) (method : string)
        (center : option string) (radial_range : option (R * R))
        (zoom smooth : R) (nslices : Z) (inverse return_correction : bool)
        (out : output) :
  outcome (circularize_image IM method center radial_range zoom smooth nslices
                             inverse return_correction) = Ok out ->
  (method = "argmax"%string \/ method = "lsq"%string) /\
  (0 < nslices)%Z /\
  (exists IM1 IM2 polarIM radial_coord angle_coord angle0,
     (if Rlt_dec 1 zoom then ndimage_zoom IM zoom = Ok IM1 else IM1 = IM) /\
     match center with
     | Some c => center_image IM1 c = Ok IM2
     | None => IM2 = IM1
     end /\
     reproject_image_into_polar IM2 = Ok (polarIM, radial_coord, angle_coord) /\
     row0 angle_coord = Ok angle0 /\
     (Z.of_nat (length angle0) mod nslices = 0)%Z) /\
  match out with
  | Image _ => return_correction = false
  | WithCorrection _ slice_angles radcorr _ =>
      return_correction = true /\
      length slice_angles = Z.to_nat nslices /\
      length radcorr = Z.to_nat nslices
  end.
Proof.
  destruct (circularize_image IM method center radial_range zoom smooth nslices
                              inverse return_correction) as [t r] eqn:E.
  simpl. intros ->. unfold circularize.circularize_image in E.
  apply and_then_ok_inv in E
    as (t1 & [[[IM' slice_angles] slices] radial] & t1' & Hs & E & _).
  apply and_then_ok_inv in E as (t2 & radcorr & t2' & Hc & E & _).
  apply and_then_ok_inv in E as (t3 & radcorrspl & t3' & _ & E & _).
  apply and_then_ok_inv in E as (t4 & IMcirc & t4' & _ & E & _).
  apply and_then_ok_inv in E as (t5 & IMcirc' & t5' & _ & E & _).
  apply polar_slices_inv in Hs as (Hn & Hslices & Hangles & Hdiv).
  assert (Hout : outcome (correction slice_angles slices radial method) = Ok radcorr)
    by now rewrite Hc.
  assert (Hmethod : method = "argmax"%string \/ method = "lsq"%string).
  { destruct (String.eqb_spec method "argmax") as [->|Ha]; [auto|].
    destruct (String.eqb_spec method "lsq") as [->|Hl]; [auto|].
    rewrite correction_invalid_method in Hc by assumption. discriminate. }
  assert (Hlen : length radcorr = Z.to_nat nslices).
  { destruct Hmethod as [-> | ->].
    - apply correction_argmax_length in Hout as [-> _]. lia.
    - apply correction_lsq_length in Hout as [-> _]. lia. }
  split; [exact Hmethod|]. split; [exact Hn|]. split.
  { destruct Hdiv as (IM1 & polarIM & radial_coord & angle_coord & angle0 & Hd).
    exists IM1, IM', polarIM, radial_coord, angle_coord, angle0. exact Hd. }
  destruct return_correction; apply ret_ok_inv in E as [_ <-]; auto.
Qed.

(** X15. The optional steps run only when asked for, whatever the
    outcome: [ndimage.zoom] is called only for [zoom > 1], the centring
    only when [center] is given, the inverse transform of the polar image
    only for [inverse=True], and the radial crop only when [radial_range]
    is given. *)
Theorem circularize_image_optional_steps (IM : array2) (method : string)
        (center : option string) (radial_range : option (R * R))
        (zoom smooth : R) (nslices : Z) (inverse return_correction : bool) :
  uses (fun w => (w = Zoom -> 1 < zoom) /\
                 (w = Center -> center <> None) /\
                 (w = InverseTransform -> inverse = true) /\
                 (w = Crop -> radial_range <> None))
       (circularize_image IM method center radial_range zoom smooth nslices
                          inverse return_correction).
Proof.
  set (P := fun w => (w = Zoom -> 1 < zoom) /\
                     (w = Center -> center <> None) /\
                     (w = InverseTransform -> inverse = true) /\
                     (w = Crop -> radial_range <> None)).
  assert (Hplain : forall w, w <> Zoom -> w <> Center -> w <> InverseTransform ->
                             w <> Crop -> P w).
  { intros w H1 H2 H3 H4. unfold P. repeat split; intros ->; contradiction. }
  assert (Hcall : forall (A : Type) (w : work) (r : result A),
             w <> Zoom -> w <> Center -> w <> InverseTransform -> w <> Crop ->
             uses P (call w r)).
  { intros A w r H1 H2 H3 H4. apply uses_call. now apply Hplain. }
  assert (Hzoom : forall a z, uses P (if Rlt_dec 1 zoom
                                      then call Zoom (ndimage_zoom a z) else ret a)).
  { intros a z. destruct (Rlt_dec 1 zoom) as [Hz|_]; [|apply uses_ret].
    apply uses_call. unfold P. repeat split; try discriminate. auto. }
  unfold circularize.circularize_image. apply uses_and_then.
  - unfold circularize.polar_slices.
    apply uses_and_then; [apply Hzoom|]. intros IM1.
    apply uses_and_then.
    { destruct center as [c|]; [|apply uses_ret].
      apply uses_call. unfold P. repeat split; discriminate. }
    intros IM2. apply uses_and_then; [apply Hcall; discriminate|].
    intros [[polarIM radial_coord] angle_coord].
    apply uses_and_then.
    { destruct inverse; [|apply uses_ret].
      apply uses_call. unfold P. repeat split; try discriminate; auto. }
    intros polarIM'. apply uses_and_then; [apply Hcall; discriminate|].
    intros radial. apply uses_and_then.
    { destruct radial_range as [[rmin rmax]|]; [|apply uses_ret].
      apply uses_call. unfold P. repeat split; discriminate. }
    intros [polarIM'' radial'].
    apply uses_and_then; [apply Hcall; discriminate|]. intros slices.
    apply uses_and_then; [apply Hcall; discriminate|]. intros slice_angles.
    apply uses_ret.
  - intros [[[IM' slice_angles] slices] radial]. apply uses_and_then.
    { eapply uses_weaken; [|apply correction_uses].
      intros w Hw. apply Hplain; intros ->;
        repeat (destruct Hw as [Hw|Hw]; [discriminate|]); discriminate. }
    intros radcorr. apply uses_and_then; [apply Hcall; discriminate|].
    intros radcorrspl. apply uses_and_then.
    { unfold circularize.circularize. apply Hcall; discriminate. }
    intros IMcirc. apply uses_and_then; [apply Hzoom|]. intros IMcirc'.
    destruct return_correction; apply uses_ret.
Qed.

End pipeline_further.

(** A run of the pipeline that returns, on an image of one row and two
    columns cut into two slices. *)
Lemma circularize_image_two_slices :
  outcome
    (circularize.circularize_image
       (fun IM _ => Ok IM) (fun IM _ => Ok IM) (fun IM => Ok (IM, IM, IM))
       (fun IM => Ok IM) (fun _ _ _ => Ok (fun _ => 1%R)) (fun _ p => Ok p)
       (fun IM _ => Ok IM)
       (Array2 1 2 [[1%R; 2%R]]) "argmax" None None 1%R 0%R 2%Z false true)
  = Ok (circularize.WithCorrection
          (Array2 1 2 [[1%R; 2%R]])
          [circularize.mean [1%R]; circularize.mean [2%R]]
          [circularize.true_divide 1 1; circularize.true_divide 1 1]
          (fun _ => 1%R)).
Proof.
  unfold circularize.circularize_image, circularize.polar_slices.
  destruct (Rlt_dec 1 1) as [H|_]; [lra|]. reflexivity.
Qed.

Lemma circularize_image_returns_witness :
  ("argmax" = "argmax" \/ "argmax" = "lsq")%string /\
  (0 < 2)%Z /\
  (exists IM1 IM2 polarIM radial_coord angle_coord angle0,
     (if Rlt_dec 1 1
      then (fun (IM : array2) (_ : R) => Ok IM) (Array2 1 2 [[1%R; 2%R]]) 1%R
           = Ok IM1
      else IM1 = Array2 1 2 [[1%R; 2%R]]) /\
     IM2 = IM1 /\
     (fun IM : array2 => Ok (IM, IM, IM)) IM2
     = Ok (polarIM, radial_coord, angle_coord) /\
     circularize.row0 angle_coord = Ok angle0 /\
     (Z.of_nat (length angle0) mod 2 = 0)%Z) /\
  (true = true /\
   length [circularize.mean [1%R]; circularize.mean [2%R]] = Z.to_nat 2 /\
   length [circularize.true_divide 1 1; circularize.true_divide 1 1]
   = Z.to_nat 2).
Proof.
  exact (circularize_image_returns
           (fun IM _ => Ok IM) (fun IM _ => Ok IM) (fun IM => Ok (IM, IM, IM))
           (fun IM => Ok IM) (fun _ _ _ => Ok (fun _ => 1%R)) (fun _ p => Ok p)
           (fun IM _ => Ok IM)
           (Array2 1 2 [[1%R; 2%R]]) "argmax" None None 1%R 0%R 2%Z false true _
           circularize_image_two_slices).
Defined.

(** ** Further properties of the benchmark helpers *)

Section benchmark_facts.

Import circularize benchmark.

Lemma contains_In (x : string) (l : list string) : contains x l = true <-> In x l.
Proof.
  unfold contains. rewrite existsb_exists. split.
  - intros (y & Hy & E). apply String.eqb_eq in E. now subst.
  - intros H. exists x. split; [assumption | apply String.eqb_refl].
Qed.

Lemma contains_cons (k x : string) (l : list string) :
  contains k (x :: l) = ((k =? x)%string || contains k l)%bool.
Proof. reflexivity. Qed.

Lemma delitem_present (d : table) (k : string) :
  In k (keys d) ->
  delitem d k = Done (List.filter (fun e => negb (fst e =? k)%string) d).
Proof.
  intros H. unfold delitem. apply contains_In in H. now rewrite H.
Qed.

Lemma filter_all {A : Type} (l : list A) : List.filter (fun _ => true) l = l.
Proof. induction l as [|a l IH]; simpl; [reflexivity | now rewrite IH]. Qed.

Lemma filter_cons_eq {A : Type} (f : A -> bool) (a : A) (l : list A) :
  List.filter f (a :: l) = if f a then a :: List.filter f l else List.filter f l.
Proof. reflexivity. Qed.

Lemma filter_after_delete (x : string) (rm : list string) (d : table) :
  List.filter (fun e => negb (contains (fst e) rm))
              (List.filter (fun e => negb (fst e =? x)%string) d)
  = List.filter (fun e => negb (contains (fst e) (x :: rm))) d.
Proof.
  induction d as [|e d IH]; [reflexivity|].
  rewrite (filter_cons_eq _ e d), (filter_cons_eq _ e d), contains_cons.
  destruct (fst e =? x)%string; cbn [negb orb]; [exact IH|].
  rewrite filter_cons_eq, IH. reflexivity.
Qed.

(** Deleting distinct keys that are all present never raises and leaves
    the other entries in their order. *)
Lemma delete_all_filter (rm : list string) : forall d : table,
  List.NoDup rm -> (forall x, In x rm -> In x (keys d)) ->
  delete_all d rm = Done (List.filter (fun e => negb (contains (fst e) rm)) d).
Proof.
  induction rm as [|x rm IH]; intros d Hnd Hin.
  - simpl. now rewrite filter_all.
  - simpl. rewrite delitem_present by (apply Hin; now left). simpl.
    apply List.NoDup_cons_iff in Hnd as [Hx Hnd].
    rewrite IH; [now rewrite filter_after_delete | exact Hnd |].
    intros y Hy. unfold keys. apply in_map_iff.
    assert (Hyd : In y (keys d)) by (apply Hin; now right).
    apply in_map_iff in Hyd as (e & He & Hed). exists e. split; [exact He|].
    apply filter_In. split; [exact Hed|].
    apply negb_true_iff. apply String.eqb_neq. intros E. apply Hx. congruence.
Qed.

Lemma delete_unselected (p : string -> bool) (d : table) :
  List.NoDup (keys d) ->
  delete_all d (List.filter p (keys d))
  = Done (List.filter (fun e => negb (p (fst e))) d).
Proof.
  intros Hnd. rewrite delete_all_filter.
  - f_equal. apply List.filter_ext_in. intros e He. f_equal.
    assert (Hk : In (fst e) (keys d)) by (unfold keys; now apply in_map).
    destruct (p (fst e)) eqn:Hp.
    + apply contains_In. apply filter_In. now split.
    + destruct (contains (fst e) (List.filter p (keys d))) eqn:Hc; [|reflexivity].
      apply contains_In in Hc. apply filter_In in Hc as [_ Hc]. congruence.
  - now apply List.NoDup_filter.
  - intros x Hx. now apply filter_In in Hx as [Hx _].
Qed.

Lemma keep_selected_filter (d : table) (select : list string) :
  List.NoDup (keys d) ->
  keep_selected d select
  = Done (List.filter (fun e => contains (fst e) select) d).
Proof.
  intros Hnd. unfold keep_selected. rewrite delete_unselected by assumption.
  f_equal. apply List.filter_ext. intros e. apply negb_involutive.
Qed.

Lemma keep_selected_bs_filter (d : table) (select : list string) :
  List.NoDup (keys d) ->
  keep_selected_bs d select
  = Done (List.filter (fun e => contains (without_last3 (fst e))
                                         (map before_paren select)) d).
Proof.
  intros Hnd. unfold keep_selected_bs. rewrite delete_unselected by assumption.
  f_equal. apply List.filter_ext. intros e. apply negb_involutive.
Qed.

Lemma initial_results_keys (cython_ext : bool) :
  List.NoDup (keys (bs (initial_results cython_ext))) /\
  List.NoDup (keys (forward (initial_results cython_ext))) /\
  List.NoDup (keys (inverse (initial_results cython_ext))).
Proof.
  destruct cython_ext; cbv [initial_results bs forward inverse keys empty_rows
                            setitem contains existsb map fst app];
    simpl; repeat split;
    repeat (apply List.NoDup_cons; [simpl; intuition discriminate|]);
    apply List.NoDup_nil.
Qed.

Lemma check_select_valid (select valid : list string) :
  forallb (fun t => contains t valid) select = true ->
  check_select select valid = Done tt.
Proof.
  induction select as [|t select IH]; simpl; [reflexivity|].
  intros H. apply andb_true_iff in H as [Ht H]. rewrite Ht. simpl. now apply IH.
Qed.

Lemma check_select_first_invalid (pre post valid : list string) (trans : string) :
  forallb (fun t => contains t valid) pre = true ->
  contains trans valid = false ->
  check_select (pre ++ trans :: post) valid
  = Failed (ValueErrorArgs
              (dq ++ trans ++ dq ++ " is not a valid transform method")%string valid).
Proof.
  intros Hpre Ht. induction pre as [|t pre IH]; simpl.
  - now rewrite Ht.
  - simpl in Hpre. apply andb_true_iff in Hpre as [Ht' Hpre]. rewrite Ht'. simpl.
    now apply IH.
Qed.

End benchmark_facts.

Section select_results_further.

Import circularize benchmark.

(** X16. Selecting a name that is no key of [res['inverse']]. When
    ['all'] is not selected, the first selected name that is not an
    inverse method raises [ValueError] with the message naming it and the
    valid keys as second argument; the names after it are not looked at. *)
Theorem select_results_invalid_name (cython_ext : bool) (pre post : list string)
        (trans : string) :
  contains "all" (pre ++ trans :: post) = false ->
  forallb (fun t => contains t (keys (inverse (initial_results cython_ext)))) pre
  = true ->
  contains trans (keys (inverse (initial_results cython_ext))) = false ->
  select_results cython_ext (pre ++ trans :: post)
  = Failed (ValueErrorArgs
              (dq ++ trans ++ dq ++ " is not a valid transform method")%string
              (keys (inverse (initial_results cython_ext)))).
Proof.
  intros Hall Hpre Ht. unfold select_results. rewrite Hall. simpl negb. cbv iota.
  now rewrite check_select_first_invalid.
Qed.

(** X17. A valid selection. When ['all'] is not selected and every
    selected name is an inverse method, the deleting loops never raise
    [KeyError]; the forward and inverse tables keep exactly their selected
    entries, in their order; the basis table keeps the entries whose name
    without [_bs] is a selected name cut at its parenthesis; and the keys
    of the inverse table are exactly the selected names. *)
Theorem select_results_keeps_selected (cython_ext : bool) (select : list string) :
  contains "all" select = false ->
  forallb (fun t => contains t (keys (inverse (initial_results cython_ext)))) select
  = true ->
  exists res : results,
    select_results cython_ext select = Done res /\
    bs res = List.filter (fun e => contains (without_last3 (fst e))
                                            (map before_paren select))
                         (bs (initial_results cython_ext)) /\
    forward res = List.filter (fun e => contains (fst e) select)
                              (forward (initial_results cython_ext)) /\
    inverse res = List.filter (fun e => contains (fst e) select)
                              (inverse (initial_results cython_ext)) /\
    (forall k : string, In k (keys (inverse res)) <-> In k select).
Proof.
  intros Hall Hvalid.
  destruct (initial_results_keys cython_ext) as (Hbs & Hfw & Hinv).
  eexists. split; [|split; [|split; [|split]]].
  - unfold select_results. rewrite Hall. simpl negb. cbv iota.
    rewrite check_select_valid by assumption. simpl and_next.
    rewrite (keep_selected_filter (forward _)) by assumption. simpl and_next.
    rewrite (keep_selected_filter (inverse _)) by assumption. simpl and_next.
    rewrite keep_selected_bs_filter by assumption. reflexivity.
  - reflexivity.
  - reflexivity.
  - reflexivity.
  - intros k. cbn [inverse]. unfold keys at 1. rewrite in_map_iff. split.
    + intros (e & <- & He). apply filter_In in He as [_ He]. now apply contains_In.
    + intros Hk. rewrite forallb_forall in Hvalid.
      pose proof (Hvalid k Hk) as Hkv. apply contains_In in Hkv.
      unfold keys in Hkv. apply in_map_iff in Hkv as (e & <- & He).
      exists e. split; [reflexivity|]. apply filter_In. split; [exact He|].
      now apply contains_In.
Qed.

End select_results_further.

Lemma select_results_invalid_name_witness :
  benchmark.select_results false
    (["basex"%string] ++ "direct_C"%string :: ["nope"%string])
  = benchmark.Failed
      (benchmark.ValueErrorArgs
         (benchmark.dq ++ "direct_C" ++ benchmark.dq
          ++ " is not a valid transform method")%string
         (benchmark.keys (benchmark.inverse (benchmark.initial_results false)))).
Proof.
  apply (select_results_invalid_name false ["basex"%string] ["nope"%string]
                                     "direct_C"); reflexivity.
Defined.

Lemma select_results_keeps_selected_witness :
  exists res : benchmark.results,
    benchmark.select_results true ["basex(var)"; "direct_C"]%string
    = benchmark.Done res /\
    benchmark.bs res
    = List.filter (fun e => benchmark.contains
                              (benchmark.without_last3 (fst e))
                              (map benchmark.before_paren
                                   ["basex(var)"; "direct_C"]%string))
                  (benchmark.bs (benchmark.initial_results true)) /\
    benchmark.forward res
    = List.filter (fun e => benchmark.contains (fst e)
                              ["basex(var)"; "direct_C"]%string)
                  (benchmark.forward (benchmark.initial_results true)) /\
    benchmark.inverse res
    = List.filter (fun e => benchmark.contains (fst e)
                              ["basex(var)"; "direct_C"]%string)
                  (benchmark.inverse (benchmark.initial_results true)) /\
    (forall k : string, In k (benchmark.keys (benchmark.inverse res))
                        <-> In k ["basex(var)"; "direct_C"]%string).
Proof.
  apply (select_results_keeps_selected true ["basex(var)"; "direct_C"]%string);
    reflexivity.
Defined.

Section allclose_facts.

Import circularize benchmark.
Local Open Scope R_scope.

Lemma isclose_spec (x y : R) :
  isclose x y = true <-> Rabs (x - y) <= atol + rtol * Rabs y.
Proof.
  unfold isclose. destruct (Rle_dec (Rabs (x - y)) (atol + rtol * Rabs y)).
  - tauto.
  - split; [discriminate | contradiction].
Qed.

Lemma isclose_refl (x : R) : isclose x x = true.
Proof.
  apply isclose_spec. replace (x - x) with 0 by ring. rewrite Rabs_R0.
  pose proof (Rabs_pos x). unfold atol, rtol. nra.
Qed.

Lemma forallb_combine_lookup {A B : Type} (f : A * B -> bool) (l : list A) :
  forall k : list B,
    forallb f (combine l k) = true
    <-> forall (i : nat) (a : A) (b : B),
          l !! i = Some a -> k !! i = Some b -> f (a, b) = true.
Proof.
  induction l as [|a l IH]; intros [|b k]; simpl.
  - split; [intros _ i a b H; discriminate | auto].
  - split; [intros _ i a b' H; discriminate | auto].
  - split; [intros _ i a' b' _ H; discriminate | auto].
  - rewrite andb_true_iff, IH. split.
    + intros [H1 H2] [|i] a' b'; simpl.
      * now intros [= <-] [= <-].
      * apply H2.
    + intros H. split; [apply (H 0%nat); reflexivity|].
      intros i a' b'. apply (H (S i)).
Qed.

Lemma map_lookup_Some {A B : Type} (f : A -> B) (l : list A) (i : nat) (b : B) :
  map f l !! i = Some b <-> exists a, l !! i = Some a /\ b = f a.
Proof.
  revert i. induction l as [|a l IH]; intros [|i]; simpl.
  - split; [discriminate | intros (a & H & _); discriminate].
  - split; [discriminate | intros (a & H & _); discriminate].
  - split; [intros [= <-]; eauto | intros (a' & [= <-] & ->); reflexivity].
  - apply IH.
Qed.

Lemma stretch_same {A : Type} (n : nat) (l : list A) : stretch n n l = l.
Proof. unfold stretch. now rewrite Nat.eqb_refl. Qed.

Lemma broadcast_to_same (a : array2) :
  broadcast_to a (shape0 a) (shape1 a) = data a.
Proof.
  unfold broadcast_to. rewrite stretch_same.
  induction (data a) as [|row rows IH]; simpl; [reflexivity|].
  now rewrite stretch_same, IH.
Qed.

(** [np.allclose] of two arrays of one shape: no broadcasting. *)
Lemma allclose_same_shape (a b : array2) :
  shape0 a = shape0 b -> shape1 a = shape1 b ->
  allclose a b
  = Done (forallb (fun rr => forallb (fun xy => isclose (fst xy) (snd xy))
                                     (combine (fst rr) (snd rr)))
                  (combine (data a) (data b))).
Proof.
  intros H0 H1. unfold allclose, broadcast_axis.
  rewrite H0, H1, !Nat.eqb_refl.
  rewrite <- (broadcast_to_same b), <- H0, <- H1.
  now rewrite (broadcast_to_same a).
Qed.

Lemma forallb_combine_diag {A : Type} (f : A * A -> bool) (l : list A) :
  (forall x, f (x, x) = true) -> forallb f (combine l l) = true.
Proof.
  intros H. induction l as [|x l IH]; simpl; [reflexivity|]. now rewrite H, IH.
Qed.

Lemma allclose_refl (a : array2) : allclose a a = Done true.
Proof.
  rewrite allclose_same_shape by reflexivity. f_equal.
  apply forallb_combine_diag. intros row. simpl.
  apply forallb_combine_diag. intros x. apply isclose_refl.
Qed.

(** What a true result of [np.allclose] says for arrays of one shape. *)
Lemma allclose_true (a b : array2) (f : bool) :
  shape0 a = shape0 b -> shape1 a = shape1 b ->
  allclose a b = Done f ->
  (f = true <->
   forall (r c : nat) (rowa rowb : list R) (x y : R),
     data a !! r = Some rowa -> data b !! r = Some rowb ->
     rowa !! c = Some x -> rowb !! c = Some y ->
     Rabs (x - y) <= atol + rtol * Rabs y).
Proof.
  intros H0 H1 H. rewrite allclose_same_shape in H by assumption.
  injection H as <-. rewrite forallb_combine_lookup. split.
  - intros Hall r c rowa rowb x y Ha Hb Hx Hy.
    specialize (Hall r rowa rowb Ha Hb). simpl in Hall.
    rewrite forallb_combine_lookup in Hall.
    apply isclose_spec. exact (Hall c x y Hx Hy).
  - intros Hall r rowa rowb Ha Hb. simpl.
    apply forallb_combine_lookup. intros c x y Hx Hy.
    apply isclose_spec. simpl. exact (Hall r c rowa rowb x y Ha Hb Hx Hy).
Qed.

End allclose_facts.

Section is_symmetric_further.

Import circularize benchmark.
Local Open Scope R_scope.

Variable get_image_quadrants : ndarray -> attempt (array2 * array2 * array2 * array2).

Local Abbreviation is_symmetric := (benchmark.is_symmetric get_image_quadrants).

(** X18. [is_symmetric] returns only when a symmetry axis is asked for,
    and then after the quadrants were obtained and with exactly two
    flags; with [i_sym=False] and [j_sym=False] it never returns. *)
Theorem is_symmetric_returns (arr : ndarray) (i_sym j_sym : bool)
        (valid_flag : list bool) :
  is_symmetric arr i_sym j_sym = Done valid_flag ->
  (i_sym = true \/ j_sym = true) /\
  length valid_flag = 2%nat /\
  exists q, get_image_quadrants arr = Done q.
Proof.
  unfold benchmark.is_symmetric.
  destruct (get_image_quadrants arr) as [[[[Q0 Q1] Q2] Q3]|e]; simpl;
    [|discriminate].
  intros H.
  assert (Hlen : forall (x y : attempt bool),
             (f1 <-- x ;; f2 <-- y ;; Done [f1; f2]) = Done valid_flag ->
             length valid_flag = 2%nat).
  { intros [f1|?] [f2|?]; simpl; intros [= <-] || discriminate. reflexivity. }
  destruct i_sym, j_sym; simpl in H.
  - split; [auto|]. split; [exact (Hlen _ _ H) | eauto].
  - split; [auto|]. split; [exact (Hlen _ _ H) | eauto].
  - split; [auto|]. split; [exact (Hlen _ _ H) | eauto].
  - discriminate.
Qed.

(** X19. Exactly mirrored quadrants pass. If the quadrants are exact
    mirror images of each other, left-right for [i_sym] alone, up-down for
    [j_sym] alone, and both for polar symmetry, both flags are true. *)
Theorem is_symmetric_exact_mirror (arr : ndarray) (Q0 Q1 Q2 Q3 : array2) :
  get_image_quadrants arr = Done (Q0, Q1, Q2, Q3) ->
  (Q0 = fliplr Q1 -> Q3 = fliplr Q2 ->
   is_symmetric arr true false = Done [true; true]) /\
  (Q2 = flipud Q1 -> Q3 = flipud Q0 ->
   is_symmetric arr false true = Done [true; true]) /\
  (Q3 = flipud (fliplr Q1) -> Q2 = flipud (fliplr Q0) ->
   is_symmetric arr true true = Done [true; true]).
Proof.
  intros Hq. unfold benchmark.is_symmetric. rewrite Hq. simpl.
  repeat split; intros -> ->; now rewrite !allclose_refl.
Qed.

(** X20. What the flags of the left-right check say. For quadrants of
    one shape, the first flag of [is_symmetric(arr, True, False)] is true
    exactly when every element of [Q0] and the element of the same row of
    [Q1] read from the right end differ by at most
    [atol + rtol * |Q0 element|], with [np.allclose]'s defaults; the
    second flag says the same of [Q3] and [Q2]. *)
Theorem is_symmetric_left_right_flags (arr : ndarray) (Q0 Q1 Q2 Q3 : array2)
        (f1 f2 : bool) :
  get_image_quadrants arr = Done (Q0, Q1, Q2, Q3) ->
  shape0 Q1 = shape0 Q0 -> shape1 Q1 = shape1 Q0 ->
  shape0 Q2 = shape0 Q3 -> shape1 Q2 = shape1 Q3 ->
  is_symmetric arr true false = Done [f1; f2] ->
  (f1 = true <->
   forall (r c : nat) (row1 row0 : list R) (x y : R),
     data Q1 !! r = Some row1 -> data Q0 !! r = Some row0 ->
     rev row1 !! c = Some x -> row0 !! c = Some y ->
     Rabs (x - y) <= atol + rtol * Rabs y) /\
  (f2 = true <->
   forall (r c : nat) (row2 row3 : list R) (x y : R),
     data Q2 !! r = Some row2 -> data Q3 !! r = Some row3 ->
     rev row2 !! c = Some x -> row3 !! c = Some y ->
     Rabs (x - y) <= atol + rtol * Rabs y).
Proof.
  intros Hq H10 H11 H20 H21. unfold benchmark.is_symmetric. rewrite Hq. simpl.
  destruct (allclose (fliplr Q1) Q0) as [g1|e] eqn:E1; simpl; [|discriminate].
  destruct (allclose (fliplr Q2) Q3) as [g2|e] eqn:E2; simpl; [|discriminate].
  intros [= <- <-].
  assert (Hflip : forall (a b : array2) (g : bool),
             shape0 a = shape0 b -> shape1 a = shape1 b ->
             allclose (fliplr a) b = Done g ->
             (g = true <->
              forall (r c : nat) (rowa rowb : list R) (x y : R),
                data a !! r = Some rowa -> data b !! r = Some rowb ->
                rev rowa !! c = Some x -> rowb !! c = Some y ->
                Rabs (x - y) <= atol + rtol * Rabs y)).
  { intros a b g H0 H1 E. rewrite (allclose_true (fliplr a) b g H0 H1 E).
    simpl. split.
    - intros H r c rowa rowb x y Ha Hb Hx Hy.
      apply (H r c (rev rowa) rowb x y); try assumption.
      apply map_lookup_Some. eauto.
    - intros H r c rowa' rowb x y Ha Hb Hx Hy.
      apply map_lookup_Some in Ha as (rowa & Ha & ->).
      exact (H r c rowa rowb x y Ha Hb Hx Hy). }
  split; apply Hflip; assumption.
Qed.

End is_symmetric_further.

(** Four equal quadrants that are their own mirror image. *)
Lemma is_symmetric_uniform_quadrants (q : array2) (arr : ndarray) :
  benchmark.fliplr q = q ->
  benchmark.is_symmetric (fun _ => benchmark.Done (q, q, q, q)) arr true false
  = benchmark.Done [true; true].
Proof.
  intros H. cbv [benchmark.is_symmetric benchmark.and_next andb negb].
  rewrite H, allclose_refl. reflexivity.
Qed.

Lemma is_symmetric_returns_witness :
  (true = true \/ false = true) /\
  length [true; true] = 2%nat /\
  exists q, (fun _ : ndarray =>
               benchmark.Done (Array2 1 2 [[1%R; 1%R]], Array2 1 2 [[1%R; 1%R]],
                               Array2 1 2 [[1%R; 1%R]], Array2 1 2 [[1%R; 1%R]]))
              (A2 (Array2 2 4 [[1%R; 1%R; 1%R; 1%R]; [1%R; 1%R; 1%R; 1%R]]))
            = benchmark.Done q.
Proof.
  apply (is_symmetric_returns
           (fun _ => benchmark.Done
                       (Array2 1 2 [[1%R; 1%R]], Array2 1 2 [[1%R; 1%R]],
                        Array2 1 2 [[1%R; 1%R]], Array2 1 2 [[1%R; 1%R]]))
           (A2 (Array2 2 4 [[1%R; 1%R; 1%R; 1%R]; [1%R; 1%R; 1%R; 1%R]]))
           true false [true; true]).
  apply is_symmetric_uniform_quadrants. reflexivity.
Defined.

Lemma is_symmetric_exact_mirror_witness :
  benchmark.is_symmetric
    (fun _ => benchmark.Done
                (Array2 1 2 [[2%R; 1%R]], Array2 1 2 [[1%R; 2%R]],
                 Array2 1 2 [[3%R; 4%R]], Array2 1 2 [[4%R; 3%R]]))
    (A2 (Array2 2 4 [[1%R; 2%R; 2%R; 1%R]; [3%R; 4%R; 4%R; 3%R]]))
    true false
  = benchmark.Done [true; true].
Proof.
  apply (proj1 (is_symmetric_exact_mirror
                  (fun _ => benchmark.Done
                              (Array2 1 2 [[2%R; 1%R]], Array2 1 2 [[1%R; 2%R]],
                               Array2 1 2 [[3%R; 4%R]], Array2 1 2 [[4%R; 3%R]]))
                  (A2 (Array2 2 4 [[1%R; 2%R; 2%R; 1%R]; [3%R; 4%R; 4%R; 3%R]]))
                  _ _ _ _ eq_refl)); reflexivity.
Defined.

Lemma is_symmetric_left_right_flags_witness :
  (true = true <->
   forall (r c : nat) (row1 row0 : list R) (x y : R),
     data (Array2 1 2 [[1%R; 1%R]]) !! r = Some row1 ->
     data (Array2 1 2 [[1%R; 1%R]]) !! r = Some row0 ->
     rev row1 !! c = Some x -> row0 !! c = Some y ->
     (Rabs (x - y) <= benchmark.atol + benchmark.rtol * Rabs y)%R) /\
  (true = true <->
   forall (r c : nat) (row2 row3 : list R) (x y : R),
     data (Array2 1 2 [[1%R; 1%R]]) !! r = Some row2 ->
     data (Array2 1 2 [[1%R; 1%R]]) !! r = Some row3 ->
     rev row2 !! c = Some x -> row3 !! c = Some y ->
     (Rabs (x - y) <= benchmark.atol + benchmark.rtol * Rabs y)%R).
Proof.
  apply (is_symmetric_left_right_flags
           (fun _ => benchmark.Done
                       (Array2 1 2 [[1%R; 1%R]], Array2 1 2 [[1%R; 1%R]],
                        Array2 1 2 [[1%R; 1%R]], Array2 1 2 [[1%R; 1%R]]))
           (A2 (Array2 2 4 [[1%R; 1%R; 1%R; 1%R]; [1%R; 1%R; 1%R; 1%R]]))
           _ _ _ _ true true eq_refl); try reflexivity.
  apply is_symmetric_uniform_quadrants. reflexivity.
Defined.

Section absolute_ratio_facts.

Import circularize benchmark.
Local Open Scope R_scope.

Lemma select_length {A : Type} (mask : list bool) : forall a : list A,
  length mask = length a -> length (select mask a) = count_true mask.
Proof.
  unfold count_true.
  induction mask as [|m mask IH]; intros [|x a]; simpl; try discriminate;
    [reflexivity|].
  intros [= H]. destruct m; simpl; now rewrite IH.
Qed.

Lemma select_agree {A : Type} (mask : list bool) : forall a a' : list A,
  length a = length a' ->
  (forall i, mask !! i = Some true -> a !! i = a' !! i) ->
  select mask a = select mask a'.
Proof.
  induction mask as [|m mask IH]; intros [|x a] [|x' a']; simpl;
    try discriminate; try reflexivity.
  intros [= Hlen] H.
  assert (Hrest : select mask a = select mask a').
  { apply IH; [exact Hlen|]. intros i Hi. exact (H (S i) Hi). }
  destruct m; [|exact Hrest].
  specialize (H 0%nat eq_refl). simpl in H. injection H as ->. now rewrite Hrest.
Qed.

Lemma true_divide_finite (x y : R) : y <> 0 -> true_divide x y = Finite (x / y).
Proof.
  intros Hy. unfold true_divide. now destruct (Req_dec_T y 0).
Qed.

Lemma ratio_of_selected (mask : list bool) : forall f recon : list R,
  length f = length mask -> length recon = length mask ->
  (forall i y, mask !! i = Some true -> recon !! i = Some y -> y <> 0) ->
  zip_with true_divide (select mask f) (select mask recon)
  = map Finite (select mask (zip_with Rdiv f recon)).
Proof.
  induction mask as [|m mask IH]; intros [|x f] [|y recon]; simpl;
    try discriminate; try reflexivity.
  intros [= Hf] [= Hr] H.
  assert (Hrest : zip_with true_divide (select mask f) (select mask recon)
                  = map Finite (select mask (zip_with Rdiv f recon))).
  { apply IH; [exact Hf | exact Hr |]. intros i z Hi. exact (H (S i) z Hi). }
  destruct m; [|exact Hrest]. simpl.
  rewrite true_divide_finite by exact (H 0%nat y eq_refl eq_refl).
  now rewrite Hrest.
Qed.

Lemma zip_with_length_same {A B C : Type} (f : A -> B -> C) (l : list A) :
  forall k : list B, length l = length k -> length (zip_with f l k) = length l.
Proof.
  induction l as [|a l IH]; intros [|b k]; simpl; try discriminate;
    [reflexivity|].
  intros [= H]. now rewrite IH.
Qed.

Lemma mask1_ok_inv (mask : list bool) (a selected : list R) :
  mask1 mask a = Ok selected ->
  length a = length mask /\ selected = select mask a /\
  length selected = count_true mask.
Proof.
  unfold mask1. destruct (Nat.eqb_spec (length mask) (length a)) as [E|E];
    [|discriminate].
  intros [= <-]. split; [now symmetry|]. split; [reflexivity|].
  now apply select_length.
Qed.

Lemma mask1_same_length (mask : list bool) (a : list R) :
  length a = length mask -> mask1 mask a = Ok (select mask a).
Proof.
  intros H. unfold mask1. now rewrite H, Nat.eqb_refl.
Qed.

End absolute_ratio_facts.

Section absolute_ratio_further.

Import circularize benchmark.
Local Open Scope R_scope.

(** X21. What a call of [absolute_ratio_benchmark] that returns has met.
    [kind] is ['inverse'] or ['forward'] (any other leaves [func]
    unbound); the reconstruction has the length of the mask; and the
    result has one ratio for each true entry of the mask. *)
Theorem absolute_ratio_benchmark_returns (a : analytical) (recon : list R)
        (kind : string) (err : list float64) :
  absolute_ratio_benchmark a recon kind = Done err ->
  (kind = "inverse"%string \/ kind = "forward"%string) /\
  length recon = length (mask_valid a) /\
  length err = count_true (mask_valid a).
Proof.
  unfold absolute_ratio_benchmark. intros H.
  assert (Hkind : kind = "inverse"%string \/ kind = "forward"%string).
  { destruct (String.eqb_spec kind "inverse") as [->|_]; [auto|].
    destruct (String.eqb_spec kind "forward") as [->|_]; [auto|].
    discriminate. }
  split; [exact Hkind|].
  set (f := if (kind =? "inverse")%string then Done (func a)
            else if (kind =? "forward")%string then Done (abel a)
            else Failed func_unbound) in H.
  destruct f as [f|e]; simpl in H; [|discriminate].
  destruct (mask1 (mask_valid a) f) as [fm|e] eqn:Ef; simpl in H; [|discriminate].
  destruct (mask1 (mask_valid a) recon) as [rm|e] eqn:Er; simpl in H;
    [|discriminate].
  injection H as <-.
  apply mask1_ok_inv in Ef as (_ & _ & Hfm).
  apply mask1_ok_inv in Er as (Hr & _ & Hrm).
  split; [exact Hr|]. rewrite zip_with_length_same; congruence.
Qed.

(** X22. Values outside the mask do not matter. Two reconstructions of
    one length that agree wherever [mask_valid] is true give the same
    outcome, ratios or exception. *)
Theorem absolute_ratio_benchmark_ignores_masked_out (a : analytical)
        (recon recon' : list R) (kind : string) :
  length recon = length recon' ->
  (forall i, mask_valid a !! i = Some true -> recon !! i = recon' !! i) ->
  absolute_ratio_benchmark a recon kind = absolute_ratio_benchmark a recon' kind.
Proof.
  intros Hlen H. unfold absolute_ratio_benchmark.
  assert (E : mask1 (mask_valid a) recon = mask1 (mask_valid a) recon').
  { unfold mask1. rewrite <- Hlen.
    now rewrite (select_agree (mask_valid a) recon recon' Hlen H). }
  now rewrite E.
Qed.

(** X23. The mask keeps zero divisors out. When the function and the
    reconstruction have the length of the mask and the reconstruction is
    not zero where the mask is true, the call returns and, in exact real
    arithmetic, every entry is the quotient of the two values at a true
    position, in order: no entry is the [nan] or [inf] of a division by
    zero. Overflow of a float64 quotient is not modelled. *)
Theorem absolute_ratio_benchmark_finite (a : analytical) (recon f : list R)
        (kind : string) :
  (kind = "inverse"%string /\ f = func a \/ kind = "forward"%string /\ f = abel a) ->
  length f = length (mask_valid a) ->
  length recon = length (mask_valid a) ->
  (forall i y, mask_valid a !! i = Some true -> recon !! i = Some y -> y <> 0) ->
  absolute_ratio_benchmark a recon kind
  = Done (map Finite (select (mask_valid a) (zip_with Rdiv f recon))).
Proof.
  intros Hkind Hf Hr Hnz. unfold absolute_ratio_benchmark.
  assert (E : (if (kind =? "inverse")%string then Done (func a)
               else if (kind =? "forward")%string then Done (abel a)
               else Failed func_unbound) = Done f).
  { destruct Hkind as [[-> ->] | [-> ->]]; reflexivity. }
  rewrite E. simpl and_next.
  rewrite !mask1_same_length by assumption. simpl.
  now rewrite ratio_of_selected.
Qed.

(** X24. A reconstruction equal to the function. Where it is not zero on
    the mask, every ratio is exactly 1. *)
Theorem absolute_ratio_benchmark_exact (a : analytical) (kind : string)
        (f : list R) :
  (kind = "inverse"%string /\ f = func a \/ kind = "forward"%string /\ f = abel a) ->
  length f = length (mask_valid a) ->
  (forall i y, mask_valid a !! i = Some true -> f !! i = Some y -> y <> 0) ->
  absolute_ratio_benchmark a f kind
  = Done (replicate (count_true (mask_valid a)) (Finite 1)).
Proof.
  intros Hkind Hf Hnz. unfold absolute_ratio_benchmark.
  assert (E : (if (kind =? "inverse")%string then Done (func a)
               else if (kind =? "forward")%string then Done (abel a)
               else Failed func_unbound) = Done f).
  { destruct Hkind as [[-> ->] | [-> ->]]; reflexivity. }
  rewrite E. simpl and_next.
  rewrite !mask1_same_length by assumption. simpl. f_equal.
  clear E Hkind. revert f Hf Hnz. unfold count_true.
  induction (mask_valid a) as [|m mask IH]; intros [|x f]; simpl;
    try discriminate; [reflexivity|].
  intros [= Hf] Hnz.
  assert (Hrest : zip_with true_divide (select mask f) (select mask f)
                  = replicate (length (List.filter (fun m => m) mask)) (Finite 1)).
  { apply IH; [exact Hf|]. intros i y Hi. exact (Hnz (S i) y Hi). }
  destruct m; [|exact Hrest]. simpl.
  rewrite true_divide_self by exact (Hnz 0%nat x eq_refl eq_refl).
  now rewrite Hrest.
Qed.

End absolute_ratio_further.

Lemma absolute_ratio_benchmark_returns_witness :
  ("inverse" = "inverse" \/ "inverse" = "forward")%string /\
  length [1%R; 0%R]
  = length (benchmark.mask_valid
              (benchmark.Analytical [true; false] [1%R; 2%R] [3%R; 4%R])) /\
  length [circularize.true_divide 1 1]
  = circularize.count_true
      (benchmark.mask_valid
         (benchmark.Analytical [true; false] [1%R; 2%R] [3%R; 4%R])).
Proof.
  apply (absolute_ratio_benchmark_returns
           (benchmark.Analytical [true; false] [1%R; 2%R] [3%R; 4%R])
           [1%R; 0%R] "inverse" [circularize.true_divide 1 1]).
  reflexivity.
Defined.

Lemma absolute_ratio_benchmark_ignores_masked_out_witness :
  benchmark.absolute_ratio_benchmark
    (benchmark.Analytical [true; false] [1%R; 2%R] [3%R; 4%R])
    [1%R; 0%R] "inverse"
  = benchmark.absolute_ratio_benchmark
      (benchmark.Analytical [true; false] [1%R; 2%R] [3%R; 4%R])
      [1%R; 5%R] "inverse".
Proof.
  apply (absolute_ratio_benchmark_ignores_masked_out
           (benchmark.Analytical [true; false] [1%R; 2%R] [3%R; 4%R])
           [1%R; 0%R] [1%R; 5%R] "inverse").
  - reflexivity.
  - intros [|[|i]]; simpl; intros H; try discriminate H; reflexivity.
Defined.

Lemma absolute_ratio_benchmark_finite_witness :
  benchmark.absolute_ratio_benchmark
    (benchmark.Analytical [true; false] [1%R; 2%R] [3%R; 4%R])
    [2%R; 0%R] "forward"
  = benchmark.Done
      (map circularize.Finite
           (circularize.select
              (benchmark.mask_valid
                 (benchmark.Analytical [true; false] [1%R; 2%R] [3%R; 4%R]))
              (zip_with Rdiv [3%R; 4%R] [2%R; 0%R]))).
Proof.
  apply (absolute_ratio_benchmark_finite
           (benchmark.Analytical [true; false] [1%R; 2%R] [3%R; 4%R])
           [2%R; 0%R] [3%R; 4%R] "forward").
  - right. split; reflexivity.
  - reflexivity.
  - reflexivity.
  - intros [|[|i]] y; simpl; intros H; try discriminate H.
    intros [= <-]. lra.
Defined.

Lemma absolute_ratio_benchmark_exact_witness :
  benchmark.absolute_ratio_benchmark
    (benchmark.Analytical [true; false] [1%R; 0%R] [3%R; 4%R])
    [1%R; 0%R] "inverse"
  = benchmark.Done
      (replicate
         (circularize.count_true
            (benchmark.mask_valid
               (benchmark.Analytical [true; false] [1%R; 0%R] [3%R; 4%R])))
         (circularize.Finite 1)).
Proof.
  apply (absolute_ratio_benchmark_exact
           (benchmark.Analytical [true; false] [1%R; 0%R] [3%R; 4%R])
           "inverse" [1%R; 0%R]).
  - left. split; reflexivity.
  - reflexivity.
  - intros [|[|i]] y; simpl; intros H; try discriminate H.
    intros [= <-]. lra.
Defined.
